(** * Ip-geo-API: the range index and the /getIpInfo lookup

    A shallow embedding of [main.go]: the record loop of [loadCsv], the
    address validation of [parseIpAddress] and the body of the
    [GET /getIpInfo] handler, together with the library code they call:
    [sort.Search] and [sort.Slice], [math/big], [net.ParseIP] and
    [net.IP.To4], [encoding/binary], [encoding/csv] (at the level of
    rows) and the two validator tags. The standard library is that of
    Go 1.23, which the Dockerfile builds with.

    [src/unnamed/part_000] is an earlier revision of the same program:
    its record loop ([downloadCsv]) and its handler are the ones of
    [main.go], with the sort done in [main].

    [updateCsvFiles] and the start of [main] are embedded over a file
    system passed along as a state, with the network, the decoding of
    JSON and SHA-1 as parameters.

    Conventions.
    - [*big.Int] is [Z]; a byte is a [Z] in [0, 256); a Go [string] is a
      [string] (a sequence of 8-bit characters); a slice is a [list].
    - A Go run-time panic (index out of range, nil dereference) is the
      [Panic] outcome of the [exec] monad, so that "does not fault" is a
      statement and not an artefact of totality.
    - Slice indices are [nat]: Go's [int] is 64 bits wide and the index
      never approaches that size. *)

From Stdlib Require Import ZArith List String Ascii Bool Lia Arith.
From Stdlib Require Import DecimalString DecimalZ.
From Stdlib Require Import Sorting.Permutation.
From Equations Require Import Equations.
Import ListNotations.

Open Scope Z_scope.

(** ** Outcomes of code that may panic *)

Inductive exec (A : Type) : Type :=
| Val (a : A)
| Panic.
Arguments Val {A} a.
Arguments Panic {A}.

Definition bind {A B : Type} (m : exec A) (k : A -> exec B) : exec B :=
  match m with
  | Val a => k a
  | Panic => Panic
  end.

Notation "x <- m ;; k" := (bind m (fun x => k))
  (at level 61, m at next level, right associativity).

(** [s[i]] on a slice: panics out of range. *)
Definition index {A : Type} (s : list A) (i : nat) : exec A :=
  match nth_error s i with
  | Some a => Val a
  | None => Panic
  end.

(** ** math/big *)

Module big.

(** [x.Cmp(y)]: -1, 0 or +1. *)
Definition Cmp (x y : Z) : Z :=
  match x ?= y with
  | Lt => -1
  | Eq => 0
  | Gt => 1
  end.

(** [x.Sign()]: -1, 0 or +1. *)
Definition Sign (x : Z) : Z := Z.sgn x.

(** [SetUint64]: the value of an unsigned 64-bit word. *)
Definition SetUint64 (x : Z) : Z := x mod 2 ^ 64.

(** [SetBytes]: the bytes read as a big-endian unsigned integer. *)
Definition SetBytes (buf : list Z) : Z :=
  fold_left (fun acc b => acc * 256 + b) buf 0.

(** The value of a decimal digit character. *)
Definition digitVal (c : ascii) : option Z :=
  let n := Z.of_N (N_of_ascii c) in
  if (48 <=? n) && (n <=? 57) then Some (n - 48) else None.

(** The digit loop of the scanner in base 10: every remaining
    character has to be a digit, since [SetString] fails unless the
    whole string is consumed. *)
Fixpoint scanDigits (s : list ascii) (acc : Z) : option Z :=
  match s with
  | [] => Some acc
  | c :: s' =>
      match digitVal c with
      | Some d => scanDigits s' (acc * 10 + d)
      | None => None
      end
  end.

(** The unsigned part: at least one digit. *)
Definition scanNat (s : list ascii) : option Z :=
  match s with
  | [] => None
  | _ => scanDigits s 0
  end.

(** [new(big.Int).SetString(s, 10)]: an optional sign, then one or more
    decimal digits up to the end of the string; [None] is [ok == false]. *)
Definition SetString (s : string) : option Z :=
  match list_ascii_of_string s with
  | "-"%char :: r => option_map Z.opp (scanNat r)
  | "+"%char :: r => scanNat r
  | r => scanNat r
  end.

End big.

(** ** sort.Search

    [[
    i, j := 0, n
    for i < j {
        h := int(uint(i+j) >> 1)
        if !f(h) { i = h + 1 } else { j = h }
    }
    return i
    ]]
    The predicate may panic (it indexes a slice), so it returns [exec bool]. *)

Module sort.

Equations? Search_loop (f : nat -> exec bool) (i j : nat) : exec nat
  by wf (j - i)%nat lt :=
  Search_loop f i j with lt_dec i j => {
    | right _ := Val i
    | left _ with f ((i + j) / 2)%nat => {
        | Panic := Panic
        | Val false := Search_loop f ((i + j) / 2 + 1)%nat j
        | Val true := Search_loop f i ((i + j) / 2)%nat } }.
Proof.
  all: change (fst (Nat.divmod (i + j) 1 0 1)) with ((i + j) / 2)%nat;
    pose proof (Nat.div_mod_eq (i + j) 2) as E;
    pose proof (Nat.mod_upper_bound (i + j) 2); lia.
Qed.

Definition Search (n : nat) (f : nat -> exec bool) : exec nat :=
  Search_loop f 0%nat n.

(** *** sort.Slice: pattern-defeating quicksort

    [sort.Slice(x, less)] is [pdqsort_func(lessSwap{less, swap}, 0, n,
    bits.Len(uint(n)))]. The slice is a list; [Less] and [Swap] are the
    two operations of [lessSwap], on indices; [less] compares the two
    elements, as the closure of [loadCsv] does. The functions never
    leave the slice, so out of range [Less] is [false] and [Swap] does
    nothing. Loops that are not structural take a bound on the number
    of their iterations. *)

Section Pdqsort.

Variable A : Type.
Variable less : A -> A -> bool.

Fixpoint put (data : list A) (i : nat) (x : A) : list A :=
  match data, i with
  | [], _ => []
  | _ :: t, O => x :: t
  | h :: t, S i' => h :: put t i' x
  end.

Definition Swap (data : list A) (i j : nat) : list A :=
  match nth_error data i, nth_error data j with
  | Some x, Some y => put (put data i y) j x
  | _, _ => data
  end.

Definition Less (data : list A) (i j : nat) : bool :=
  match nth_error data i, nth_error data j with
  | Some x, Some y => less x y
  | _, _ => false
  end.

(** [for j := i; j > a && data.Less(j, j-1); j-- { data.Swap(j, j-1) }] *)
Fixpoint insertionSort_inner (data : list A) (a j : nat) : list A :=
  match j with
  | O => data
  | S j' =>
      if (a <? j)%nat && Less data j j'
      then insertionSort_inner (Swap data j j') a j'
      else data
  end.

(** [for i := a + 1; i < b; i++], with [n] the iterations left. *)
Fixpoint insertionSort_outer (n : nat) (data : list A) (a i : nat)
  : list A :=
  match n with
  | O => data
  | S n' => insertionSort_outer n' (insertionSort_inner data a i) a (S i)
  end.

Definition insertionSort (data : list A) (a b : nat) : list A :=
  insertionSort_outer (b - (a + 1)) data a (a + 1)%nat.

Fixpoint siftDown_loop (n : nat) (data : list A) (root hi first : nat)
  : list A :=
  match n with
  | O => data
  | S n' =>
      let child := (2 * root + 1)%nat in
      if (hi <=? child)%nat then data
      else
        let child :=
          if (child + 1 <? hi)%nat
             && Less data (first + child) (first + child + 1)
          then (child + 1)%nat else child in
        if negb (Less data (first + root) (first + child)) then data
        else siftDown_loop n' (Swap data (first + root) (first + child))
               child hi first
  end.

Definition siftDown (data : list A) (lo hi first : nat) : list A :=
  siftDown_loop hi data lo hi first.

(** [for i := (hi - 1) / 2; i >= 0; i-- { siftDown(data, i, hi, first) }] *)
Fixpoint heapSort_build (i : nat) (data : list A) (hi first : nat)
  : list A :=
  let data := siftDown data i hi first in
  match i with
  | O => data
  | S i' => heapSort_build i' data hi first
  end.

(** [for i := hi - 1; i >= 0; i-- { data.Swap(first, first+i);
    siftDown(data, lo, i, first) }] *)
Fixpoint heapSort_pop (i : nat) (data : list A) (first : nat) : list A :=
  let data := siftDown (Swap data first (first + i)) 0 i first in
  match i with
  | O => data
  | S i' => heapSort_pop i' data first
  end.

Definition heapSort (data : list A) (a b : nat) : list A :=
  let first := a in
  let hi := (b - a)%nat in
  let data := heapSort_build ((hi - 1) / 2) data hi first in
  match hi with
  | O => data
  | S i => heapSort_pop i data first
  end.

(** The 64-bit xorshift generator. *)
Definition xorshift_Next (r : Z) : Z :=
  let r := Z.lxor r (Z.shiftl r 13 mod 2 ^ 64) in
  let r := Z.lxor r (Z.shiftr r 7) in
  Z.lxor r (Z.shiftl r 17 mod 2 ^ 64).

(** [bits.Len]. *)
Definition bitsLen (x : nat) : nat :=
  match x with
  | O => O
  | _ => S (Nat.log2 x)
  end.

Definition nextPowerOfTwo (length : nat) : Z :=
  2 ^ Z.of_nat (bitsLen length).

Fixpoint breakPatterns_loop (n i : nat) (random modulus : Z)
  (data : list A) (a idx length : nat) : list A :=
  match n with
  | O => data
  | S n' =>
      let random := xorshift_Next random in
      let other := Z.to_nat (Z.land random (modulus - 1)) in
      let other :=
        if (length <=? other)%nat then (other - length)%nat else other in
      breakPatterns_loop n' (S i) random modulus
        (Swap data (idx - 1 + i) (a + other)) a idx length
  end.

Definition breakPatterns (data : list A) (a b : nat) : list A :=
  let length := (b - a)%nat in
  if (8 <=? length)%nat then
    breakPatterns_loop 3 0 (Z.of_nat length) (nextPowerOfTwo length)
      data a (a + (length / 4) * 2 - 1)%nat length
  else data.

Inductive sortedHint : Type :=
| unknownHint
| increasingHint
| decreasingHint.

Definition order2 (data : list A) (a b swaps : nat) : nat * nat * nat :=
  if Less data b a then (b, a, S swaps) else (a, b, swaps).

Definition median (data : list A) (a b c swaps : nat) : nat * nat :=
  let '(a, b, swaps) := order2 data a b swaps in
  let '(b, c, swaps) := order2 data b c swaps in
  let '(a, b, swaps) := order2 data a b swaps in
  (b, swaps).

Definition medianAdjacent (data : list A) (a swaps : nat) : nat * nat :=
  median data (a - 1) a (a + 1) swaps.

Definition choosePivot (data : list A) (a b : nat) : nat * sortedHint :=
  let l := (b - a)%nat in
  let i := (a + l / 4 * 1)%nat in
  let j := (a + l / 4 * 2)%nat in
  let k := (a + l / 4 * 3)%nat in
  let '(j, swaps) :=
    if (8 <=? l)%nat then
      if (50 <=? l)%nat then
        let '(i, swaps) := medianAdjacent data i 0 in
        let '(j, swaps) := medianAdjacent data j swaps in
        let '(k, swaps) := medianAdjacent data k swaps in
        median data i j k swaps
      else median data i j k 0
    else (j, O) in
  if (swaps =? 0)%nat then (j, increasingHint)
  else if (swaps =? 12)%nat then (j, decreasingHint)
  else (j, unknownHint).

(** [for i < j { data.Swap(i, j); i++; j-- }] *)
Fixpoint reverseRange_loop (n : nat) (data : list A) (i j : nat)
  : list A :=
  match n with
  | O => data
  | S n' =>
      if (i <? j)%nat
      then reverseRange_loop n' (Swap data i j) (S i) (j - 1)
      else data
  end.

Definition reverseRange (data : list A) (a b : nat) : list A :=
  reverseRange_loop (b - a) data a (b - 1).

(** [for i < b && !data.Less(i, i-1) { i++ }] *)
Fixpoint runUp (n : nat) (data : list A) (i b : nat) : nat :=
  match n with
  | O => i
  | S n' =>
      if (i <? b)%nat && negb (Less data i (i - 1))
      then runUp n' data (S i) b
      else i
  end.

(** [for j := i - 1; j >= 1; j-- { if !data.Less(j, j-1) { break };
    data.Swap(j, j-1) }] *)
Fixpoint shiftLeft (data : list A) (j : nat) : list A :=
  match j with
  | O => data
  | S j' =>
      if negb (Less data j j') then data
      else shiftLeft (Swap data j j') j'
  end.

(** [for j := i + 1; j < b; j++ { if !data.Less(j, j-1) { break };
    data.Swap(j, j-1) }] *)
Fixpoint shiftRight (n : nat) (data : list A) (j : nat) : list A :=
  match n with
  | O => data
  | S n' =>
      if negb (Less data j (j - 1)) then data
      else shiftRight n' (Swap data j (j - 1)) (S j)
  end.

(** [for j := 0; j < maxSteps; j++], with [steps] the iterations left. *)
Fixpoint partialInsertionSort_loop (steps : nat) (data : list A)
  (a b i : nat) : list A * bool :=
  match steps with
  | O => (data, false)
  | S steps' =>
      let i := runUp b data i b in
      if (i =? b)%nat then (data, true)
      else if (b - a <? 50)%nat then (data, false)
      else
        let data := Swap data i (i - 1) in
        let data :=
          if (2 <=? i - a)%nat then shiftLeft data (i - 1) else data in
        let data :=
          if (2 <=? b - i)%nat then shiftRight (b - (i + 1)) data (i + 1)
          else data in
        partialInsertionSort_loop steps' data a b i
  end.

Definition partialInsertionSort (data : list A) (a b : nat)
  : list A * bool :=
  partialInsertionSort_loop 5 data a b (a + 1).

(** [for i <= j && data.Less(i, a) { i++ }] *)
Fixpoint skipLess (n : nat) (data : list A) (a i j : nat) : nat :=
  match n with
  | O => i
  | S n' =>
      if (i <=? j)%nat && Less data i a then skipLess n' data a (S i) j
      else i
  end.

(** [for i <= j && !data.Less(j, a) { j-- }] *)
Fixpoint skipNotLess (n : nat) (data : list A) (a i j : nat) : nat :=
  match n with
  | O => j
  | S n' =>
      if (i <=? j)%nat && negb (Less data j a)
      then skipNotLess n' data a i (j - 1)
      else j
  end.

(** The second loop of [partition_func]; the result is the slice and
    the final [j]. *)
Fixpoint partition_loop (n : nat) (data : list A) (a b i j : nat)
  : list A * nat :=
  match n with
  | O => (data, j)
  | S n' =>
      let i := skipLess b data a i j in
      let j := skipNotLess b data a i j in
      if (j <? i)%nat then (data, j)
      else partition_loop n' (Swap data i j) a b (S i) (j - 1)
  end.

Definition partition (data : list A) (a b pivot : nat)
  : list A * nat * bool :=
  let data := Swap data a pivot in
  let i := skipLess b data a (a + 1) (b - 1) in
  let j := skipNotLess b data a i (b - 1) in
  if (j <? i)%nat then (Swap data j a, j, true)
  else
    let '(data, j) :=
      partition_loop b (Swap data i j) a b (S i) (j - 1) in
    (Swap data j a, j, false).

(** [for i <= j && !data.Less(a, i) { i++ }] *)
Fixpoint skipNotGreater (n : nat) (data : list A) (a i j : nat) : nat :=
  match n with
  | O => i
  | S n' =>
      if (i <=? j)%nat && negb (Less data a i)
      then skipNotGreater n' data a (S i) j
      else i
  end.

(** [for i <= j && data.Less(a, j) { j-- }] *)
Fixpoint skipGreater (n : nat) (data : list A) (a i j : nat) : nat :=
  match n with
  | O => j
  | S n' =>
      if (i <=? j)%nat && Less data a j
      then skipGreater n' data a i (j - 1)
      else j
  end.

Fixpoint partitionEqual_loop (n : nat) (data : list A) (a b i j : nat)
  : list A * nat :=
  match n with
  | O => (data, i)
  | S n' =>
      let i := skipNotGreater b data a i j in
      let j := skipGreater b data a i j in
      if (j <? i)%nat then (data, i)
      else partitionEqual_loop n' (Swap data i j) a b (S i) (j - 1)
  end.

Definition partitionEqual (data : list A) (a b pivot : nat)
  : list A * nat :=
  partitionEqual_loop b (Swap data a pivot) a b (a + 1) (b - 1).

Definition isIncreasing (h : sortedHint) : bool :=
  match h with increasingHint => true | _ => false end.

Definition isDecreasing (h : sortedHint) : bool :=
  match h with decreasingHint => true | _ => false end.

(** [pdqsort_func] sorts [data[a:b]]. Each turn of its loop and each
    recursive call works on a strictly shorter range, which [n]
    bounds. The recursive call starts with both flags [true]; the
    loop goes on with the flags just computed. *)
Fixpoint pdqsort (n : nat) (data : list A) (a b limit : nat)
  (wasBalanced wasPartitioned : bool) : list A :=
  match n with
  | O => data
  | S n' =>
      let length := (b - a)%nat in
      if (length <=? 12)%nat then insertionSort data a b
      else if (limit =? 0)%nat then heapSort data a b
      else
        let '(data, limit) :=
          if negb wasBalanced
          then (breakPatterns data a b, (limit - 1)%nat)
          else (data, limit) in
        let '(pivot, hint) := choosePivot data a b in
        let '(data, pivot, hint) :=
          if isDecreasing hint
          then (reverseRange data a b, (b - 1 - (pivot - a))%nat,
                increasingHint)
          else (data, pivot, hint) in
        let '(data, sorted) :=
          if wasBalanced && wasPartitioned && isIncreasing hint
          then partialInsertionSort data a b
          else (data, false) in
        if sorted then data
        else if (0 <? a)%nat && negb (Less data (a - 1) pivot) then
          let '(data, mid) := partitionEqual data a b pivot in
          pdqsort n' data mid b limit wasBalanced wasPartitioned
        else
          let '(data, mid, alreadyPartitioned) :=
            partition data a b pivot in
          let leftLen := (mid - a)%nat in
          let rightLen := (b - mid)%nat in
          let balanceThreshold := (length / 8)%nat in
          if (leftLen <? rightLen)%nat then
            let wasBalanced := (balanceThreshold <=? leftLen)%nat in
            let data := pdqsort n' data a mid limit true true in
            pdqsort n' data (mid + 1) b limit wasBalanced
              alreadyPartitioned
          else
            let wasBalanced := (balanceThreshold <=? rightLen)%nat in
            let data := pdqsort n' data (mid + 1) b limit true true in
            pdqsort n' data a mid limit wasBalanced alreadyPartitioned
  end.

Definition Slice (x : list A) : list A :=
  let length := List.length x in
  pdqsort (S length) x 0 length (bitsLen length) true true.

End Pdqsort.

Arguments put {A}.
Arguments Swap {A}.
Arguments Less {A}.
Arguments insertionSort_inner {A}.
Arguments insertionSort_outer {A}.
Arguments insertionSort {A}.
Arguments siftDown_loop {A}.
Arguments siftDown {A}.
Arguments heapSort_build {A}.
Arguments heapSort_pop {A}.
Arguments heapSort {A}.
Arguments breakPatterns_loop {A}.
Arguments breakPatterns {A}.
Arguments order2 {A}.
Arguments median {A}.
Arguments medianAdjacent {A}.
Arguments choosePivot {A}.
Arguments reverseRange_loop {A}.
Arguments reverseRange {A}.
Arguments runUp {A}.
Arguments shiftLeft {A}.
Arguments shiftRight {A}.
Arguments partialInsertionSort_loop {A}.
Arguments partialInsertionSort {A}.
Arguments skipLess {A}.
Arguments skipNotLess {A}.
Arguments partition_loop {A}.
Arguments partition {A}.
Arguments skipNotGreater {A}.
Arguments skipGreater {A}.
Arguments partitionEqual_loop {A}.
Arguments partitionEqual {A}.
Arguments pdqsort {A}.
Arguments Slice {A} less x.

End sort.

(** ** The range index *)

Record IpAddressRange : Type := mkRange {
  start : Z;
  end_ : Z;
  country : string
}.

(** The search and the hit test of the handler, on the normalised
    address [ipNum]:
    [[
    idx := sort.Search(len(arr), func(i int) bool {
        return arr[i].start.Cmp(ipNum) > 0
    })
    if idx > 0 && arr[idx-1].end.Cmp(ipNum) >= 0 && ipNum.Sign() != 0 {
        ... Ok: true, Country: &arr[idx-1].country ...
    }
    ]]
    [Some c] is the hit with country [c], [None] the fall-through to the
    [Ok: false] answer. *)

Definition startAbove (arr : list IpAddressRange) (ipNum : Z) (i : nat)
  : exec bool :=
  r <- index arr i ;; Val (big.Cmp (start r) ipNum >? 0).

Definition searchIdx (arr : list IpAddressRange) (ipNum : Z) : exec nat :=
  sort.Search (List.length arr) (startAbove arr ipNum).

Definition lookup (arr : list IpAddressRange) (ipNum : Z)
  : exec (option string) :=
  idx <- searchIdx arr ipNum ;;
  if (0 <? idx)%nat then
    r <- index arr (idx - 1) ;;
    if big.Cmp (end_ r) ipNum >=? 0 then
      if negb (big.Sign ipNum =? 0) then Val (Some (country r))
      else Val None
    else Val None
  else Val None.


(** ** encoding/csv, at the level of rows

    The lexing of a file into rows is not modelled: a file is the list of
    its rows, each one either fields or a row the reader rejects (a bare
    quote, an unterminated quoted field). [readRecord] is the end of
    [Reader.readRecord], with [FieldsPerRecord] left at its default 0
    (what the reader holds after an error is of no use: the loop of
    [loadCsv] ends there):
    [[
    if r.FieldsPerRecord > 0 {
        if len(dst) != r.FieldsPerRecord && err == nil { err = ErrFieldCount }
    } else if r.FieldsPerRecord == 0 {
        r.FieldsPerRecord = len(dst)
    }
    return dst, err
    ]] *)

Module csv.

Inductive Row : Type :=
| Fields (rec : list string)
| Malformed.

(** The record, whether [err != nil], and the updated [FieldsPerRecord]. *)
Definition readRecord (FieldsPerRecord : nat) (row : Row)
  : list string * bool * nat :=
  match row with
  | Malformed => ([], true, FieldsPerRecord)
  | Fields dst =>
      if (0 <? FieldsPerRecord)%nat then
        (dst, negb (List.length dst =? FieldsPerRecord)%nat, FieldsPerRecord)
      else (dst, false, List.length dst)
  end.

End csv.

(** ** loadCsv *)

Record fileInfo : Type := mkFileInfo {
  RemotePath : string;
  LocalName : string
}.

Definition files : list fileInfo :=
  [ mkFileInfo "geo-whois-asn-country/geo-whois-asn-country-ipv4-num.csv"
               "geo-whois-asn-country-ipv4-num.csv";
    mkFileInfo "geo-asn-country/geo-asn-country-ipv6-num.csv"
               "geo-asn-country-ipv6-num.csv" ].

(** The body of the record loop after a successful [Read]: [None] is
    [continue], [Some r] the appended range. *)
Definition parseRecord (rec : list string) : exec (option IpAddressRange) :=
  f0 <- index rec 0 ;;
  match big.SetString f0 with
  | None => Val None
  | Some st =>
      f1 <- index rec 1 ;;
      match big.SetString f1 with
      | None => Val None
      | Some en =>
          f2 <- index rec 2 ;;
          Val (Some (mkRange st en f2))
      end
  end.

(** The loop [for { rec, err := r.Read(); if err != nil { break } ... }]
    over the rows the reader still has; the end of the rows is [io.EOF]. *)
Fixpoint readRecords (rows : list csv.Row) (FieldsPerRecord : nat)
  (arr : list IpAddressRange) : exec (list IpAddressRange) :=
  match rows with
  | [] => Val arr
  | row :: rest =>
      match csv.readRecord FieldsPerRecord row with
      | (_, true, _) => Val arr
      | (rec, false, fpr) =>
          o <- parseRecord rec ;;
          match o with
          | None => readRecords rest fpr arr
          | Some r => readRecords rest fpr (arr ++ [r])
          end
      end
  end.

(** The less function given to [sort.Slice]. *)
Definition lessStart (a b : IpAddressRange) : bool :=
  big.Cmp (start a) (start b) <? 0.

Section LoadCsv.

(** [os.Open] followed by the row lexing: [None] when the file cannot
    be opened. *)
Variable open : string -> option (list csv.Row).

Fixpoint loadFiles (fs : list fileInfo) (arr : list IpAddressRange)
  : exec (list IpAddressRange) :=
  match fs with
  | [] => Val arr
  | fi :: fs' =>
      match open (LocalName fi) with
      | None => loadFiles fs' arr
      | Some rows =>
          arr' <- readRecords rows 0 arr ;;
          loadFiles fs' arr'
      end
  end.

Definition loadCsv : exec (list IpAddressRange) :=
  arr <- loadFiles files [] ;;
  Val (sort.Slice lessStart arr).

End LoadCsv.

(** ** net and net/netip: parsing address literals

    [net.ParseIP] is [netip.ParseAddr] followed by [As16], with every
    address that carries a zone refused. *)

Module net.

(** [net.IP] is a byte slice. *)
Definition IP : Type := list Z.

Definition byteOf (c : ascii) : Z := Z.of_N (N_of_ascii c).

Definition isDigit (c : ascii) : bool :=
  (48 <=? byteOf c) && (byteOf c <=? 57).

Definition isDot (c : ascii) : bool := byteOf c =? 46.
Definition isColon (c : ascii) : bool := byteOf c =? 58.
Definition isPercent (c : ascii) : bool := byteOf c =? 37.

(** [fields[pos] = v]. *)
Fixpoint store (l : list Z) (pos : nat) (v : Z) : list Z :=
  match l, pos with
  | [], _ => []
  | _ :: t, O => v :: t
  | h :: t, S p => h :: store t p v
  end.

(** The loop of [parseIPv4Fields] from position [i] on: [atStart] is
    [i == 0], [prevDot] is [s[i-1] == '.'], and [i == len(s)-1] is an
    empty rest. The result is the state the loop ends in. *)
Fixpoint parseIPv4Fields_loop (s : list ascii) (atStart prevDot : bool)
  (val : Z) (pos digLen : nat) (fields : list Z)
  : option (Z * nat * list Z) :=
  match s with
  | [] => Some (val, pos, fields)
  | c :: rest =>
      if isDigit c then
        if (digLen =? 1)%nat && (val =? 0) then None
        else
          let val' := val * 10 + (byteOf c - 48) in
          if val' >? 255 then None
          else parseIPv4Fields_loop rest false false val' pos (S digLen) fields
      else if isDot c then
        if atStart || (match rest with [] => true | _ => false end) || prevDot
        then None
        else if (pos =? 3)%nat then None
        else parseIPv4Fields_loop rest false true 0 (S pos) O
               (store fields pos (val mod 256))
      else None
  end.

(** [parseIPv4Fields]: the four octets of a dotted-decimal string. *)
Definition parseIPv4Fields (s : list ascii) : option (list Z) :=
  match parseIPv4Fields_loop s true false 0 O O [0; 0; 0; 0] with
  | None => None
  | Some (val, pos, fields) =>
      if (pos <? 3)%nat then None
      else Some (store fields 3 (val mod 256))
  end.

Definition hexVal (c : ascii) : option Z :=
  let n := byteOf c in
  if (48 <=? n) && (n <=? 57) then Some (n - 48)
  else if (97 <=? n) && (n <=? 102) then Some (n - 97 + 10)
  else if (65 <=? n) && (n <=? 70) then Some (n - 65 + 10)
  else None.

(** The hexadecimal group at the head of [s]: the number of digits
    read, their value and the rest; [None] for a fifth digit or a
    value above 0xffff. *)
Fixpoint hexGroup (s : list ascii) (off : nat) (acc : Z)
  : option (nat * Z * list ascii) :=
  match s with
  | [] => Some (off, acc, [])
  | c :: rest =>
      match hexVal c with
      | None => Some (off, acc, s)
      | Some d =>
          let acc' := (acc * 16 + d) mod 2 ^ 32 in
          if (3 <? off)%nat then None
          else if acc' >? 65535 then None
          else hexGroup rest (S off) acc'
      end
  end.

(** The group loop of [parseIPv6]. [ip] holds the bytes written so far,
    so the loop variable [i] is its length; [groups] counts the 16-bit
    groups that still fit, and the loop condition [i < 16] fails when
    it reaches 0. The result is the rest of the string, the bytes and
    the position of the ellipsis. *)
Fixpoint parseIPv6_loop (groups : nat) (s : list ascii) (ip : list Z)
  (ellipsis : option nat) : option (list ascii * list Z * option nat) :=
  match groups with
  | O => Some (s, ip, ellipsis)
  | S groups' =>
      match hexGroup s O 0 with
      | None => None
      | Some (off, acc, rest) =>
          if (off =? 0)%nat then None
          else
            match rest with
            | [] =>
                Some ([], ip ++ [Z.shiftr acc 8 mod 256; acc mod 256],
                      ellipsis)
            | c :: rest' =>
                let i := List.length ip in
                if isDot c then
                  if (match ellipsis with None => true | _ => false end)
                     && negb (i =? 12)%nat then None
                  else if (16 <? i + 4)%nat then None
                  else
                    match parseIPv4Fields s with
                    | None => None
                    | Some fields => Some ([], ip ++ fields, ellipsis)
                    end
                else
                  let ip' := ip ++ [Z.shiftr acc 8 mod 256; acc mod 256] in
                  if negb (isColon c) then None
                  else
                    match rest' with
                    | [] => None
                    | c' :: rest'' =>
                        if isColon c' then
                          match ellipsis with
                          | Some _ => None
                          | None =>
                              match rest'' with
                              | [] => Some ([], ip', Some (List.length ip'))
                              | _ => parseIPv6_loop groups' rest'' ip'
                                       (Some (List.length ip'))
                              end
                          end
                        else parseIPv6_loop groups' rest' ip' ellipsis
                    end
            end
      end
  end.

(** [parseIPv6], for a string without a zone: the 16 bytes. *)
Definition parseIPv6 (s : list ascii) : option (list Z) :=
  let finish (r : list ascii * list Z * option nat) :=
    let '(rest, ip, ellipsis) := r in
    match rest with
    | _ :: _ => None
    | [] =>
        let i := List.length ip in
        if (i <? 16)%nat then
          match ellipsis with
          | None => None
          | Some e =>
              Some (firstn e ip ++ repeat 0 (16 - i) ++ skipn e ip)
          end
        else
          match ellipsis with
          | Some _ => None
          | None => Some ip
          end
    end in
  match s with
  | c0 :: c1 :: rest =>
      if isColon c0 && isColon c1 then
        match rest with
        | [] => Some (repeat 0 16%nat)
        | _ =>
            match parseIPv6_loop 8 rest [] (Some O) with
            | None => None
            | Some r => finish r
            end
        end
      else
        match parseIPv6_loop 8 s [] None with
        | None => None
        | Some r => finish r
        end
  | _ =>
      match parseIPv6_loop 8 s [] None with
      | None => None
      | Some r => finish r
      end
  end.

Definition v4InV6Prefix : list Z :=
  [0; 0; 0; 0; 0; 0; 0; 0; 0; 0; 255; 255].

(** The scan of [netip.ParseAddr] for the first of ['.'], [':'] and
    ['%'], which picks the parser; [whole] is the string it is given. *)
Fixpoint parseAddr_scan (whole s : list ascii) : option IP :=
  match s with
  | [] => None
  | c :: rest =>
      if isDot c then
        option_map (fun f => v4InV6Prefix ++ f) (parseIPv4Fields whole)
      else if isColon c then
        if existsb isPercent whole then None
        else parseIPv6 whole
      else if isPercent c then None
      else parseAddr_scan whole rest
  end.

(** [net.ParseIP]: the 16-byte form of the address, or [None] for nil. *)
Definition ParseIP (s : string) : option IP :=
  parseAddr_scan (list_ascii_of_string s) (list_ascii_of_string s).

Definition isZeros (p : list Z) : bool := forallb (fun b => b =? 0) p.

(** [ip.To4()]: the 4-byte form, or [None] for nil. *)
Definition To4 (ip : IP) : option IP :=
  if (List.length ip =? 4)%nat then Some ip
  else if (List.length ip =? 16)%nat
          && isZeros (firstn 10 ip)
          && (nth 10 ip 0 =? 255) && (nth 11 ip 0 =? 255)
  then Some (firstn 4 (skipn 12 ip))
  else None.

(** [ipv4only] and [ipv6only], the filters of the address list. *)
Definition ipv4only (ip : IP) : bool :=
  match To4 ip with Some _ => true | None => false end.

Definition ipv6only (ip : IP) : bool :=
  (List.length ip =? 16)%nat
  && match To4 ip with Some _ => false | None => true end.

(** Whether [net.ResolveIPAddr("ip4", s)] (or ["ip6"] when [v6]) returns
    without an error, for a literal [s]: the address list is the parsed
    address alone, and the call fails when the filter of the family
    empties it. A string that is no literal would go to a name lookup;
    the validator calls this only after [net.ParseIP] has accepted the
    string, so that case is left as a failure. *)
Definition ResolveIPAddr_ok (v6 : bool) (s : string) : bool :=
  match ParseIP s with
  | Some ip => if v6 then ipv6only ip else ipv4only ip
  | None => false
  end.

End net.

(** ** encoding/binary *)

Module binary.

(** [binary.BigEndian.Uint32(b)]: panics when [b] has fewer than four
    bytes. *)
Definition BigEndian_Uint32 (b : list Z) : exec Z :=
  b3 <- index b 3 ;;
  b2 <- index b 2 ;;
  b1 <- index b 1 ;;
  b0 <- index b 0 ;;
  Val (Z.lor (Z.lor (Z.lor b3 (Z.shiftl b2 8)) (Z.shiftl b1 16))
             (Z.shiftl b0 24)).

End binary.

(** ** go-playground/validator: the tags used by parseIpAddress

    [required] holds of a non-empty string. [ip4_addr] and [ip6_addr] are
    [isIP4AddrResolvable] and [isIP6AddrResolvable]: [isIPv4] (resp.
    [isIPv6]) and then [net.ResolveIPAddr] without an error. *)

Module validator.

Definition required (s : string) : bool :=
  negb (String.eqb s EmptyString).

Definition isIPv4 (s : string) : bool :=
  match net.ParseIP s with
  | None => false
  | Some ip => match net.To4 ip with Some _ => true | None => false end
  end.

Definition isIPv6 (s : string) : bool :=
  match net.ParseIP s with
  | None => false
  | Some ip => match net.To4 ip with Some _ => false | None => true end
  end.

Definition isIP4AddrResolvable (s : string) : bool :=
  isIPv4 s && net.ResolveIPAddr_ok false s.

Definition isIP6AddrResolvable (s : string) : bool :=
  isIPv6 s && net.ResolveIPAddr_ok true s.

Definition ip4_addr : string -> bool := isIP4AddrResolvable.
Definition ip6_addr : string -> bool := isIP6AddrResolvable.

End validator.

(** ** parseIpAddress and the handler of GET /getIpInfo *)

Record IpAddress : Type := mkIpAddress {
  IpAddr : option string;
  IpV6 : bool
}.

Record ApiResponse : Type := mkApiResponse {
  Ok : bool;
  Country : option string;
  Address : IpAddress
}.

(** [ApiResponse{Ok: false}]: every other field has its zero value. *)
Definition notFound : ApiResponse :=
  mkApiResponse false None (mkIpAddress None false).

(** [None] is the nil pointer. *)
Definition parseIpAddress (rawIpAddr : string) : option IpAddress :=
  if validator.required rawIpAddr && validator.ip4_addr rawIpAddr then
    Some (mkIpAddress (Some rawIpAddr) false)
  else if validator.required rawIpAddr && validator.ip6_addr rawIpAddr then
    Some (mkIpAddress (Some rawIpAddr) true)
  else None.

(** The normalisation of a parsed address:
    [[
    ipNum := big.NewInt(0)
    if addr.To4() != nil {
        ipNum = new(big.Int).SetUint64(uint64(binary.BigEndian.Uint32(addr.To4())))
    } else {
        ipNum.SetBytes(addr)
    }
    ]] *)
Definition ipNumOf (addr : net.IP) : exec Z :=
  match net.To4 addr with
  | Some b => v <- binary.BigEndian_Uint32 b ;; Val (big.SetUint64 v)
  | None => Val (big.SetBytes addr)
  end.

(** The integer the handler searches for, when it gets as far as
    computing one: [None] when an [if] before it fails. *)
Definition normalize (raw : string) : exec (option Z) :=
  match parseIpAddress raw with
  | Some (mkIpAddress (Some s) _) =>
      match net.ParseIP s with
      | Some addr => n <- ipNumOf addr ;; Val (Some n)
      | None => Val None
      end
  | _ => Val None
  end.

(** The handler; [raw] is [c.Query("addr")], the result is the body given
    to [c.JSON]. *)
Definition getIpInfo (arr : list IpAddressRange) (raw : string)
  : exec ApiResponse :=
  match parseIpAddress raw with
  | Some ipAddr =>
      match IpAddr ipAddr with
      | Some s =>
          match net.ParseIP s with
          | Some addr =>
              ipNum <- ipNumOf addr ;;
              hit <- lookup arr ipNum ;;
              match hit with
              | Some c => Val (mkApiResponse true (Some c) ipAddr)
              | None => Val notFound
              end
          | None => Val notFound
          end
      | None => Val notFound
      end
  | None => Val notFound
  end.

(** ** updateCsvFiles

    The function works on the file system and the network. The file
    system is the map from paths to contents, and [os.Stat] succeeds on
    the paths it has. The calls whose outcome the program cannot decide
    are parameters: [http.Get] (with [None] for an error; a response of
    any status is no error), the JSON decoding of the metadata response,
    SHA-1 with its hexadecimal encoding, and whether [os.MkdirAll],
    [os.Create] and the reading of a path fail. [os.Create] empties the
    file and [io.Copy] fills it with what the body delivers, so a copy
    that ends in an error leaves the bytes copied so far. [AUTO_UPDATE]
    enters as the boolean [autoUpdate] the first line computes from
    it. *)

Definition dataDir : string := "/app/data".
Definition repoOwner : string := "sapics".
Definition repoName : string := "ip-location-db".
Definition branch : string := "main".

Record githubContent : Type := mkGithubContent {
  SHA : string;
  DownloadURL : string
}.

Module http.

(** A response: its status, the bytes its body delivers, and whether
    reading it to the end, as [io.Copy] does, ends with an error. *)
Record Response : Type := mkResponse {
  StatusCode : Z;
  Body : string;
  BodyErr : bool
}.

Definition StatusOK : Z := 200.

End http.

(** The errors [updateCsvFiles] returns, by the call that failed. *)
Inductive updateError : Type :=
| ErrMkdir
| ErrFetchMetadata
| ErrBadStatus
| ErrDecode
| ErrDownload
| ErrCreate
| ErrCopy.

(** The file system: the content of each path that exists. *)
Definition FileSystem : Type := string -> option string.

Definition writeFile (fs : FileSystem) (path content : string) : FileSystem :=
  fun p => if String.eqb p path then Some content else fs p.

(** [filepath.Join(dataDir, fi.LocalName)]. *)
Definition localPath (fi : fileInfo) : string :=
  (dataDir ++ "/" ++ LocalName fi)%string.

(** The URL of the contents API, as [fmt.Sprintf] builds it. *)
Definition apiURL (fi : fileInfo) : string :=
  ("https://api.github.com/repos/" ++ repoOwner ++ "/" ++ repoName
   ++ "/contents/" ++ RemotePath fi ++ "?ref=" ++ branch)%string.

(** [fmt.Sprintf("blob %d\x00", len(data))]. *)
Definition blobHeader (data : string) : string :=
  ("blob " ++ NilZero.string_of_uint (Nat.to_uint (String.length data))
   ++ String Ascii.zero EmptyString)%string.

Section UpdateCsvFiles.

Variable http_Get : string -> option http.Response.
Variable decodeMeta : http.Response -> option githubContent.
Variable sha1hex : string -> string.
Variable mkdirFails : bool.
Variable createFails : string -> bool.
Variable unreadable : string -> bool.

(** [hex.EncodeToString] of the SHA-1 of the header followed by the data:
    the blob id git gives the file. *)
Definition localSha (data : string) : string :=
  sha1hex (blobHeader data ++ data)%string.

(** One turn of the loop over [files]: the error returned, if any, and
    the file system the turn leaves. *)
Definition updateFile (autoUpdate : bool) (fs : FileSystem) (fi : fileInfo)
  : option updateError * FileSystem :=
  let exists_ := match fs (localPath fi) with Some _ => true | None => false end in
  if negb exists_ || autoUpdate then
    match http_Get (apiURL fi) with
    | None => (Some ErrFetchMetadata, fs)
    | Some resp =>
        if negb (http.StatusCode resp =? http.StatusOK)
        then (Some ErrBadStatus, fs)
        else
          match decodeMeta resp with
          | None => (Some ErrDecode, fs)
          | Some meta =>
              let download :=
                match fs (localPath fi) with
                | Some data =>
                    if unreadable (localPath fi) then true
                    else negb (String.eqb (localSha data) (SHA meta))
                | None => true
                end in
              if download then
                match http_Get (DownloadURL meta) with
                | None => (Some ErrDownload, fs)
                | Some dlResp =>
                    if createFails (localPath fi) then (Some ErrCreate, fs)
                    else
                      let fs' :=
                        writeFile fs (localPath fi) (http.Body dlResp) in
                      if http.BodyErr dlResp then (Some ErrCopy, fs')
                      else (None, fs')
                end
              else (None, fs)
          end
    end
  else (None, fs).

(** The loop [for _, fi := range files], which returns at the first
    error. *)
Fixpoint updateFiles (autoUpdate : bool) (fs : FileSystem)
  (fis : list fileInfo) : option updateError * FileSystem :=
  match fis with
  | [] => (None, fs)
  | fi :: rest =>
      match updateFile autoUpdate fs fi with
      | (Some e, fs') => (Some e, fs')
      | (None, fs') => updateFiles autoUpdate fs' rest
      end
  end.

Definition updateCsvFiles (autoUpdate : bool) (fs : FileSystem)
  : option updateError * FileSystem :=
  if mkdirFails then (Some ErrMkdir, fs)
  else updateFiles autoUpdate fs files.

(** ** main, up to the start of the server

    [encoding/csv] turns the bytes of a file into rows; that lexing is the
    parameter [lex]. [os.Open] fails on a path that does not exist or
    cannot be read. *)

Variable lex : string -> list csv.Row.

Definition openIn (fs : FileSystem) (name : string)
  : option (list csv.Row) :=
  let path := (dataDir ++ "/" ++ name)%string in
  if unreadable path then None else option_map lex (fs path).

(** How [main] goes on after its first two statements: [log.Fatalf] on an
    update error, a panic out of [loadCsv], or the server started with
    the index [arr] in the closure of the handler. *)
Inductive Startup : Type :=
| Fatal (e : updateError)
| Panicked
| Serving (arr : list IpAddressRange).

Definition main (autoUpdate : bool) (fs : FileSystem)
  : Startup * FileSystem :=
  match updateCsvFiles autoUpdate fs with
  | (Some e, fs') => (Fatal e, fs')
  | (None, fs') =>
      match loadCsv (openIn fs') with
      | Panic => (Panicked, fs')
      | Val arr => (Serving arr, fs')
      end
  end.

End UpdateCsvFiles.

(** ** The earlier revision: downloadCsv and the index of its main

    [http.Get] followed by the row lexing of the body is [get]; [None] is
    an error of [http.Get], on which [downloadCsv] returns what it has. *)





(** * Vocabulary of the properties *)

(** [FieldsPerRecord] after the reader has gone through [rows]. *)
Definition fieldsPerRecordAfter (rows : list csv.Row) (FieldsPerRecord : nat)
  : nat :=
  fold_left (fun fpr row => snd (csv.readRecord fpr row)) rows FieldsPerRecord.

(** [Read] returns a non-nil error on [row]. *)
Definition readFails (FieldsPerRecord : nat) (row : csv.Row) : bool :=
  snd (fst (csv.readRecord FieldsPerRecord row)).

(** What [sort.Slice] promises for the less function of [loadCsv]: it
    rearranges the slice, and afterwards no element is less than the one
    before it. Go's documentation adds that the sort is not guaranteed to
    be stable. The properties of [loadCsv] use the sort through this
    contract only. *)
Definition SliceContract
  (Slice : (IpAddressRange -> IpAddressRange -> bool) ->
           list IpAddressRange -> list IpAddressRange) : Prop :=
  forall arr,
    Permutation arr (Slice lessStart arr)
    /\ (forall i a b,
          nth_error (Slice lessStart arr) i = Some a ->
          nth_error (Slice lessStart arr) (S i) = Some b ->
          lessStart b a = false).

(** The ranges a file of three-field rows contributes, in file order. *)
Definition rangeOfRow (row : csv.Row) : list IpAddressRange :=
  match row with
  | csv.Fields [f0; f1; f2] =>
      match big.SetString f0, big.SetString f1 with
      | Some st, Some en => [mkRange st en f2]
      | _, _ => []
      end
  | _ => []
  end.

Definition threeFields (row : csv.Row) : bool :=
  match row with
  | csv.Fields [_; _; _] => true
  | _ => false
  end.

(** The ranges of [arr] that start at [v], in the order of [arr]. *)
Definition startingAt (v : Z) (arr : list IpAddressRange)
  : list IpAddressRange :=
  filter (fun r => start r =? v) arr.

(** The ranges [loadCsv] collects from files of three-field rows: those
    of each file that opens, in the order of [files]. *)
Definition collected (open : string -> option (list csv.Row))
  (fs : list fileInfo) : list IpAddressRange :=
  flat_map (fun fi => match open (LocalName fi) with
                      | Some rows => flat_map rangeOfRow rows
                      | None => []
                      end) fs.

(** Every file that opens has three-field rows only. *)
Definition threeFieldFiles (open : string -> option (list csv.Row))
  (fs : list fileInfo) : Prop :=
  forall fi rows,
    In fi fs -> open (LocalName fi) = Some rows ->
    forallb threeFields rows = true.

(** ** Vocabulary for sort.Slice *)

(** The key at an index; 0 out of range. *)
Definition keyAt {A : Type} (key : A -> Z) (d : list A) (i : nat) : Z :=
  match nth_error d i with
  | Some x => key x
  | None => 0
  end.

(** [d] is [d0] with the elements of [d0[a:b]] rearranged. *)
Definition rearranged {A : Type} (a b : nat) (d0 d : list A) : Prop :=
  List.length d = List.length d0
  /\ (forall k, (k < a \/ b <= k)%nat -> nth_error d k = nth_error d0 k)
  /\ (forall k, (a <= k < b)%nat ->
                exists j, (a <= j < b)%nat /\ nth_error d k = nth_error d0 j)
  /\ Permutation d0 d.

(** The keys of [d[a:b]] ascend. *)
Definition sortedOn {A : Type} (key : A -> Z) (d : list A) (a b : nat)
  : Prop :=
  forall i j, (a <= i <= j)%nat -> (j < b)%nat ->
              keyAt key d i <= keyAt key d j.

(** The element before the range is a lower bound of the range. *)
Definition lowerBounded {A : Type} (key : A -> Z) (d : list A) (a b : nat)
  : Prop :=
  (0 < a)%nat ->
  forall k, (a <= k < b)%nat -> keyAt key d (a - 1) <= keyAt key d k.

(** In the heap laid out from [first], every node from [lo] on is at
    least as large as its children below [hi]. *)
Definition heapOn {A : Type} (key : A -> Z) (d : list A)
  (first lo hi : nat) : Prop :=
  forall r c, (lo <= r)%nat -> (c < hi)%nat ->
              (c = 2 * r + 1 \/ c = 2 * r + 2)%nat ->
              keyAt key d (first + c) <= keyAt key d (first + r).

(** ** Address literals *)

Definition octet (n : Z) : Prop := 0 <= n < 256.

(** The character of the decimal digit [k]. *)
Definition digitChar (k : Z) : ascii := ascii_of_N (Z.to_N (48 + k)).

(** An octet in decimal, without leading zeros. *)
Definition decimalOctet (n : Z) : list ascii :=
  if n <? 10 then [digitChar n]
  else if n <? 100 then [digitChar (n / 10); digitChar (n mod 10)]
  else [digitChar (n / 100); digitChar (n / 10 mod 10); digitChar (n mod 10)].

(** The IPv4 literal [a.b.c.d]. *)
Definition dottedDecimal (a b c d : Z) : string :=
  string_of_list_ascii
    (decimalOctet a ++ "."%char :: decimalOctet b ++ "."%char ::
     decimalOctet c ++ "."%char :: decimalOctet d).

(** The unsigned 32-bit integer with the octets [a], [b], [c], [d] in
    big-endian order. *)
Definition bigEndian32 (a b c d : Z) : Z :=
  a * 2 ^ 24 + b * 2 ^ 16 + c * 2 ^ 8 + d.

(** An IPv4 literal and its 16-byte form: a string without a colon that
    [net.ParseIP] accepts. *)
Definition ipv4Literal (s : string) : option net.IP :=
  if existsb net.isColon (list_ascii_of_string s) then None
  else net.ParseIP s.

(** An IPv6 literal and its 16 bytes: a string with a colon that
    [net.ParseIP] accepts. *)
Definition ipv6Literal (s : string) : option net.IP :=
  if existsb net.isColon (list_ascii_of_string s) then net.ParseIP s
  else None.

(** An address that [net.ParseIP] refuses. *)
Definition malformed (raw : string) : Prop := net.ParseIP raw = None.

(** The digit branch of [parseIPv4Fields_loop] on its own, run over a
    string of digits: the value and the number of digits read. *)
Fixpoint eatDigits (ds : list ascii) (val : Z) (digLen : nat)
  : option (Z * nat) :=
  match ds with
  | [] => Some (val, digLen)
  | c :: rest =>
      if (digLen =? 1)%nat && (val =? 0) then None
      else
        let val' := val * 10 + (net.byteOf c - 48) in
        if val' >? 255 then None else eatDigits rest val' (S digLen)
  end.

(** [decimalOctet n] is a non-empty string of digits that reads as [n]. *)
Definition octetReadsBack (n : Z) : bool :=
  match decimalOctet n with
  | [] => false
  | ds =>
      forallb net.isDigit ds
      && match eatDigits ds 0 0 with
         | Some (v, _) => v =? n
         | None => false
         end
  end.

(** ** Predicates on an index *)

(** Ascending by [start]: no range starts below the one before it. *)
Fixpoint sortedByStart (arr : list IpAddressRange) : bool :=
  match arr with
  | a :: (b :: _) as t => (start a <=? start b) && sortedByStart t
  | _ => true
  end.

(** Non-overlapping, for an index in ascending order: every range ends
    before the next one starts. *)
Fixpoint nonOverlapping (arr : list IpAddressRange) : bool :=
  match arr with
  | a :: (b :: _) as t => (end_ a <? start b) && nonOverlapping t
  | _ => true
  end.

(** [q] lies in the closed interval of [r]. *)
Definition contains (r : IpAddressRange) (q : Z) : Prop :=
  start r <= q <= end_ r.

(** ** Sample data *)

Definition US : IpAddressRange := mkRange 100 200 "US".

Definition gapIndex : list IpAddressRange :=
  [mkRange 0 99 "A"; mkRange 200 299 "B"].

(** An index no builder run on well-formed data would give: unsorted,
    overlapping, with a reversed range. *)
Definition messyIndex : list IpAddressRange :=
  [mkRange 10 50 "A"; mkRange 5 20 "B"; mkRange 30 7 "C"; mkRange 5 20 "B"].

Definition sampleRows : list csv.Row :=
  [ csv.Fields ["16777216"; "16777471"; "AU"]%string;
    csv.Fields ["x"; "16778239"; "CN"]%string;
    csv.Fields ["16778240"; "16779263"; "au "]%string ].

Definition shortRowFile : list csv.Row :=
  [ csv.Fields ["1"; "2"; "AA"]%string;
    csv.Fields ["3"; "4"]%string;
    csv.Fields ["5"; "6"; "BB"]%string ].

(** Only the first file exists; its first row has two fields. *)
Definition twoFieldFiles (name : string) : option (list csv.Row) :=
  if String.eqb name "geo-whois-asn-country-ipv4-num.csv"
  then Some [csv.Fields ["1"; "2"]%string;
             csv.Fields ["3"; "4"; "AA"]%string]
  else None.

(** A first file of thirteen rows, the first two with the same start;
    the second file does not open. *)
Definition tieRows : list csv.Row :=
  [ csv.Fields ["2"; "20"; "AA"]%string; csv.Fields ["2"; "21"; "BB"]%string;
    csv.Fields ["3"; "3"; "C"]%string; csv.Fields ["4"; "4"; "D"]%string;
    csv.Fields ["5"; "5"; "E"]%string; csv.Fields ["6"; "6"; "F"]%string;
    csv.Fields ["1"; "1"; "G"]%string; csv.Fields ["7"; "7"; "H"]%string;
    csv.Fields ["8"; "8"; "I"]%string; csv.Fields ["9"; "9"; "J"]%string;
    csv.Fields ["10"; "10"; "K"]%string; csv.Fields ["11"; "11"; "L"]%string;
    csv.Fields ["12"; "12"; "M"]%string ].

Definition tieFiles (name : string) : option (list csv.Row) :=
  if String.eqb name "geo-whois-asn-country-ipv4-num.csv"
  then Some tieRows else None.

(** * Vocabulary of the further properties *)

(** ** Addresses *)

(** The 16 bytes of an IPv4-compatible address: twelve zeros and the
    four octets. *)
Definition v4Compatible (a b c d : Z) : net.IP :=
  repeat 0 12 ++ [a; b; c; d].

(** The characters of address literals: hexadecimal digits, the dot and
    the colon. *)
Definition addressChar (c : ascii) : bool :=
  match net.hexVal c with
  | Some _ => true
  | None => net.isDot c || net.isColon c
  end.

(** ** Ranges and rows *)

(** A range whose bounds are in order. *)
Definition wellFormed (r : IpAddressRange) : Prop := start r <= end_ r.

(** Two ranges without a common point, when both are well formed. *)
Definition apart (a b : IpAddressRange) : Prop :=
  end_ a < start b \/ end_ b < start a.

(** Pairwise apart, in whatever order the ranges come. *)
Fixpoint disjointRanges (l : list IpAddressRange) : Prop :=
  match l with
  | [] => True
  | a :: t => Forall (apart a) t /\ disjointRanges t
  end.

(** The range [r] is what the record loop makes of [row]: the first two
    fields read as its bounds, the third is its country, further fields
    are ignored. *)
Definition fromRow (r : IpAddressRange) (row : csv.Row) : Prop :=
  exists f0 f1 f2 more,
    row = csv.Fields (f0 :: f1 :: f2 :: more)
    /\ big.SetString f0 = Some (start r)
    /\ big.SetString f1 = Some (end_ r)
    /\ country r = f2.

(** The first row of a file, if it is a record, has three fields or
    more. *)
Definition wideFirstRow (rows : list csv.Row) : Prop :=
  match rows with
  | csv.Fields rec :: _ => (3 <= List.length rec)%nat
  | _ => True
  end.

(** An integer in decimal, as the data files write it: a minus sign for
    a negative number, no leading zeros. *)
Definition decimal (z : Z) : string := NilZero.string_of_int (Z.to_int z).


(** ** The file system and the remote *)

(** [path] is none of the data files. *)
Definition foreignPath (path : string) : Prop :=
  forall fi, In fi files -> path <> localPath fi.

(** Every data file exists. *)
Definition allPresent (fs : FileSystem) : Prop :=
  forall fi, In fi files -> fs (localPath fi) <> None.


(** The local copy of [fi] is readable and has the blob id the contents
    API publishes for it. *)
Definition upToDate (http_Get : string -> option http.Response)
  (decodeMeta : http.Response -> option githubContent)
  (sha1hex : string -> string) (unreadable : string -> bool)
  (fs : FileSystem) (fi : fileInfo) : Prop :=
  exists resp meta data,
    http_Get (apiURL fi) = Some resp
    /\ http.StatusCode resp = http.StatusOK
    /\ decodeMeta resp = Some meta
    /\ fs (localPath fi) = Some data
    /\ unreadable (localPath fi) = false
    /\ localSha sha1hex data = SHA meta.

(** The remote is consistent for [fi]: whenever the contents API answers
    and the download succeeds, the blob id of the body is the published
    one. *)
Definition consistentRemote (http_Get : string -> option http.Response)
  (decodeMeta : http.Response -> option githubContent)
  (sha1hex : string -> string) (fi : fileInfo) : Prop :=
  forall resp meta dl,
    http_Get (apiURL fi) = Some resp ->
    decodeMeta resp = Some meta ->
    http_Get (DownloadURL meta) = Some dl ->
    localSha sha1hex (http.Body dl) = SHA meta.

(** The file of [fi] holds the body of a download made for it: the
    contents API answered with status 200 and metadata, and [dl] is the
    response behind the download URL of the metadata. *)
Definition downloadedFor (http_Get : string -> option http.Response)
  (decodeMeta : http.Response -> option githubContent)
  (fs : FileSystem) (fi : fileInfo) (dl : http.Response) : Prop :=
  exists resp meta,
    http_Get (apiURL fi) = Some resp
    /\ http.StatusCode resp = http.StatusOK
    /\ decodeMeta resp = Some meta
    /\ http_Get (DownloadURL meta) = Some dl
    /\ fs (localPath fi) = Some (http.Body dl).

(** ** Further sample data *)

(** The second range lies inside the first. *)
Definition nestedIndex : list IpAddressRange :=
  [mkRange 1 100 "A"; mkRange 10 20 "B"].

(** Both files open; the first one lists its ranges out of order and
    has a row that is skipped. *)
Definition twoFiles (name : string) : option (list csv.Row) :=
  if String.eqb name "geo-whois-asn-country-ipv4-num.csv"
  then Some [ csv.Fields ["16777472"; "16778239"; "CN"]%string;
              csv.Fields ["bad"; "1"; "XX"]%string;
              csv.Fields ["16777216"; "16777471"; "AU"]%string ]
  else if String.eqb name "geo-asn-country-ipv6-num.csv"
  then Some [ csv.Fields ["42540528726795050063891204319802818560";
                          "42540528806023212578155541913346768895";
                          "JP"]%string ]
  else None.


(** A first row of four fields; the second one has two. *)
Definition wideRows (name : string) : option (list csv.Row) :=
  if String.eqb name "geo-whois-asn-country-ipv4-num.csv"
  then Some [ csv.Fields ["1"; "2"; "AA"; "x"]%string;
              csv.Fields ["3"; "4"]%string;
              csv.Fields ["5"; "6"; "BB"; "y"]%string ]
  else None.

Definition noFiles : FileSystem := fun _ => None.

(** A file system with both data files, whatever they hold. *)
Definition staleFiles : FileSystem :=
  fun p =>
    if String.eqb p "/app/data/geo-whois-asn-country-ipv4-num.csv"
    then Some "1,2,AA"%string
    else if String.eqb p "/app/data/geo-asn-country-ipv6-num.csv"
    then Some ""%string
    else None.

(** No network: every request fails. *)
Definition offline (url : string) : option http.Response := None.

Definition noMeta (resp : http.Response) : option githubContent := None.

(** A remote that answers every request with the same bytes of CSV, and
    the metadata and the hash that go with it. *)
Definition mirror (url : string) : option http.Response :=
  Some (http.mkResponse 200 "1,2,AA" false).

Definition mirrorMeta (resp : http.Response) : option githubContent :=
  Some (mkGithubContent "0f" "https://raw.githubusercontent.com/f.csv").

Definition mirrorHash (data : string) : string := "0f"%string.

(** A lexer for the body of [mirror]. *)
Definition mirrorLex (data : string) : list csv.Row :=
  if String.eqb data "1,2,AA" then [csv.Fields ["1"; "2"; "AA"]%string]
  else [].


Definition never (path : string) : bool := false.

(** Both data files with the body of [mirror]. *)
Definition mirrored : FileSystem :=
  writeFile
    (writeFile noFiles "/app/data/geo-whois-asn-country-ipv4-num.csv"
       "1,2,AA")
    "/app/data/geo-asn-country-ipv6-num.csv" "1,2,AA".

(** A remote that publishes the blob id "0f" for both files and serves
    the ipv4 file whole; the download of the ipv6 file breaks off. *)
Definition halfBroken (url : string) : option http.Response :=
  if String.eqb url "https://raw.githubusercontent.com/v6.csv"
  then Some (http.mkResponse 200 "3," true)
  else Some (http.mkResponse 200
               (if String.eqb url
                     "https://api.github.com/repos/sapics/ip-location-db/contents/geo-asn-country/geo-asn-country-ipv6-num.csv?ref=main"
                then "v6" else "1,2,AA")
               false).

Definition halfBrokenMeta (resp : http.Response) : option githubContent :=
  Some (mkGithubContent "0f"
          (if String.eqb (http.Body resp) "v6"
           then "https://raw.githubusercontent.com/v6.csv"
           else "https://raw.githubusercontent.com/v4.csv")).

(** * Properties *)

Ltac half i j :=
  pose proof (Nat.div_mod_eq (i + j) 2);
  pose proof (Nat.mod_upper_bound (i + j) 2).

(** The range [100, 200] of "US": both ends hit, 99 and 201 miss. *)
Example lookup_US :
  lookup [US] 100 = Val (Some "US"%string)
  /\ lookup [US] 200 = Val (Some "US"%string)
  /\ lookup [US] 99 = Val None
  /\ lookup [US] 201 = Val None.
Proof. repeat split; reflexivity. Qed.

(** A request for an address in a stored range, and one outside. *)
Example getIpInfo_hit_and_miss :
  getIpInfo [mkRange 2354213376 2354213631 "US"] "140.82.114.3"
  = Val (mkApiResponse true (Some "US"%string)
           (mkIpAddress (Some "140.82.114.3"%string) false))
  /\ getIpInfo [mkRange 2354213376 2354213631 "US"] "140.82.115.3"
     = Val notFound.
Proof. split; reflexivity. Qed.

(** ** The monad and slice indexing *)

Lemma index_Val {A : Type} (s : list A) (i : nat) (a : A) :
  index s i = Val a <-> nth_error s i = Some a.
Proof.
  unfold index. destruct (nth_error s i); split; intro H;
    inversion H; reflexivity.
Qed.

Lemma index_in_range {A : Type} (s : list A) (i : nat) :
  (i < List.length s)%nat -> exists a, nth_error s i = Some a /\ index s i = Val a.
Proof.
  intro H. destruct (nth_error s i) as [a|] eqn:E.
  - exists a. split; [reflexivity | now apply index_Val].
  - apply nth_error_None in E. lia.
Qed.

(** ** sort.Search *)

Section SearchFacts.

Variable f : nat -> exec bool.

(** The loop invariant of the Go source: [f(i-1) == false] and
    [f(j) == true] at the index returned, whatever [f] is. *)
Lemma Search_loop_inv (i j k : nat) :
  (i <= j)%nat ->
  sort.Search_loop f i j = Val k ->
  (i <= k <= j)%nat
  /\ ((i < k)%nat -> f (k - 1)%nat = Val false)
  /\ ((k < j)%nat -> f k = Val true).
Proof.
  funelim (sort.Search_loop f i j); intros Hij Hk.
  - injection Hk as <-. repeat split; lia.
  - destruct (H k) as (Hr & Hlo & Hhi); [half i j; lia | assumption | ].
    half i j. repeat split; try lia; [exact Hlo | ].
    intro Hlt. destruct (Nat.eq_dec k ((i + j) / 2)) as [-> | Hne].
    + assumption.
    + apply Hhi. lia.
  - destruct (H k) as (Hr & Hlo & Hhi); [half i j; lia | assumption | ].
    half i j. repeat split; try lia; [ | exact Hhi].
    intro Hlt. destruct (Nat.eq_dec k ((i + j) / 2 + 1)) as [-> | Hne].
    + replace ((i + j) / 2 + 1 - 1)%nat with ((i + j) / 2)%nat by lia.
      assumption.
    + apply Hlo. lia.
  - discriminate.
Qed.

(** The loop returns when [f] does not panic between the bounds. *)
Lemma Search_loop_total (i j : nat) :
  (forall h, (i <= h < j)%nat -> exists b, f h = Val b) ->
  exists k, sort.Search_loop f i j = Val k.
Proof.
  funelim (sort.Search_loop f i j); intro Hdef.
  - eexists. reflexivity.
  - apply H. intros h Hh. apply Hdef. half i j. lia.
  - apply H. intros h Hh. apply Hdef. half i j. lia.
  - exfalso. destruct (Hdef ((i + j) / 2)%nat) as [b Hb].
    + half i j. lia.
    + congruence.
Qed.

End SearchFacts.

(** ** math/big comparisons *)

Lemma Cmp_gt0 (x y : Z) : (big.Cmp x y >? 0) = (y <? x).
Proof.
  unfold big.Cmp. destruct (Z.compare_spec x y); simpl;
    symmetry; [apply Z.ltb_ge | apply Z.ltb_ge | apply Z.ltb_lt]; lia.
Qed.

Lemma Cmp_ge0 (x y : Z) : (big.Cmp x y >=? 0) = (y <=? x).
Proof.
  unfold big.Cmp. destruct (Z.compare_spec x y); simpl;
    symmetry; [apply Z.leb_le | apply Z.leb_gt | apply Z.leb_le]; lia.
Qed.

Lemma Cmp_lt0 (x y : Z) : (big.Cmp x y <? 0) = (x <? y).
Proof.
  unfold big.Cmp. destruct (Z.compare_spec x y); simpl;
    symmetry; [apply Z.ltb_ge | apply Z.ltb_lt | apply Z.ltb_ge]; lia.
Qed.

Lemma Sign_zero (x : Z) : (big.Sign x =? 0) = (x =? 0).
Proof. unfold big.Sign. destruct x; reflexivity. Qed.

(** ** The search of the handler *)

Section Lookup.

Variable arr : list IpAddressRange.
Variable q : Z.

Lemma startAbove_Val (i : nat) (r : IpAddressRange) :
  nth_error arr i = Some r -> startAbove arr q i = Val (q <? start r).
Proof.
  intro H. unfold startAbove, index. rewrite H. simpl.
  now rewrite Cmp_gt0.
Qed.

Lemma startAbove_inv (i : nat) (b : bool) :
  startAbove arr q i = Val b ->
  exists r, nth_error arr i = Some r /\ b = (q <? start r).
Proof.
  unfold startAbove, index. destruct (nth_error arr i) as [r|]; simpl.
  - rewrite Cmp_gt0. intro H. injection H as <-. now exists r.
  - discriminate.
Qed.

(** The search returns, and never reads outside the slice. *)
Lemma searchIdx_total : exists idx, searchIdx arr q = Val idx.
Proof.
  apply Search_loop_total. intros h Hh.
  destruct (index_in_range arr h) as (r & Hr & _); [lia | ].
  eexists. now apply (startAbove_Val h r).
Qed.

(** What the index returned satisfies on any slice, sorted or not. *)
Lemma searchIdx_inv (idx : nat) :
  searchIdx arr q = Val idx ->
  (idx <= List.length arr)%nat
  /\ ((0 < idx)%nat ->
      exists r, nth_error arr (idx - 1) = Some r /\ start r <= q)
  /\ ((idx < List.length arr)%nat ->
      exists r, nth_error arr idx = Some r /\ q < start r).
Proof.
  intro H. apply Search_loop_inv in H; [ | lia].
  destruct H as (Hr & Hlo & Hhi). split; [lia | split].
  - intro Hpos. destruct (startAbove_inv _ _ (Hlo Hpos)) as (r & Hn & Hb).
    exists r. split; [assumption | ].
    symmetry in Hb. apply Z.ltb_ge in Hb. lia.
  - intro Hlt. destruct (startAbove_inv _ _ (Hhi Hlt)) as (r & Hn & Hb).
    exists r. split; [assumption | ].
    symmetry in Hb. apply Z.ltb_lt in Hb. lia.
Qed.

(** [lookup] in terms of the index found. *)
Lemma lookup_unfold (idx : nat) :
  searchIdx arr q = Val idx ->
  lookup arr q =
    if (0 <? idx)%nat then
      match nth_error arr (idx - 1) with
      | Some r =>
          if (q <=? end_ r) && negb (q =? 0) then Val (Some (country r))
          else Val None
      | None => Panic
      end
    else Val None.
Proof.
  intro H. unfold lookup. rewrite H. simpl.
  destruct (0 <? idx)%nat; [ | reflexivity].
  unfold index. destruct (nth_error arr (idx - 1)) as [r|]; simpl;
    [ | reflexivity].
  rewrite Cmp_ge0, Sign_zero.
  destruct (q <=? end_ r), (q =? 0); reflexivity.
Qed.

(** The lookup never panics. *)
Lemma lookup_total : exists o, lookup arr q = Val o.
Proof.
  destruct (searchIdx_total) as [idx Hidx].
  rewrite (lookup_unfold _ Hidx).
  destruct (0 <? idx)%nat eqn:Hpos; [ | eexists; reflexivity].
  apply Nat.ltb_lt in Hpos.
  destruct (searchIdx_inv _ Hidx) as (_ & Hlo & _).
  destruct (Hlo Hpos) as (r & Hr & _). rewrite Hr.
  destruct ((q <=? end_ r) && negb (q =? 0)); eexists; reflexivity.
Qed.

(** A hit is the country of the range just before the position found,
    that range contains the query, and the query is not zero. *)
Lemma lookup_hit (c : string) :
  lookup arr q = Val (Some c) ->
  exists idx r,
    searchIdx arr q = Val idx /\ (0 < idx)%nat
    /\ nth_error arr (idx - 1) = Some r /\ country r = c
    /\ contains r q /\ q <> 0.
Proof.
  destruct (searchIdx_total) as [idx Hidx].
  rewrite (lookup_unfold _ Hidx).
  destruct (0 <? idx)%nat eqn:Hpos; [ | discriminate].
  apply Nat.ltb_lt in Hpos.
  destruct (searchIdx_inv _ Hidx) as (_ & Hlo & _).
  destruct (Hlo Hpos) as (r & Hr & Hs). rewrite Hr.
  destruct (q <=? end_ r) eqn:He, (q =? 0) eqn:Hz; simpl;
    try discriminate.
  intro H. injection H as <-. exists idx, r.
  apply Z.leb_le in He. apply Z.eqb_neq in Hz.
  unfold contains. repeat split; auto.
Qed.

End Lookup.

(** The zero query misses on every index. *)
Lemma lookup_zero (arr : list IpAddressRange) : lookup arr 0 = Val None.
Proof.
  destruct (lookup_total arr 0) as [[c|] H]; [ | assumption].
  apply lookup_hit in H. destruct H as (_ & _ & _ & _ & _ & _ & _ & H).
  now contradiction H.
Qed.

(** ** Sorted and non-overlapping indexes, by position *)

Lemma sortedByStart_adjacent (arr : list IpAddressRange) :
  sortedByStart arr = true ->
  forall i a b,
    nth_error arr i = Some a -> nth_error arr (S i) = Some b ->
    start a <= start b.
Proof.
  induction arr as [| x [| y t] IH]; intros Hs i a b Ha Hb.
  - destruct i; discriminate.
  - destruct i as [| [| i]]; discriminate.
  - cbn [sortedByStart] in Hs. apply andb_true_iff in Hs as [Hxy Ht].
    destruct i as [| i].
    + injection Ha as <-. injection Hb as <-. now apply Z.leb_le.
    + apply (IH Ht i a b); assumption.
Qed.

Lemma nonOverlapping_adjacent (arr : list IpAddressRange) :
  nonOverlapping arr = true ->
  forall i a b,
    nth_error arr i = Some a -> nth_error arr (S i) = Some b ->
    end_ a < start b.
Proof.
  induction arr as [| x [| y t] IH]; intros Hs i a b Ha Hb.
  - destruct i; discriminate.
  - destruct i as [| [| i]]; discriminate.
  - cbn [nonOverlapping] in Hs. apply andb_true_iff in Hs as [Hxy Ht].
    destruct i as [| i].
    + injection Ha as <-. injection Hb as <-. now apply Z.ltb_lt.
    + apply (IH Ht i a b); assumption.
Qed.

Lemma sortedByStart_le (arr : list IpAddressRange) :
  sortedByStart arr = true ->
  forall j i a b,
    (i <= j)%nat -> nth_error arr i = Some a -> nth_error arr j = Some b ->
    start a <= start b.
Proof.
  intros Hs j. induction j as [| j IH]; intros i a b Hij Ha Hb.
  - assert (i = 0%nat) as -> by lia. rewrite Ha in Hb.
    injection Hb as <-. lia.
  - destruct (Nat.eq_dec i (S j)) as [-> | Hne].
    + rewrite Ha in Hb. injection Hb as <-. lia.
    + destruct (index_in_range arr j) as (c & Hc & _).
      { assert (nth_error arr (S j) <> None) as Hn by congruence.
        apply nth_error_Some in Hn. lia. }
      pose proof (IH i a c ltac:(lia) Ha Hc).
      pose proof (sortedByStart_adjacent arr Hs j c b Hc Hb). lia.
Qed.

(** In a sorted non-overlapping index every range ends before every
    later one starts. *)
Lemma nonOverlapping_lt (arr : list IpAddressRange) :
  sortedByStart arr = true -> nonOverlapping arr = true ->
  forall i j a b,
    (i < j)%nat -> nth_error arr i = Some a -> nth_error arr j = Some b ->
    end_ a < start b.
Proof.
  intros Hs Hn i j a b Hij Ha Hb.
  destruct (index_in_range arr (S i)) as (c & Hc & _).
  { assert (nth_error arr j <> None) as Hj by congruence.
    apply nth_error_Some in Hj. lia. }
  pose proof (nonOverlapping_adjacent arr Hn i a c Ha Hc).
  pose proof (sortedByStart_le arr Hs j (S i) c b ltac:(lia) Hc Hb).
  lia.
Qed.

(** On a sorted index the position found is the lowest one whose start
    is above the query. *)
Lemma searchIdx_lowest (arr : list IpAddressRange) (q : Z) (idx : nat) :
  sortedByStart arr = true ->
  searchIdx arr q = Val idx ->
  forall i r, nth_error arr i = Some r -> (q < start r <-> (idx <= i)%nat).
Proof.
  intros Hs Hidx i r Hr.
  destruct (searchIdx_inv _ _ _ Hidx) as (Hlen & Hlo & Hhi).
  assert (i < List.length arr)%nat as Hi.
  { apply nth_error_Some. congruence. }
  split.
  - intro Hq. destruct (le_lt_dec idx i) as [| Hlt]; [assumption | ].
    destruct Hlo as (p & Hp & Hps); [lia | ].
    pose proof (sortedByStart_le arr Hs (idx - 1)%nat i r p
                  ltac:(lia) Hr Hp). lia.
  - intro Hle. destruct Hhi as (p & Hp & Hps); [lia | ].
    pose proof (sortedByStart_le arr Hs i idx p r Hle Hp Hr). lia.
Qed.

(** C1. On an index sorted ascending by start with non-overlapping ranges
    and for a nonzero query, the handler's search returns the lowest
    position [idx] whose start is strictly above the query; at the first
    position the lookup misses; otherwise it answers with the country of
    the range just before [idx] exactly when the query is at most that
    range's end, and misses otherwise. Hence a query inside a stored
    range, boundaries included, gets that range's country, and a query
    below the first start or in no range at all misses. *)
Theorem lookup_on_sorted_index (arr : list IpAddressRange) (q : Z) :
  sortedByStart arr = true ->
  nonOverlapping arr = true ->
  q <> 0 ->
  exists idx,
    searchIdx arr q = Val idx
    /\ (idx <= List.length arr)%nat
    /\ (forall i r, nth_error arr i = Some r ->
                    (q < start r <-> (idx <= i)%nat))
    /\ (idx = 0%nat -> lookup arr q = Val None)
    /\ ((0 < idx)%nat ->
        exists r, nth_error arr (idx - 1) = Some r
                  /\ lookup arr q =
                       Val (if q <=? end_ r then Some (country r) else None))
    /\ (forall r, In r arr -> contains r q ->
                  lookup arr q = Val (Some (country r)))
    /\ (forall r0, nth_error arr 0 = Some r0 -> q < start r0 ->
                   lookup arr q = Val None)
    /\ ((forall r, In r arr -> ~ contains r q) -> lookup arr q = Val None).
Proof.
  intros Hs Hn Hq.
  destruct (searchIdx_total arr q) as [idx Hidx].
  pose proof (searchIdx_inv _ _ _ Hidx) as (Hlen & Hlo & Hhi).
  pose proof (searchIdx_lowest _ _ _ Hs Hidx) as Hlow.
  assert (Hcand : (0 < idx)%nat ->
            exists r, nth_error arr (idx - 1) = Some r
                      /\ lookup arr q =
                           Val (if q <=? end_ r then Some (country r)
                                else None)).
  { intro Hpos. destruct (Hlo Hpos) as (r & Hr & _). exists r.
    split; [assumption | ].
    rewrite (lookup_unfold _ _ _ Hidx), Hr.
    apply Nat.ltb_lt in Hpos. rewrite Hpos.
    apply Z.eqb_neq in Hq. rewrite Hq.
    destruct (q <=? end_ r); reflexivity. }
  assert (Hzero : idx = 0%nat -> lookup arr q = Val None).
  { intros ->. now rewrite (lookup_unfold _ _ _ Hidx). }
  exists idx. repeat split; try assumption; try apply Hlow; auto.
  - (* a query inside a stored range *)
    intros r Hin [Hlo_r Hhi_r].
    apply In_nth_error in Hin as [p Hp].
    assert (p < idx)%nat as Hpi.
    { destruct (le_lt_dec idx p) as [Hle | ]; [ | assumption].
      apply (Hlow p r Hp) in Hle. lia. }
    destruct Hcand as (c & Hc & Hlook); [lia | ].
    rewrite Hlook.
    destruct (Nat.eq_dec p (idx - 1)) as [-> | Hne].
    + rewrite Hp in Hc. injection Hc as <-.
      apply Z.leb_le in Hhi_r. now rewrite Hhi_r.
    + exfalso.
      pose proof (nonOverlapping_lt arr Hs Hn p (idx - 1)%nat r c
                    ltac:(lia) Hp Hc).
      destruct (Hlo ltac:(lia)) as (c' & Hc' & Hcs).
      rewrite Hc in Hc'. injection Hc' as <-. lia.
  - (* below the first start *)
    intros r0 Hr0 Hlt. apply Hzero.
    apply (Hlow 0%nat r0 Hr0) in Hlt. lia.
  - (* in no range *)
    intro Hnone. destruct (lookup_total arr q) as [[c|] H]; [ | assumption].
    apply lookup_hit in H. destruct H as (i & r & _ & _ & Hr & _ & Hc & _).
    exfalso. apply (Hnone r); [ | assumption].
    eapply nth_error_In. eassumption.
Qed.

Lemma lookup_on_sorted_index_witness :
  lookup gapIndex 99 = Val (Some "A"%string)
  /\ lookup gapIndex 200 = Val (Some "B"%string)
  /\ lookup gapIndex 150 = Val None.
Proof.
  destruct (lookup_on_sorted_index gapIndex 99 eq_refl eq_refl ltac:(lia))
    as (_ & _ & _ & _ & _ & _ & Hin & _).
  split; [ | split; reflexivity].
  apply (Hin (mkRange 0 99 "A")); [left; reflexivity | ].
  unfold contains; simpl; lia.
Defined.

(** ** What the address parsers return *)

Lemma octet_mod (v : Z) : octet (v mod 256).
Proof. unfold octet. apply Z.mod_pos_bound. lia. Qed.

Lemma Forall_octet4 (a b c d : Z) :
  octet a -> octet b -> octet c -> octet d -> Forall octet [a; b; c; d].
Proof. intros. repeat (constructor; [assumption | ]). constructor. Qed.

Lemma store_length (l : list Z) (pos : nat) (v : Z) :
  List.length (net.store l pos v) = List.length l.
Proof.
  revert pos. induction l as [| h t IH]; intros [| p]; simpl;
    try reflexivity. now rewrite IH.
Qed.

Lemma store_octets (l : list Z) (pos : nat) (v : Z) :
  Forall octet l -> octet v -> Forall octet (net.store l pos v).
Proof.
  intros Hl Hv. revert pos.
  induction Hl as [| h t Hh Ht IH]; intros [| p]; simpl;
    constructor; auto.
Qed.

Lemma parseIPv4Fields_loop_octets (s : list ascii) :
  forall atStart prevDot val pos digLen fields v p f,
    net.parseIPv4Fields_loop s atStart prevDot val pos digLen fields
    = Some (v, p, f) ->
    List.length fields = 4%nat -> Forall octet fields ->
    List.length f = 4%nat /\ Forall octet f.
Proof.
  induction s as [| c rest IH];
    intros atStart prevDot val pos digLen fields v p f H Hlen Hoct.
  - injection H as <- <- <-. now split.
  - cbn [net.parseIPv4Fields_loop] in H.
    destruct (net.isDigit c).
    + destruct ((digLen =? 1)%nat && (val =? 0)); [discriminate | ].
      destruct (val * 10 + (net.byteOf c - 48) >? 255); [discriminate | ].
      eapply IH; eassumption.
    + destruct (net.isDot c); [ | discriminate].
      destruct (atStart || match rest with [] => true | _ => false end
                || prevDot); [discriminate | ].
      destruct (pos =? 3)%nat; [discriminate | ].
      eapply IH; [eassumption | now rewrite store_length | ].
      apply store_octets; [assumption | apply octet_mod].
Qed.

(** [parseIPv4Fields] returns four octets. *)
Lemma parseIPv4Fields_octets (s : list ascii) (f : list Z) :
  net.parseIPv4Fields s = Some f ->
  exists a b c d,
    f = [a; b; c; d] /\ octet a /\ octet b /\ octet c /\ octet d.
Proof.
  unfold net.parseIPv4Fields.
  destruct (net.parseIPv4Fields_loop s true false 0 0 0 [0; 0; 0; 0])
    as [[[v p] g]|] eqn:E; [ | discriminate].
  destruct (p <? 3)%nat; [discriminate | ].
  intro H. injection H as <-.
  destruct (parseIPv4Fields_loop_octets s _ _ _ _ _ _ _ _ _ E eq_refl)
    as [Hlen Hoct].
  { repeat constructor; unfold octet; lia. }
  assert (Hlen' : List.length (net.store g 3 (v mod 256)) = 4%nat)
    by now rewrite store_length.
  assert (Hoct' : Forall octet (net.store g 3 (v mod 256)))
    by (apply store_octets; [assumption | apply octet_mod]).
  destruct (net.store g 3 (v mod 256)) as [| a [| b [| c [| d [| e t]]]]];
    try discriminate.
  exists a, b, c, d.
  inversion Hoct' as [| ? ? Ha H1]; subst.
  inversion H1 as [| ? ? Hb H2]; subst.
  inversion H2 as [| ? ? Hc H3]; subst.
  inversion H3 as [| ? ? Hd _]; subst.
  split; [reflexivity | auto].
Qed.

Lemma parseIPv6_loop_octets (groups : nat) :
  forall s ip ellipsis rest ip' ellipsis',
    net.parseIPv6_loop groups s ip ellipsis = Some (rest, ip', ellipsis') ->
    (List.length ip + 2 * groups <= 16)%nat ->
    Forall octet ip ->
    (forall k, ellipsis = Some k -> (k <= List.length ip)%nat) ->
    (List.length ip' <= 16)%nat
    /\ Forall octet ip'
    /\ (forall k, ellipsis' = Some k -> (k <= List.length ip')%nat).
Proof.
  induction groups as [| groups IH];
    intros s ip ellipsis rest ip' ellipsis' H Hlen Hoct Hell.
  - injection H as <- <- <-. repeat split; [lia | assumption | assumption].
  - cbn [net.parseIPv6_loop] in H.
    destruct (net.hexGroup s 0 0) as [[[off acc] rest0]|]; [ | discriminate].
    destruct (off =? 0)%nat; [discriminate | ].
    assert (Hpair : Forall octet
                      (ip ++ [Z.shiftr acc 8 mod 256; acc mod 256])).
    { apply Forall_app. split; [assumption | ].
      repeat constructor; apply octet_mod. }
    assert (Hlen2 : List.length (ip ++ [Z.shiftr acc 8 mod 256; acc mod 256])
                    = (List.length ip + 2)%nat)
      by (rewrite length_app; reflexivity).
    destruct rest0 as [| c rest1].
    + injection H as <- <- <-. rewrite Hlen2.
      repeat split; [lia | assumption | ].
      intros k Hk. specialize (Hell k Hk). lia.
    + destruct (net.isDot c).
      * destruct (match ellipsis with None => true | Some _ => false end
                  && negb (List.length ip =? 12)%nat); [discriminate | ].
        destruct (16 <? List.length ip + 4)%nat eqn:E16; [discriminate | ].
        destruct (net.parseIPv4Fields s) as [fields|] eqn:E4;
          [ | discriminate].
        injection H as <- <- <-.
        destruct (parseIPv4Fields_octets s fields E4)
          as (a & b & c0 & d & -> & Ha & Hb & Hc & Hd).
        apply Nat.ltb_ge in E16. rewrite length_app. simpl.
        repeat split; [lia | | ].
        -- apply Forall_app. split; [assumption | ].
           now apply Forall_octet4.
        -- intros k Hk. specialize (Hell k Hk). lia.
      * destruct (negb (net.isColon c)); [discriminate | ].
        destruct rest1 as [| c' rest2]; [discriminate | ].
        destruct (net.isColon c').
        -- destruct ellipsis as [e|]; [discriminate | ].
           destruct rest2 as [| c'' rest3].
           ++ injection H as <- <- <-. rewrite Hlen2.
              repeat split; [lia | assumption | ].
              intros k Hk. injection Hk as <-. lia.
           ++ eapply IH; [exact H | rewrite Hlen2; lia | assumption | ].
              intros k Hk. injection Hk as <-. lia.
        -- eapply IH; [exact H | rewrite Hlen2; lia | assumption | ].
           intros k Hk. specialize (Hell k Hk). rewrite Hlen2. lia.
Qed.

Lemma Forall_firstn_skipn (n : nat) (l : list Z) :
  Forall octet l -> Forall octet (firstn n l) /\ Forall octet (skipn n l).
Proof.
  intro H. rewrite <- (firstn_skipn n l) in H. now apply Forall_app in H.
Qed.

Lemma repeat_zero_octets (n : nat) : Forall octet (repeat 0 n).
Proof.
  induction n; simpl; constructor; [unfold octet; lia | assumption].
Qed.

(** [parseIPv6] returns sixteen octets. *)
Lemma parseIPv6_octets (s : list ascii) (ip : list Z) :
  net.parseIPv6 s = Some ip ->
  List.length ip = 16%nat /\ Forall octet ip.
Proof.
  assert (Hfin : forall (rest : list ascii) (bytes : list Z)
                    (ellipsis : option nat),
            (List.length bytes <= 16)%nat -> Forall octet bytes ->
            (forall k, ellipsis = Some k -> (k <= List.length bytes)%nat) ->
            match rest with
            | _ :: _ => None
            | [] =>
                if (List.length bytes <? 16)%nat then
                  match ellipsis with
                  | None => None
                  | Some e =>
                      Some (firstn e bytes
                            ++ repeat 0 (16 - List.length bytes)
                            ++ skipn e bytes)
                  end
                else
                  match ellipsis with
                  | Some _ => None
                  | None => Some bytes
                  end
            end = Some ip ->
            List.length ip = 16%nat /\ Forall octet ip).
  { intros rest bytes ellipsis Hlen Hoct Hell H.
    destruct rest; [ | discriminate].
    destruct (List.length bytes <? 16)%nat eqn:E.
    - destruct ellipsis as [e|]; [ | discriminate].
      assert (Hip : ip = firstn e bytes
                         ++ repeat 0 (16 - List.length bytes)
                         ++ skipn e bytes) by congruence.
      rewrite Hip. clear H Hip. specialize (Hell e eq_refl).
      apply Nat.ltb_lt in E. split.
      + rewrite !length_app, length_firstn, repeat_length, length_skipn.
        lia.
      + destruct (Forall_firstn_skipn e bytes Hoct) as [Hf Hs].
        apply Forall_app. split; [exact Hf | ].
        apply Forall_app. split; [apply repeat_zero_octets | exact Hs].
    - destruct ellipsis; [discriminate | ].
      injection H as <-. apply Nat.ltb_ge in E. split; [lia | assumption]. }
  assert (Hrun : forall (t : list ascii) (ellipsis : option nat),
            (forall k, ellipsis = Some k -> (k <= 0)%nat) ->
            match net.parseIPv6_loop 8 t [] ellipsis with
            | None => None
            | Some (rest, bytes, ellipsis') =>
                match rest with
                | _ :: _ => None
                | [] =>
                    if (List.length bytes <? 16)%nat then
                      match ellipsis' with
                      | None => None
                      | Some e =>
                          Some (firstn e bytes
                                ++ repeat 0 (16 - List.length bytes)
                                ++ skipn e bytes)
                      end
                    else
                      match ellipsis' with
                      | Some _ => None
                      | None => Some bytes
                      end
                end
            end = Some ip ->
            List.length ip = 16%nat /\ Forall octet ip).
  { intros t ellipsis Hell H.
    destruct (net.parseIPv6_loop 8 t [] ellipsis)
      as [[[rest bytes] ellipsis']|] eqn:E; [ | discriminate].
    destruct (parseIPv6_loop_octets 8 t [] ellipsis rest bytes ellipsis' E)
      as (Hlen & Hoct & Hell'); [simpl; lia | constructor | | ].
    - intros k Hk. specialize (Hell k Hk). simpl. lia.
    - eapply Hfin; eassumption. }
  unfold net.parseIPv6.
  destruct s as [| c0 [| c1 rest]].
  - apply Hrun. discriminate.
  - apply Hrun. discriminate.
  - destruct (net.isColon c0 && net.isColon c1).
    + destruct rest as [| c2 rest'].
      * intro H. assert (Hip : ip = repeat 0 16%nat) by congruence.
        rewrite Hip. split; [reflexivity | apply repeat_zero_octets].
      * apply Hrun. intros k Hk. injection Hk as <-. lia.
    + apply Hrun. discriminate.
Qed.

Lemma parseAddr_scan_cases (whole s : list ascii) (ip : net.IP) :
  net.parseAddr_scan whole s = Some ip ->
  (exists f, net.parseIPv4Fields whole = Some f
             /\ ip = net.v4InV6Prefix ++ f)
  \/ (existsb net.isColon s = true /\ net.parseIPv6 whole = Some ip).
Proof.
  induction s as [| c rest IH]; [discriminate | ].
  cbn [net.parseAddr_scan existsb].
  destruct (net.isDot c).
  - destruct (net.parseIPv4Fields whole) as [f|]; [ | discriminate].
    intro H. injection H as <-. left. now exists f.
  - destruct (net.isColon c).
    + destruct (existsb net.isPercent whole); [discriminate | ].
      intro H. right. now split.
    + destruct (net.isPercent c); [discriminate | ].
      intro H. destruct (IH H) as [Hv4 | [Hcolon Hv6]];
        [now left | right; now split].
Qed.

(** [net.ParseIP] returns sixteen octets. *)
Lemma ParseIP_octets (s : string) (ip : net.IP) :
  net.ParseIP s = Some ip ->
  List.length ip = 16%nat /\ Forall octet ip.
Proof.
  intro H. apply parseAddr_scan_cases in H as [(f & Hf & ->) | [_ H6]].
  - destruct (parseIPv4Fields_octets _ f Hf)
      as (a & b & c & d & -> & Ha & Hb & Hc & Hd).
    split; [reflexivity | ].
    apply Forall_app. split.
    + repeat constructor; unfold octet; lia.
    + now apply Forall_octet4.
  - exact (parseIPv6_octets _ ip H6).
Qed.

(** The big-endian value of [n] octets is below [256 ^ n]. *)
Lemma SetBytes_bound (buf : list Z) :
  Forall octet buf ->
  0 <= big.SetBytes buf < 256 ^ Z.of_nat (List.length buf).
Proof.
  unfold big.SetBytes.
  assert (H : forall l acc n,
            Forall octet l -> 0 <= n -> 0 <= acc < 256 ^ n ->
            0 <= fold_left (fun a b => a * 256 + b) l acc
              < 256 ^ (n + Z.of_nat (List.length l))).
  { induction l as [| b l IH]; intros acc n Hl Hn Hacc.
    - simpl. now rewrite Z.add_0_r.
    - inversion Hl as [| ? ? Hb Hl']; subst. cbn [fold_left List.length].
      replace (n + Z.of_nat (S (List.length l)))
        with ((n + 1) + Z.of_nat (List.length l)) by lia.
      apply IH; [assumption | lia | ].
      rewrite Z.pow_add_r by lia. change (256 ^ 1) with 256.
      unfold octet in Hb. nia. }
  intro Hl. apply (H buf 0 0 Hl); simpl; lia.
Qed.

(** ** The handler *)

Lemma To4_length (ip b : net.IP) :
  net.To4 ip = Some b -> List.length b = 4%nat.
Proof.
  unfold net.To4. destruct (List.length ip =? 4)%nat eqn:E4.
  - intro H. injection H as <-. now apply Nat.eqb_eq.
  - destruct (List.length ip =? 16)%nat eqn:E16; cbn [andb];
      [ | discriminate].
    destruct (net.isZeros (firstn 10 ip) && (nth 10 ip 0 =? 255)
              && (nth 11 ip 0 =? 255)); [ | discriminate].
    intro H. apply Nat.eqb_eq in E16.
    assert (Hb : b = firstn 4 (skipn 12 ip)) by congruence.
    rewrite Hb, length_firstn, length_skipn. lia.
Qed.

Lemma BigEndian_Uint32_total (b : list Z) :
  List.length b = 4%nat -> exists v, binary.BigEndian_Uint32 b = Val v.
Proof.
  destruct b as [| b0 [| b1 [| b2 [| b3 [| b4 t]]]]]; try discriminate.
  intros _. eexists. reflexivity.
Qed.

(** The normalisation of a parsed address never panics. *)
Lemma ipNumOf_total (addr : net.IP) : exists n, ipNumOf addr = Val n.
Proof.
  unfold ipNumOf. destruct (net.To4 addr) as [b|] eqn:E.
  - destruct (BigEndian_Uint32_total b (To4_length _ _ E)) as [v Hv].
    rewrite Hv. eexists. reflexivity.
  - eexists. reflexivity.
Qed.

Lemma normalize_total (raw : string) : exists o, normalize raw = Val o.
Proof.
  unfold normalize. destruct (parseIpAddress raw) as [[[s|] v6]|];
    try (eexists; reflexivity).
  destruct (net.ParseIP s) as [addr|]; [ | eexists; reflexivity].
  destruct (ipNumOf_total addr) as [n Hn]. rewrite Hn.
  eexists. reflexivity.
Qed.

(** The handler as the lookup of the normalised address. *)
Lemma getIpInfo_unfold (arr : list IpAddressRange) (raw : string) :
  getIpInfo arr raw =
    match parseIpAddress raw, normalize raw with
    | Some ipAddr, Val (Some ipNum) =>
        match lookup arr ipNum with
        | Val (Some c) => Val (mkApiResponse true (Some c) ipAddr)
        | Val None => Val notFound
        | Panic => Panic
        end
    | _, Panic => Panic
    | _, _ => Val notFound
    end.
Proof.
  unfold getIpInfo, normalize.
  destruct (parseIpAddress raw) as [[[s|] v6]|]; simpl; try reflexivity.
  destruct (net.ParseIP s) as [addr|]; [ | reflexivity].
  destruct (ipNumOf addr) as [n|]; simpl; [ | reflexivity].
  destruct (lookup arr n) as [[c|]|]; reflexivity.
Qed.

(** The handler never panics. *)
Lemma getIpInfo_total (arr : list IpAddressRange) (raw : string) :
  exists resp, getIpInfo arr raw = Val resp.
Proof.
  rewrite getIpInfo_unfold.
  destruct (normalize_total raw) as [[n|] Hn]; rewrite Hn.
  - destruct (parseIpAddress raw); [ | eexists; reflexivity].
    destruct (lookup_total arr n) as [[c|] Hl]; rewrite Hl;
      eexists; reflexivity.
  - destruct (parseIpAddress raw); eexists; reflexivity.
Qed.

(** C3. On every index, a request whose address normalises to 0 (as
    0.0.0.0 does) is answered [Ok: false], also when a stored range
    begins at 0. *)
Theorem zero_query_not_found (arr : list IpAddressRange) (raw : string) :
  normalize raw = Val (Some 0) -> getIpInfo arr raw = Val notFound.
Proof.
  intro Hn. rewrite getIpInfo_unfold, Hn, lookup_zero.
  destruct (parseIpAddress raw); reflexivity.
Qed.

Lemma zero_query_not_found_witness :
  normalize "0.0.0.0" = Val (Some 0)
  /\ getIpInfo [mkRange 0 99 "A"] "0.0.0.0" = Val notFound.
Proof.
  split; [reflexivity | ].
  apply (zero_query_not_found [mkRange 0 99 "A"] "0.0.0.0"). reflexivity.
Defined.

(** C4. On the empty index every request, whatever its address, is
    answered [Ok: false], without a panic. *)
Theorem empty_index_not_found (raw : string) :
  getIpInfo [] raw = Val notFound.
Proof.
  rewrite getIpInfo_unfold.
  destruct (normalize_total raw) as [[n|] Hn]; rewrite Hn.
  - destruct (parseIpAddress raw); [ | reflexivity].
    destruct (searchIdx_total [] n) as [idx Hidx].
    rewrite (lookup_unfold _ _ _ Hidx).
    destruct (searchIdx_inv _ _ _ Hidx) as (Hlen & _). simpl in Hlen.
    assert (idx = 0%nat) as -> by lia. reflexivity.
  - destruct (parseIpAddress raw); reflexivity.
Qed.

Lemma malformed_parseIpAddress (raw : string) :
  malformed raw -> parseIpAddress raw = None.
Proof.
  unfold malformed, parseIpAddress, validator.ip4_addr, validator.ip6_addr,
    validator.isIP4AddrResolvable, validator.isIP6AddrResolvable,
    validator.isIPv4, validator.isIPv6.
  intros ->. cbn [andb]. now rewrite !andb_false_r.
Qed.

(** C5. For every input string and every index the handler returns a
    response and does not panic; a string that does not parse as an
    address (the empty string, text that is no address, a truncated IPv6
    literal) gets [Ok: false]. *)
Theorem malformed_address_not_found :
  (forall arr raw, exists resp, getIpInfo arr raw = Val resp)
  /\ (forall arr raw, malformed raw -> getIpInfo arr raw = Val notFound)
  /\ malformed ""%string /\ malformed "not-an-address"%string
  /\ malformed "2001:db8:"%string.
Proof.
  split; [exact getIpInfo_total | ].
  split; [ | repeat split; reflexivity].
  intros arr raw Hm. rewrite getIpInfo_unfold.
  rewrite (malformed_parseIpAddress _ Hm).
  destruct (normalize_total raw) as [o Ho]. rewrite Ho.
  destruct o; reflexivity.
Qed.

Lemma malformed_address_not_found_witness :
  malformed "2001:db8:"%string
  /\ getIpInfo [US] "2001:db8:" = Val notFound.
Proof.
  split; [reflexivity | ].
  apply (proj1 (proj2 malformed_address_not_found) [US] "2001:db8:"%string).
  reflexivity.
Defined.

(** C8. Whenever the handler answers [Ok: true], on any index whatever
    (sorted or not, with overlapping, repeated or reversed ranges), the
    country is that of the range just before the position found, and that
    range contains the normalised query: start <= query <= end. *)
Theorem hit_contains_query
  (arr : list IpAddressRange) (raw : string) (resp : ApiResponse) :
  getIpInfo arr raw = Val resp ->
  Ok resp = true ->
  exists q idx r,
    normalize raw = Val (Some q)
    /\ searchIdx arr q = Val idx /\ (0 < idx)%nat
    /\ nth_error arr (idx - 1) = Some r
    /\ Country resp = Some (country r)
    /\ start r <= q <= end_ r.
Proof.
  rewrite getIpInfo_unfold. intros H Hok.
  destruct (normalize raw) as [[q|]|] eqn:Hn.
  - destruct (parseIpAddress raw) as [a|].
    + destruct (lookup arr q) as [[c|]|] eqn:Hl.
      * injection H as <-.
        apply lookup_hit in Hl.
        destruct Hl as (idx & r & Hi & Hp & Hr & Hc & Hcont & _).
        exists q, idx, r. simpl. rewrite Hc. repeat split; auto;
          apply Hcont.
      * injection H as <-. discriminate.
      * discriminate.
    + injection H as <-. discriminate.
  - destruct (parseIpAddress raw); injection H as <-; discriminate.
  - destruct (parseIpAddress raw); discriminate.
Qed.

Lemma hit_contains_query_witness :
  exists q idx r,
    normalize "0.0.0.12" = Val (Some q)
    /\ searchIdx messyIndex q = Val idx /\ (0 < idx)%nat
    /\ nth_error messyIndex (idx - 1) = Some r
    /\ Some "B"%string = Some (country r)
    /\ start r <= q <= end_ r.
Proof.
  apply (hit_contains_query messyIndex "0.0.0.12"
           (mkApiResponse true (Some "B"%string)
              (mkIpAddress (Some "0.0.0.12"%string) false)));
    reflexivity.
Defined.

(** ** The record loop of loadCsv *)

Lemma readRecord_three (fpr : nat) (rec : list string) :
  List.length rec = 3%nat -> (fpr = 0 \/ fpr = 3)%nat ->
  csv.readRecord fpr (csv.Fields rec) = (rec, false, 3%nat).
Proof.
  intros Hlen [-> | ->]; simpl; rewrite Hlen; reflexivity.
Qed.

Lemma parseRecord_three (f0 f1 f2 : string) :
  parseRecord [f0; f1; f2] =
    match big.SetString f0, big.SetString f1 with
    | Some st, Some en => Val (Some (mkRange st en f2))
    | _, _ => Val None
    end.
Proof.
  unfold parseRecord, index; simpl.
  destruct (big.SetString f0); [ | reflexivity]. simpl.
  destruct (big.SetString f1); reflexivity.
Qed.

(** One turn of the loop on a three-field record. *)
Lemma readRecords_three (f0 f1 f2 : string) (rest : list csv.Row)
  (fpr : nat) (arr : list IpAddressRange) :
  (fpr = 0 \/ fpr = 3)%nat ->
  readRecords (csv.Fields [f0; f1; f2] :: rest) fpr arr =
    match big.SetString f0, big.SetString f1 with
    | Some st, Some en => readRecords rest 3 (arr ++ [mkRange st en f2])
    | _, _ => readRecords rest 3 arr
    end.
Proof.
  intro Hfpr. cbn [readRecords].
  rewrite (readRecord_three fpr [f0; f1; f2] eq_refl Hfpr).
  rewrite parseRecord_three.
  destruct (big.SetString f0); [ | reflexivity].
  destruct (big.SetString f1); reflexivity.
Qed.

(** C7. For a record of three fields: when the first or the second field
    is not a base-10 integer, the loop body skips the record and the loop
    goes on with the records after it, the slice unchanged and no panic
    raised by the record; otherwise exactly one range is appended, with
    the two parsed bounds and the third field unchanged as its country. *)
Theorem three_field_record
  (f0 f1 f2 : string) (rest : list csv.Row) (fpr : nat)
  (arr : list IpAddressRange) :
  (fpr = 0 \/ fpr = 3)%nat ->
  ((big.SetString f0 = None \/ big.SetString f1 = None) ->
   parseRecord [f0; f1; f2] = Val None
   /\ readRecords (csv.Fields [f0; f1; f2] :: rest) fpr arr
      = readRecords rest 3 arr)
  /\ (forall st en,
        big.SetString f0 = Some st -> big.SetString f1 = Some en ->
        parseRecord [f0; f1; f2] = Val (Some (mkRange st en f2))
        /\ readRecords (csv.Fields [f0; f1; f2] :: rest) fpr arr
           = readRecords rest 3 (arr ++ [mkRange st en f2])).
Proof.
  intro Hfpr.
  rewrite (readRecords_three f0 f1 f2 rest fpr arr Hfpr), parseRecord_three.
  split.
  - intros [H | H]; rewrite H; [split; reflexivity | ].
    destruct (big.SetString f0); split; reflexivity.
  - intros st en -> ->. split; reflexivity.
Qed.

Lemma three_field_record_witness :
  readRecords sampleRows 0 []
  = readRecords (tl sampleRows) 3 [mkRange 16777216 16777471 "AU"]
  /\ readRecords (tl sampleRows) 3 [mkRange 16777216 16777471 "AU"]
     = readRecords (tl (tl sampleRows)) 3 [mkRange 16777216 16777471 "AU"]
  /\ readRecords sampleRows 0 []
     = Val [mkRange 16777216 16777471 "AU";
            mkRange 16778240 16779263 "au "].
Proof.
  split; [ | split; [ | reflexivity]].
  - exact (proj2 (proj2 (three_field_record "16777216" "16777471" "AU"
                           (tl sampleRows) 0 [] (or_introl eq_refl))
                    16777216 16777471 eq_refl eq_refl)).
  - exact (proj2 (proj1 (three_field_record "x" "16778239" "CN"
                           (tl (tl sampleRows)) 3
                           [mkRange 16777216 16777471 "AU"]
                           (or_intror eq_refl))
                    (or_introl eq_refl))).
Defined.

Lemma readRecords_stop (row : csv.Row) (rest : list csv.Row) (fpr : nat)
  (arr : list IpAddressRange) :
  readFails fpr row = true -> readRecords (row :: rest) fpr arr = Val arr.
Proof.
  unfold readFails. cbn [readRecords].
  destruct (csv.readRecord fpr row) as [[rec err] fpr']. simpl.
  now intros ->.
Qed.

Lemma readRecords_error (pre : list csv.Row) (bad : csv.Row)
  (rest : list csv.Row) :
  forall fpr arr,
    readFails (fieldsPerRecordAfter pre fpr) bad = true ->
    readRecords (pre ++ bad :: rest) fpr arr = readRecords pre fpr arr.
Proof.
  induction pre as [| row pre IH]; intros fpr arr Hbad.
  - simpl in Hbad. simpl app. now rewrite readRecords_stop.
  - cbn [app readRecords]. unfold fieldsPerRecordAfter in Hbad.
    cbn [fold_left] in Hbad.
    destruct (csv.readRecord fpr row) as [[rec err] fpr'] eqn:E.
    simpl in Hbad. destruct err; [reflexivity | ].
    destruct (parseRecord rec) as [[r|]|]; simpl;
      [apply IH | apply IH | reflexivity]; exact Hbad.
Qed.

(** Once set, [FieldsPerRecord] stays. *)
Lemma fieldsPerRecordAfter_set (rows : list csv.Row) (fpr : nat) :
  (0 < fpr)%nat -> fieldsPerRecordAfter rows fpr = fpr.
Proof.
  intro Hpos. induction rows as [| row rows IH]; [reflexivity | ].
  unfold fieldsPerRecordAfter in *. cbn [fold_left].
  replace (snd (csv.readRecord fpr row)) with fpr; [exact IH | ].
  destruct row as [rec |]; simpl; [ | reflexivity].
  apply Nat.ltb_lt in Hpos. now rewrite Hpos.
Qed.

Lemma field_count_mismatch_fails (fpr : nat) (rec : list string) :
  (0 < fpr)%nat -> List.length rec <> fpr ->
  readFails fpr (csv.Fields rec) = true.
Proof.
  intros Hpos Hne. unfold readFails. simpl.
  apply Nat.ltb_lt in Hpos. rewrite Hpos. simpl.
  apply negb_true_iff, Nat.eqb_neq. assumption.
Qed.

(** C9. A read error on a record ends the reading of its file: the loop
    returns what it had collected before that record, whatever rows
    follow it. A row whose number of fields differs from that of the
    file's first row is such an error, wherever it stands after the
    first row, and so is a row the reader cannot lex. *)
Theorem read_error_ends_file :
  (forall pre bad rest fpr arr,
     readFails (fieldsPerRecordAfter pre fpr) bad = true ->
     readRecords (pre ++ bad :: rest) fpr arr = readRecords pre fpr arr)
  /\ (forall first pre rec,
        first <> [] -> List.length rec <> List.length first ->
        readFails (fieldsPerRecordAfter (csv.Fields first :: pre) 0)
          (csv.Fields rec) = true)
  /\ (forall fpr, readFails fpr csv.Malformed = true).
Proof.
  split; [ | split].
  - intros pre bad rest fpr arr. apply readRecords_error.
  - intros first pre rec Hne Hlen.
    assert (Hpos : (0 < List.length first)%nat)
      by (destruct first; [contradiction | simpl; lia]).
    unfold fieldsPerRecordAfter. cbn [fold_left csv.readRecord Nat.ltb
                                      Nat.leb snd].
    fold (fieldsPerRecordAfter pre (List.length first)).
    rewrite (fieldsPerRecordAfter_set pre _ Hpos).
    now apply field_count_mismatch_fails.
  - reflexivity.
Qed.

Lemma read_error_ends_file_witness :
  readRecords shortRowFile 0 [] = Val [mkRange 1 2 "AA"].
Proof.
  destruct read_error_ends_file as (Hstop & Hcount & _).
  change shortRowFile
    with ([csv.Fields ["1"; "2"; "AA"]%string]
          ++ csv.Fields ["3"; "4"]%string
          :: [csv.Fields ["5"; "6"; "BB"]%string]).
  rewrite Hstop; [reflexivity | ].
  apply (Hcount ["1"; "2"; "AA"]%string [] ["3"; "4"]%string);
    simpl; [discriminate | lia].
Defined.

(** The loop body on a record of fewer than three fields, all of them
    integers: the first missing field is read out of range. *)
Lemma parseRecord_short (rec : list string) :
  (List.length rec < 3)%nat ->
  Forall (fun f => big.SetString f <> None) rec ->
  parseRecord rec = Panic.
Proof.
  intros Hlen Hall. unfold parseRecord, index.
  destruct rec as [| f0 [| f1 [| f2 t]]]; simpl in Hlen; try lia.
  - reflexivity.
  - inversion Hall as [| ? ? H0 _]; subst. simpl.
    destruct (big.SetString f0); [reflexivity | contradiction].
  - inversion Hall as [| ? ? H0 H1]; subst.
    inversion H1 as [| ? ? H1' _]; subst. simpl.
    destruct (big.SetString f0); [ | contradiction]. simpl.
    destruct (big.SetString f1); [reflexivity | contradiction].
Qed.

(** C10. The loop body indexes the record without checking its length:
    when the first row of a file has fewer than three fields and those it
    has are integers (a row of exactly two numeric fields, say), reading
    the first missing field panics, and so does [loadCsv], whatever else
    the files hold. *)
Theorem short_first_row_panics
  (open : string -> option (list csv.Row))
  (rec : list string) (rest : list csv.Row) :
  (List.length rec < 3)%nat ->
  Forall (fun f => big.SetString f <> None) rec ->
  open "geo-whois-asn-country-ipv4-num.csv"%string
  = Some (csv.Fields rec :: rest) ->
  parseRecord rec = Panic
  /\ readRecords (csv.Fields rec :: rest) 0 [] = Panic
  /\ loadCsv open = Panic.
Proof.
  intros Hlen Hall Hopen.
  pose proof (parseRecord_short rec Hlen Hall) as Hp.
  assert (Hr : readRecords (csv.Fields rec :: rest) 0 [] = Panic).
  { cbn [readRecords csv.readRecord Nat.ltb Nat.leb]. now rewrite Hp. }
  split; [exact Hp | split; [exact Hr | ]].
  unfold loadCsv, files. cbn [loadFiles LocalName]. rewrite Hopen, Hr.
  reflexivity.
Qed.

Lemma short_first_row_panics_witness :
  loadCsv twoFieldFiles = Panic.
Proof.
  apply (short_first_row_panics twoFieldFiles
           ["1"; "2"]%string [csv.Fields ["3"; "4"; "AA"]%string]).
  - simpl. lia.
  - repeat constructor; discriminate.
  - reflexivity.
Defined.

(** ** sort.Slice keeps its contract *)

Section PdqsortFacts.

Variable A : Type.
Variable key : A -> Z.
Variable less : A -> A -> bool.
Hypothesis less_key : forall x y, less x y = (key x <? key y).

Local Abbreviation kz := (keyAt key).

Lemma put_length (d : list A) (i : nat) (x : A) :
  List.length (sort.put d i x) = List.length d.
Proof.
  revert i. induction d as [| h t IH]; intros [| i]; simpl;
    try reflexivity. now rewrite IH.
Qed.

Lemma put_nth (d : list A) (i : nat) (x : A) (k : nat) :
  (i < List.length d)%nat ->
  nth_error (sort.put d i x) k
  = if (k =? i)%nat then Some x else nth_error d k.
Proof.
  revert i k. induction d as [| h t IH]; intros i k Hi; simpl in Hi;
    [lia | ].
  destruct i as [| i]; destruct k as [| k]; simpl; try reflexivity.
  apply IH. lia.
Qed.

Lemma put_Permutation (d : list A) (i : nat) (x y : A) :
  nth_error d i = Some y ->
  Permutation (x :: d) (y :: sort.put d i x).
Proof.
  revert i. induction d as [| h t IH]; intros [| i] H; simpl in *;
    try discriminate.
  - injection H as ->. apply perm_swap.
  - rewrite perm_swap. rewrite (IH i H). apply perm_swap.
Qed.

Lemma Swap_length (d : list A) (i j : nat) :
  List.length (sort.Swap d i j) = List.length d.
Proof.
  unfold sort.Swap. destruct (nth_error d i), (nth_error d j);
    try reflexivity. now rewrite !put_length.
Qed.

Lemma Swap_nth (d : list A) (i j k : nat) :
  (i < List.length d)%nat -> (j < List.length d)%nat ->
  nth_error (sort.Swap d i j) k
  = if (k =? j)%nat then nth_error d i
    else if (k =? i)%nat then nth_error d j
    else nth_error d k.
Proof.
  intros Hi Hj. unfold sort.Swap.
  destruct (nth_error d i) as [x|] eqn:Ei;
    [ | apply nth_error_None in Ei; lia].
  destruct (nth_error d j) as [y|] eqn:Ej;
    [ | apply nth_error_None in Ej; lia].
  rewrite put_nth by (rewrite put_length; assumption).
  destruct (k =? j)%nat; [reflexivity | ].
  now rewrite put_nth by assumption.
Qed.

Lemma Swap_Permutation (d : list A) (i j : nat) :
  Permutation d (sort.Swap d i j).
Proof.
  unfold sort.Swap.
  destruct (nth_error d i) as [x|] eqn:Ei; [ | reflexivity].
  destruct (nth_error d j) as [y|] eqn:Ej; [ | reflexivity].
  assert (Hi : (i < List.length d)%nat)
    by (apply nth_error_Some; congruence).
  apply Permutation_cons_inv with (a := y).
  rewrite (put_Permutation d i y x Ei).
  apply put_Permutation.
  rewrite put_nth by assumption.
  destruct (j =? i)%nat eqn:E; [ | assumption].
  apply Nat.eqb_eq in E. subst j. congruence.
Qed.

Lemma kz_Swap (d : list A) (i j k : nat) :
  (i < List.length d)%nat -> (j < List.length d)%nat ->
  kz (sort.Swap d i j) k
  = if (k =? j)%nat then kz d i
    else if (k =? i)%nat then kz d j
    else kz d k.
Proof.
  intros Hi Hj. unfold kz. rewrite Swap_nth by assumption.
  destruct (k =? j)%nat; [reflexivity | ].
  destruct (k =? i)%nat; reflexivity.
Qed.

Lemma Less_kz (d : list A) (i j : nat) :
  (i < List.length d)%nat -> (j < List.length d)%nat ->
  sort.Less less d i j = (kz d i <? kz d j).
Proof.
  intros Hi Hj. unfold sort.Less, kz.
  destruct (nth_error d i) as [x|] eqn:Ei;
    [ | apply nth_error_None in Ei; lia].
  destruct (nth_error d j) as [y|] eqn:Ej;
    [ | apply nth_error_None in Ej; lia].
  apply less_key.
Qed.


Lemma rearranged_refl (a b : nat) (d : list A) : rearranged a b d d.
Proof.
  repeat split; auto. intros k Hk. exists k. auto.
Qed.

Lemma rearranged_trans (a b : nat) (d0 d1 d2 : list A) :
  rearranged a b d0 d1 -> rearranged a b d1 d2 -> rearranged a b d0 d2.
Proof.
  intros (L1 & O1 & I1 & P1) (L2 & O2 & I2 & P2).
  split; [congruence | split; [ | split]].
  - intros k Hk. rewrite O2, O1 by assumption. reflexivity.
  - intros k Hk. destruct (I2 k Hk) as (j & Hj & E2).
    destruct (I1 j Hj) as (j' & Hj' & E1). exists j'. split; congruence.
  - now rewrite P1.
Qed.

Lemma rearranged_mono (a b a' b' : nat) (d0 d : list A) :
  rearranged a' b' d0 d -> (a <= a')%nat -> (b' <= b)%nat ->
  rearranged a b d0 d.
Proof.
  intros (L & O & I & P) Ha Hb. split; [assumption | split; [ | split]].
  - intros k Hk. apply O. lia.
  - intros k Hk.
    destruct (le_lt_dec a' k) as [H1 | H1];
      [destruct (le_lt_dec b' k) as [H2 | H2] | ].
    + exists k. split; [lia | apply O; lia].
    + destruct (I k ltac:(lia)) as (j & Hj & E). exists j. split; [lia | auto].
    + exists k. split; [lia | apply O; lia].
  - assumption.
Qed.

Lemma rearranged_Swap (a b : nat) (d : list A) (i j : nat) :
  (a <= i < b)%nat -> (a <= j < b)%nat -> (b <= List.length d)%nat ->
  rearranged a b d (sort.Swap d i j).
Proof.
  intros Hi Hj Hb. split; [apply Swap_length | split; [ | split]].
  - intros k Hk. rewrite Swap_nth by lia.
    destruct (Nat.eqb_spec k j); [lia | ].
    destruct (Nat.eqb_spec k i); [lia | reflexivity].
  - intros k Hk. rewrite Swap_nth by lia.
    destruct (Nat.eqb_spec k j); [exists i; auto | ].
    destruct (Nat.eqb_spec k i); [exists j; auto | exists k; auto].
  - apply Swap_Permutation.
Qed.

(** A bound on the keys of a range survives a rearrangement of it. *)
Lemma rearranged_keys (P : Z -> Prop) (a b : nat) (d0 d : list A) :
  rearranged a b d0 d ->
  (forall k, (a <= k < b)%nat -> P (kz d0 k)) ->
  forall k, (a <= k < b)%nat -> P (kz d k).
Proof.
  intros (_ & _ & I & _) H k Hk. destruct (I k Hk) as (j & Hj & E).
  unfold keyAt. rewrite E. apply (H j Hj).
Qed.

Lemma rearranged_outside (a b : nat) (d0 d : list A) (k : nat) :
  rearranged a b d0 d -> (k < a \/ b <= k)%nat -> kz d k = kz d0 k.
Proof.
  intros (_ & O & _) Hk. unfold keyAt. now rewrite O.
Qed.

Lemma rearranged_length (a b : nat) (d0 d : list A) :
  rearranged a b d0 d -> List.length d = List.length d0.
Proof. now intros (L & _). Qed.


(** *** Insertion sort *)

(** The inner loop carries the element at [j] down into the ascending
    run below it; [i] is where it started. *)
Lemma insertionSort_inner_spec (j : nat) :
  forall (d : list A) (a i : nat),
    (a <= j <= i)%nat -> (i < List.length d)%nat ->
    (forall p q, (a <= p <= q)%nat -> (q <= i)%nat -> p <> j -> q <> j ->
                 kz d p <= kz d q) ->
    (forall q, (j < q <= i)%nat -> kz d j <= kz d q) ->
    rearranged a (S i) d (sort.insertionSort_inner less d a j)
    /\ sortedOn key (sort.insertionSort_inner less d a j) a (S i).
Proof.
  induction j as [| j IH]; intros d a i Hj Hi Hrest Hup.
  - simpl. split; [apply rearranged_refl | ].
    intros p q Hpq Hq.
    destruct (Nat.eq_dec p 0) as [-> | Hp].
    + destruct (Nat.eq_dec q 0) as [-> | Hq0]; [lia | apply Hup; lia].
    + apply Hrest; lia.
  - cbn [sort.insertionSort_inner].
    destruct (a <? S j)%nat eqn:Ea; cbn [andb].
    + apply Nat.ltb_lt in Ea.
      rewrite Less_kz by lia.
      destruct (kz d (S j) <? kz d j) eqn:El.
      * apply Z.ltb_lt in El.
        destruct (IH (sort.Swap d (S j) j) a i) as [HR HS].
        -- lia.
        -- now rewrite Swap_length.
        -- intros p q Hpq Hq Hpj Hqj. rewrite !kz_Swap by lia.
           destruct (Nat.eqb_spec p j); [lia | ].
           destruct (Nat.eqb_spec q j); [lia | ].
           destruct (Nat.eqb_spec p (S j)); destruct (Nat.eqb_spec q (S j));
             subst; try lia.
           ++ apply Hrest; lia.
           ++ apply Hrest; lia.
           ++ apply Hrest; lia.
        -- intros q Hq. rewrite !kz_Swap by lia.
           rewrite Nat.eqb_refl.
           destruct (Nat.eqb_spec q j); [lia | ].
           destruct (Nat.eqb_spec q (S j)); [lia | apply Hup; lia].
        -- split; [ | exact HS].
           eapply rearranged_trans; [ | exact HR].
           apply rearranged_Swap; lia.
      * apply Z.ltb_ge in El. split; [apply rearranged_refl | ].
        intros p q Hpq Hq.
        destruct (Nat.eq_dec p (S j)) as [-> | Hp].
        -- destruct (Nat.eq_dec q (S j)) as [-> | Hq']; [lia | ].
           apply Hup; lia.
        -- destruct (Nat.eq_dec q (S j)) as [-> | Hq'].
           ++ assert (kz d p <= kz d j) by (apply Hrest; lia). lia.
           ++ apply Hrest; lia.
    + apply Nat.ltb_ge in Ea. split; [apply rearranged_refl | ].
      intros p q Hpq Hq.
      destruct (Nat.eq_dec p (S j)) as [-> | Hp].
      * destruct (Nat.eq_dec q (S j)) as [-> | Hq']; [lia | apply Hup; lia].
      * apply Hrest; lia.
Qed.

Lemma insertionSort_outer_spec (n : nat) :
  forall (d : list A) (a i : nat),
    (a < i)%nat -> (i + n <= List.length d)%nat ->
    sortedOn key d a i ->
    rearranged a (i + n) d (sort.insertionSort_outer less n d a i)
    /\ sortedOn key (sort.insertionSort_outer less n d a i) a (i + n).
Proof.
  induction n as [| n IH]; intros d a i Ha Hlen Hs.
  - simpl. rewrite Nat.add_0_r. split; [apply rearranged_refl | exact Hs].
  - cbn [sort.insertionSort_outer].
    destruct (insertionSort_inner_spec i d a i) as [HR HS].
    + lia.
    + lia.
    + intros p q Hpq Hq Hp Hqi. apply Hs; lia.
    + intros q Hq. lia.
    + destruct (IH (sort.insertionSort_inner less d a i) a (S i))
        as [HR' HS'].
      * lia.
      * rewrite (rearranged_length _ _ _ _ HR). lia.
      * exact HS.
      * replace (i + S n)%nat with (S i + n)%nat by lia.
        split; [ | exact HS'].
        eapply rearranged_trans; [ | exact HR'].
        eapply rearranged_mono; [exact HR | lia | lia].
Qed.

Lemma insertionSort_spec (d : list A) (a b : nat) :
  (a <= b)%nat -> (b <= List.length d)%nat ->
  rearranged a b d (sort.insertionSort less d a b)
  /\ sortedOn key (sort.insertionSort less d a b) a b.
Proof.
  intros Hab Hb. unfold sort.insertionSort.
  destruct (Nat.eq_dec a b) as [-> | Hne].
  - replace (b - (b + 1))%nat with 0%nat by lia. simpl.
    split; [apply rearranged_refl | ]. intros i j Hij Hj. lia.
  - destruct (insertionSort_outer_spec (b - (a + 1)) d a (a + 1))
      as [HR HS].
    + lia.
    + lia.
    + intros i j Hij Hj. assert (i = j) as -> by lia. lia.
    + replace (a + 1 + (b - (a + 1)))%nat with b in * by lia.
      now split.
Qed.


(** *** Partitioning *)

Lemma skipLess_spec (n : nat) :
  forall (d : list A) (a i j : nat),
    (j < List.length d)%nat -> (a < List.length d)%nat ->
    (i <= j + 1)%nat -> (j + 1 - i <= n)%nat ->
    (i <= sort.skipLess less n d a i j <= j + 1)%nat
    /\ (forall k, (i <= k < sort.skipLess less n d a i j)%nat ->
                  kz d k < kz d a)
    /\ ((sort.skipLess less n d a i j <= j)%nat ->
        kz d a <= kz d (sort.skipLess less n d a i j)).
Proof.
  induction n as [| n IH]; intros d a i j Hj Ha Hi Hn.
  - simpl. repeat split; try lia.
  - cbn [sort.skipLess]. destruct (i <=? j)%nat eqn:E; cbn [andb].
    + apply Nat.leb_le in E. rewrite Less_kz by lia.
      destruct (kz d i <? kz d a) eqn:El.
      * apply Z.ltb_lt in El.
        destruct (IH d a (S i) j Hj Ha ltac:(lia) ltac:(lia))
          as (Hr & Hlt & Hge).
        split; [lia | split; [ | exact Hge]].
        intros k Hk. destruct (Nat.eq_dec k i) as [-> | Hne];
          [exact El | apply Hlt; lia].
      * apply Z.ltb_ge in El. repeat split; try lia.
    + apply Nat.leb_gt in E. repeat split; try lia.
Qed.

Lemma skipNotLess_spec (n : nat) :
  forall (d : list A) (a i j : nat),
    (j < List.length d)%nat -> (a < List.length d)%nat ->
    (1 <= i)%nat -> (i <= j + 1)%nat -> (j + 1 - i <= n)%nat ->
    (sort.skipNotLess less n d a i j <= j)%nat
    /\ (i <= sort.skipNotLess less n d a i j + 1)%nat
    /\ (forall k, (sort.skipNotLess less n d a i j < k <= j)%nat ->
                  kz d a <= kz d k)
    /\ ((i <= sort.skipNotLess less n d a i j)%nat ->
        kz d (sort.skipNotLess less n d a i j) < kz d a).
Proof.
  induction n as [| n IH]; intros d a i j Hj Ha Hi1 Hi Hn.
  - simpl. repeat split; try lia.
  - cbn [sort.skipNotLess]. destruct (i <=? j)%nat eqn:E; cbn [andb].
    + apply Nat.leb_le in E. rewrite Less_kz by lia.
      destruct (kz d j <? kz d a) eqn:El; cbn [negb].
      * apply Z.ltb_lt in El. repeat split; try lia.
      * apply Z.ltb_ge in El.
        destruct (IH d a i (j - 1)%nat ltac:(lia) Ha Hi1 ltac:(lia)
                    ltac:(lia)) as (Hr & Hlo & Hge & Hlt).
        split; [lia | split; [lia | split; [ | exact Hlt]]].
        intros k Hk. destruct (Nat.eq_dec k j) as [-> | Hne];
          [exact El | apply Hge; lia].
    + apply Nat.leb_gt in E. repeat split; try lia.
Qed.

Lemma partition_loop_spec (n : nat) :
  forall (d : list A) (a b i j : nat),
    (a + 1 <= i)%nat -> (i <= j + 1)%nat -> (j < b)%nat ->
    (b <= List.length d)%nat -> (j + 1 - i <= n)%nat ->
    (forall k, (a < k < i)%nat -> kz d k < kz d a) ->
    (forall k, (j < k < b)%nat -> kz d a <= kz d k) ->
    rearranged (a + 1) b d (fst (sort.partition_loop less n d a b i j))
    /\ (a <= snd (sort.partition_loop less n d a b i j) < b)%nat
    /\ (forall k, (a < k <= snd (sort.partition_loop less n d a b i j))%nat ->
                  kz (fst (sort.partition_loop less n d a b i j)) k
                  < kz d a)
    /\ (forall k, (snd (sort.partition_loop less n d a b i j) < k < b)%nat ->
                  kz d a
                  <= kz (fst (sort.partition_loop less n d a b i j)) k).
Proof.
  induction n as [| n IH]; intros d a b i j Hai Hij Hjb Hb Hn Hlo Hhi.
  - simpl. split; [apply rearranged_refl | ].
    split; [lia | split].
    + intros k Hk. apply Hlo. lia.
    + intros k Hk. apply Hhi. lia.
  - cbn [sort.partition_loop].
    destruct (skipLess_spec b d a i j) as (Hi1 & Hlt1 & Hge1); try lia.
    set (i1 := sort.skipLess less b d a i j) in *.
    destruct (skipNotLess_spec b d a i1 j) as (Hj1 & Hj1' & Hge2 & Hlt2);
      try lia.
    set (j1 := sort.skipNotLess less b d a i1 j) in *.
    assert (Hlo1 : forall k, (a < k < i1)%nat -> kz d k < kz d a).
    { intros k Hk. destruct (le_lt_dec i k); [apply Hlt1 | apply Hlo]; lia. }
    assert (Hhi1 : forall k, (j1 < k < b)%nat -> kz d a <= kz d k).
    { intros k Hk. destruct (le_lt_dec k j); [apply Hge2 | apply Hhi]; lia. }
    destruct (j1 <? i1)%nat eqn:E.
    + apply Nat.ltb_lt in E. simpl.
      split; [apply rearranged_refl | ].
      split; [lia | split].
      * intros k Hk. apply Hlo1. lia.
      * exact Hhi1.
    + apply Nat.ltb_ge in E.
      specialize (Hge1 ltac:(lia)). specialize (Hlt2 E).
      assert (i1 < j1)%nat.
      { destruct (Nat.eq_dec i1 j1) as [Heq | ]; [ | lia].
        rewrite Heq in Hge1. lia. }
      destruct (IH (sort.Swap d i1 j1) a b (S i1) (j1 - 1)%nat)
        as (HR & Hmid & Hlo' & Hhi').
      * lia.
      * lia.
      * lia.
      * now rewrite Swap_length.
      * lia.
      * intros k Hk. rewrite !kz_Swap by lia.
        destruct (Nat.eqb_spec k j1); [lia | ].
        destruct (Nat.eqb_spec a j1); [lia | ].
        destruct (Nat.eqb_spec a i1); [lia | ].
        destruct (Nat.eqb_spec k i1); [subst; lia | apply Hlo1; lia].
      * intros k Hk. rewrite !kz_Swap by lia.
        destruct (Nat.eqb_spec a j1); [lia | ].
        destruct (Nat.eqb_spec a i1); [lia | ].
        destruct (Nat.eqb_spec k j1); [subst; lia | ].
        destruct (Nat.eqb_spec k i1); [lia | apply Hhi1; lia].
      * assert (Ea : kz (sort.Swap d i1 j1) a = kz d a).
        { rewrite kz_Swap by lia.
          destruct (Nat.eqb_spec a j1); [lia | ].
          destruct (Nat.eqb_spec a i1); [lia | reflexivity]. }
        rewrite Ea in Hlo', Hhi'.
        split; [ | split; [lia | split; assumption]].
        eapply rearranged_trans; [ | exact HR].
        apply rearranged_Swap; lia.
Qed.

(** [partition_func]: the pivot ends at the index returned, after the
    elements less than it and before the others. *)
Lemma partition_spec (d : list A) (a b pivot : nat) :
  (a <= pivot < b)%nat -> (b <= List.length d)%nat ->
  rearranged a b d (fst (fst (sort.partition less d a b pivot)))
  /\ (a <= snd (fst (sort.partition less d a b pivot)) < b)%nat
  /\ (forall k,
        (a <= k < snd (fst (sort.partition less d a b pivot)))%nat ->
        kz (fst (fst (sort.partition less d a b pivot))) k
        < kz (fst (fst (sort.partition less d a b pivot)))
            (snd (fst (sort.partition less d a b pivot))))
  /\ (forall k,
        (snd (fst (sort.partition less d a b pivot)) < k < b)%nat ->
        kz (fst (fst (sort.partition less d a b pivot)))
          (snd (fst (sort.partition less d a b pivot)))
        <= kz (fst (fst (sort.partition less d a b pivot))) k).
Proof.
  intros Hp Hb. unfold sort.partition.
  set (d1 := sort.Swap d a pivot).
  assert (HR1 : rearranged a b d d1) by (apply rearranged_Swap; lia).
  assert (L1 : List.length d1 = List.length d) by apply Swap_length.
  destruct (Nat.eq_dec (a + 1) b) as [Hone | Hmore].
  - (* a single element *)
    assert (Ei : sort.skipLess less b d1 a (a + 1) (b - 1) = (a + 1)%nat).
    { destruct b as [| b']; [lia | ]. cbn [sort.skipLess].
      replace (a + 1 <=? S b' - 1)%nat with false
        by (symmetry; apply Nat.leb_gt; lia). reflexivity. }
    rewrite Ei.
    assert (Ej : sort.skipNotLess less b d1 a (a + 1) (b - 1) = (b - 1)%nat).
    { destruct b as [| b']; [lia | ]. cbn [sort.skipNotLess].
      replace (a + 1 <=? S b' - 1)%nat with false
        by (symmetry; apply Nat.leb_gt; lia). reflexivity. }
    rewrite Ej.
    replace (b - 1 <? a + 1)%nat with true
      by (symmetry; apply Nat.ltb_lt; lia).
    cbn [fst snd].
    split; [ | split; [lia | split; intros k Hk; lia]].
    eapply rearranged_trans; [exact HR1 | ].
    apply rearranged_Swap; lia.
  - destruct (skipLess_spec b d1 a (a + 1) (b - 1)) as (Hi1 & Hlt1 & Hge1);
      try lia.
    set (i1 := sort.skipLess less b d1 a (a + 1) (b - 1)) in *.
    destruct (skipNotLess_spec b d1 a i1 (b - 1))
      as (Hj1 & Hj1' & Hge2 & Hlt2); try lia.
    set (j1 := sort.skipNotLess less b d1 a i1 (b - 1)) in *.
    destruct (j1 <? i1)%nat eqn:E.
    + apply Nat.ltb_lt in E. cbn [fst snd].
      assert (HR2 : rearranged a b d (sort.Swap d1 j1 a)).
      { eapply rearranged_trans; [exact HR1 | ].
        apply rearranged_Swap; lia. }
      split; [exact HR2 | split; [lia | split]].
      * intros k Hk. rewrite !kz_Swap by lia.
        rewrite Nat.eqb_refl.
        destruct (Nat.eqb_spec j1 a); [lia | ].
        destruct (Nat.eqb_spec k a).
        -- subst k. assert (a + 1 <= j1)%nat by lia.
           apply Hlt1. lia.
        -- destruct (Nat.eqb_spec k j1); [lia | apply Hlt1; lia].
      * intros k Hk. rewrite !kz_Swap by lia.
        destruct (Nat.eqb_spec j1 a) as [Heq | Hne].
        -- rewrite Heq. destruct (Nat.eqb_spec k a); [lia | ].
           apply Hge2. lia.
        -- rewrite Nat.eqb_refl.
           destruct (Nat.eqb_spec k a); [lia | ].
           destruct (Nat.eqb_spec k j1); [lia | apply Hge2; lia].
    + apply Nat.ltb_ge in E.
      specialize (Hge1 ltac:(lia)). specialize (Hlt2 E).
      assert (i1 < j1)%nat.
      { destruct (Nat.eq_dec i1 j1) as [Heq | ]; [ | lia].
        rewrite Heq in Hge1. lia. }
      set (d2 := sort.Swap d1 i1 j1).
      assert (Ea : kz d2 a = kz d1 a).
      { unfold d2. rewrite kz_Swap by lia.
        destruct (Nat.eqb_spec a j1); [lia | ].
        destruct (Nat.eqb_spec a i1); [lia | reflexivity]. }
      destruct (partition_loop_spec b d2 a b (S i1) (j1 - 1)%nat)
        as (HR & Hmid & Hlo' & Hhi').
      * lia.
      * lia.
      * lia.
      * unfold d2. rewrite Swap_length. lia.
      * lia.
      * intros k Hk. rewrite Ea. unfold d2. rewrite kz_Swap by lia.
        destruct (Nat.eqb_spec k j1); [lia | ].
        destruct (Nat.eqb_spec k i1); [subst; lia | apply Hlt1; lia].
      * intros k Hk. rewrite Ea. unfold d2. rewrite kz_Swap by lia.
        destruct (Nat.eqb_spec k j1); [subst; lia | ].
        destruct (Nat.eqb_spec k i1); [lia | apply Hge2; lia].
      * destruct (sort.partition_loop less b d2 a b (S i1) (j1 - 1))
          as [d3 j3] eqn:E3. cbn [fst snd] in *.
        assert (L3 : List.length d3 = List.length d).
        { rewrite (rearranged_length _ _ _ _ HR). unfold d2.
          rewrite Swap_length. exact L1. }
        assert (Ea3 : kz d3 a = kz d2 a)
          by (apply (rearranged_outside _ _ _ _ _ HR); lia).
        split; [ | split; [lia | split]].
        -- eapply rearranged_trans; [exact HR1 | ].
           eapply rearranged_trans;
             [apply (rearranged_Swap a b d1 i1 j1); lia | ].
           eapply rearranged_trans;
             [eapply rearranged_mono; [exact HR | lia | lia] | ].
           apply rearranged_Swap; lia.
        -- intros k Hk. rewrite !kz_Swap by lia.
           rewrite Nat.eqb_refl.
           destruct (Nat.eqb_spec j3 a); [lia | ].
           destruct (Nat.eqb_spec k a).
           ++ subst k. rewrite Ea3. apply Hlo'. lia.
           ++ destruct (Nat.eqb_spec k j3); [lia | ].
              rewrite Ea3. apply Hlo'. lia.
        -- intros k Hk. rewrite !kz_Swap by lia.
           destruct (Nat.eqb_spec j3 a) as [Heq | Hne].
           ++ rewrite Heq. destruct (Nat.eqb_spec k a); [lia | ].
              rewrite Ea3. apply Hhi'. lia.
           ++ rewrite Nat.eqb_refl.
              destruct (Nat.eqb_spec k a); [lia | ].
              destruct (Nat.eqb_spec k j3); [lia | ].
              rewrite Ea3. apply Hhi'. lia.
Qed.


Lemma skipNotGreater_spec (n : nat) :
  forall (d : list A) (a i j : nat),
    (j < List.length d)%nat -> (a < List.length d)%nat ->
    (i <= j + 1)%nat -> (j + 1 - i <= n)%nat ->
    (i <= sort.skipNotGreater less n d a i j <= j + 1)%nat
    /\ (forall k, (i <= k < sort.skipNotGreater less n d a i j)%nat ->
                  kz d k <= kz d a)
    /\ ((sort.skipNotGreater less n d a i j <= j)%nat ->
        kz d a < kz d (sort.skipNotGreater less n d a i j)).
Proof.
  induction n as [| n IH]; intros d a i j Hj Ha Hi Hn.
  - simpl. repeat split; try lia.
  - cbn [sort.skipNotGreater]. destruct (i <=? j)%nat eqn:E; cbn [andb].
    + apply Nat.leb_le in E. rewrite Less_kz by lia.
      destruct (kz d a <? kz d i) eqn:El; cbn [negb].
      * apply Z.ltb_lt in El. repeat split; try lia.
      * apply Z.ltb_ge in El.
        destruct (IH d a (S i) j Hj Ha ltac:(lia) ltac:(lia))
          as (Hr & Hle & Hgt).
        split; [lia | split; [ | exact Hgt]].
        intros k Hk. destruct (Nat.eq_dec k i) as [-> | Hne];
          [exact El | apply Hle; lia].
    + apply Nat.leb_gt in E. repeat split; try lia.
Qed.

Lemma skipGreater_spec (n : nat) :
  forall (d : list A) (a i j : nat),
    (j < List.length d)%nat -> (a < List.length d)%nat ->
    (1 <= i)%nat -> (i <= j + 1)%nat -> (j + 1 - i <= n)%nat ->
    (sort.skipGreater less n d a i j <= j)%nat
    /\ (i <= sort.skipGreater less n d a i j + 1)%nat
    /\ (forall k, (sort.skipGreater less n d a i j < k <= j)%nat ->
                  kz d a < kz d k)
    /\ ((i <= sort.skipGreater less n d a i j)%nat ->
        kz d (sort.skipGreater less n d a i j) <= kz d a).
Proof.
  induction n as [| n IH]; intros d a i j Hj Ha Hi1 Hi Hn.
  - simpl. repeat split; try lia.
  - cbn [sort.skipGreater]. destruct (i <=? j)%nat eqn:E; cbn [andb].
    + apply Nat.leb_le in E. rewrite Less_kz by lia.
      destruct (kz d a <? kz d j) eqn:El.
      * apply Z.ltb_lt in El.
        destruct (IH d a i (j - 1)%nat ltac:(lia) Ha Hi1 ltac:(lia)
                    ltac:(lia)) as (Hr & Hlo & Hgt & Hle).
        split; [lia | split; [lia | split; [ | exact Hle]]].
        intros k Hk. destruct (Nat.eq_dec k j) as [-> | Hne];
          [exact El | apply Hgt; lia].
      * apply Z.ltb_ge in El. repeat split; try lia.
    + apply Nat.leb_gt in E. repeat split; try lia.
Qed.

Lemma partitionEqual_loop_spec (n : nat) :
  forall (d : list A) (a b i j : nat),
    (a + 1 <= i)%nat -> (i <= j + 1)%nat -> (j < b)%nat ->
    (b <= List.length d)%nat -> (j + 1 - i <= n)%nat ->
    (forall k, (a < k < i)%nat -> kz d k <= kz d a) ->
    (forall k, (j < k < b)%nat -> kz d a < kz d k) ->
    rearranged (a + 1) b d (fst (sort.partitionEqual_loop less n d a b i j))
    /\ (a < snd (sort.partitionEqual_loop less n d a b i j) <= b)%nat
    /\ (forall k,
          (a < k < snd (sort.partitionEqual_loop less n d a b i j))%nat ->
          kz (fst (sort.partitionEqual_loop less n d a b i j)) k <= kz d a)
    /\ (forall k,
          (snd (sort.partitionEqual_loop less n d a b i j) <= k < b)%nat ->
          kz d a < kz (fst (sort.partitionEqual_loop less n d a b i j)) k).
Proof.
  induction n as [| n IH]; intros d a b i j Hai Hij Hjb Hb Hn Hlo Hhi.
  - simpl. split; [apply rearranged_refl | ].
    split; [lia | split].
    + intros k Hk. apply Hlo. lia.
    + intros k Hk. apply Hhi. lia.
  - cbn [sort.partitionEqual_loop].
    destruct (skipNotGreater_spec b d a i j) as (Hi1 & Hle1 & Hgt1); try lia.
    set (i1 := sort.skipNotGreater less b d a i j) in *.
    destruct (skipGreater_spec b d a i1 j) as (Hj1 & Hj1' & Hgt2 & Hle2);
      try lia.
    set (j1 := sort.skipGreater less b d a i1 j) in *.
    assert (Hlo1 : forall k, (a < k < i1)%nat -> kz d k <= kz d a).
    { intros k Hk. destruct (le_lt_dec i k); [apply Hle1 | apply Hlo]; lia. }
    assert (Hhi1 : forall k, (j1 < k < b)%nat -> kz d a < kz d k).
    { intros k Hk. destruct (le_lt_dec k j); [apply Hgt2 | apply Hhi]; lia. }
    destruct (j1 <? i1)%nat eqn:E.
    + apply Nat.ltb_lt in E. simpl.
      split; [apply rearranged_refl | ].
      split; [lia | split].
      * exact Hlo1.
      * intros k Hk. apply Hhi1. lia.
    + apply Nat.ltb_ge in E.
      specialize (Hgt1 ltac:(lia)). specialize (Hle2 E).
      assert (i1 < j1)%nat.
      { destruct (Nat.eq_dec i1 j1) as [Heq | ]; [ | lia].
        rewrite Heq in Hgt1. lia. }
      destruct (IH (sort.Swap d i1 j1) a b (S i1) (j1 - 1)%nat)
        as (HR & Hmid & Hlo' & Hhi').
      * lia.
      * lia.
      * lia.
      * now rewrite Swap_length.
      * lia.
      * intros k Hk. rewrite !kz_Swap by lia.
        destruct (Nat.eqb_spec k j1); [lia | ].
        destruct (Nat.eqb_spec a j1); [lia | ].
        destruct (Nat.eqb_spec a i1); [lia | ].
        destruct (Nat.eqb_spec k i1); [subst; lia | apply Hlo1; lia].
      * intros k Hk. rewrite !kz_Swap by lia.
        destruct (Nat.eqb_spec a j1); [lia | ].
        destruct (Nat.eqb_spec a i1); [lia | ].
        destruct (Nat.eqb_spec k j1); [subst; lia | ].
        destruct (Nat.eqb_spec k i1); [lia | apply Hhi1; lia].
      * assert (Ea : kz (sort.Swap d i1 j1) a = kz d a).
        { rewrite kz_Swap by lia.
          destruct (Nat.eqb_spec a j1); [lia | ].
          destruct (Nat.eqb_spec a i1); [lia | reflexivity]. }
        rewrite Ea in Hlo', Hhi'.
        split; [ | split; [lia | split; assumption]].
        eapply rearranged_trans; [ | exact HR].
        apply rearranged_Swap; lia.
Qed.

(** [partitionEqual_func]: the elements not greater than the pivot come
    first, up to the index returned. *)
Lemma partitionEqual_spec (d : list A) (a b pivot : nat) :
  (a <= pivot < b)%nat -> (b <= List.length d)%nat ->
  rearranged a b d (fst (sort.partitionEqual less d a b pivot))
  /\ (a < snd (sort.partitionEqual less d a b pivot) <= b)%nat
  /\ (forall k,
        (a <= k < snd (sort.partitionEqual less d a b pivot))%nat ->
        kz (fst (sort.partitionEqual less d a b pivot)) k <= kz d pivot)
  /\ (forall k,
        (snd (sort.partitionEqual less d a b pivot) <= k < b)%nat ->
        kz d pivot < kz (fst (sort.partitionEqual less d a b pivot)) k).
Proof.
  intros Hp Hb. unfold sort.partitionEqual.
  set (d1 := sort.Swap d a pivot).
  assert (HR1 : rearranged a b d d1) by (apply rearranged_Swap; lia).
  assert (L1 : List.length d1 = List.length d) by apply Swap_length.
  assert (Ea : kz d1 a = kz d pivot).
  { unfold d1. rewrite kz_Swap by lia.
    destruct (Nat.eqb_spec a pivot); [now subst | ].
    now rewrite Nat.eqb_refl. }
  destruct (partitionEqual_loop_spec b d1 a b (a + 1) (b - 1)%nat)
    as (HR & Hmid & Hlo & Hhi); try lia.
  destruct (sort.partitionEqual_loop less b d1 a b (a + 1) (b - 1))
    as [d2 mid] eqn:E2. cbn [fst snd] in *.
  rewrite Ea in Hlo, Hhi.
  split; [ | split; [lia | split]].
  - eapply rearranged_trans; [exact HR1 | ].
    eapply rearranged_mono; [exact HR | lia | lia].
  - intros k Hk. destruct (Nat.eq_dec k a) as [-> | Hne].
    + rewrite (rearranged_outside _ _ _ _ _ HR) by lia. lia.
    + apply Hlo. lia.
  - exact Hhi.
Qed.


(** *** Choosing the pivot *)

Lemma median_among (d : list A) (x y z s : nat) :
  fst (sort.median less d x y z s) = x
  \/ fst (sort.median less d x y z s) = y
  \/ fst (sort.median less d x y z s) = z.
Proof.
  unfold sort.median, sort.order2.
  destruct (sort.Less less d y x);
    repeat match goal with
           | |- context [if ?c then _ else _] => destruct c
           end; simpl; auto.
Qed.

Lemma choosePivot_range (d : list A) (a b : nat) :
  (8 <= b - a)%nat ->
  (a <= fst (sort.choosePivot less d a b) < b)%nat.
Proof.
  intro Hl. unfold sort.choosePivot.
  set (l := (b - a)%nat) in *.
  assert (Hq : (2 <= l / 4)%nat).
  { change 2%nat with (8 / 4)%nat. apply Nat.Div0.div_le_mono. exact Hl. }
  assert (Hq' : (4 * (l / 4) <= l)%nat)
    by (apply Nat.Div0.mul_div_le).
  apply Nat.leb_le in Hl. rewrite Hl.
  destruct (50 <=? l)%nat eqn:E50.
  - apply Nat.leb_le in E50.
    assert (Hq50 : (12 <= l / 4)%nat).
    { change 12%nat with (48 / 4)%nat. apply Nat.Div0.div_le_mono. lia. }
    unfold sort.medianAdjacent.
    pose proof (median_among d (a + l / 4 * 1 - 1) (a + l / 4 * 1)
                  (a + l / 4 * 1 + 1) 0) as H1.
    destruct (sort.median less d (a + l / 4 * 1 - 1) (a + l / 4 * 1)
                (a + l / 4 * 1 + 1) 0) as [i s1]. cbn [fst] in H1.
    pose proof (median_among d (a + l / 4 * 2 - 1) (a + l / 4 * 2)
                  (a + l / 4 * 2 + 1) s1) as H2.
    destruct (sort.median less d (a + l / 4 * 2 - 1) (a + l / 4 * 2)
                (a + l / 4 * 2 + 1) s1) as [j s2]. cbn [fst] in H2.
    pose proof (median_among d (a + l / 4 * 3 - 1) (a + l / 4 * 3)
                  (a + l / 4 * 3 + 1) s2) as H3.
    destruct (sort.median less d (a + l / 4 * 3 - 1) (a + l / 4 * 3)
                (a + l / 4 * 3 + 1) s2) as [k s3]. cbn [fst] in H3.
    pose proof (median_among d i j k s3) as H4.
    destruct (sort.median less d i j k s3) as [m s4]. cbn [fst] in H4.
    destruct (s4 =? 0)%nat; [ | destruct (s4 =? 12)%nat]; cbn [fst];
      unfold l in *; lia.
  - pose proof (median_among d (a + l / 4 * 1) (a + l / 4 * 2)
                  (a + l / 4 * 3) 0) as H4.
    destruct (sort.median less d (a + l / 4 * 1) (a + l / 4 * 2)
                (a + l / 4 * 3) 0) as [m s4]. cbn [fst] in H4.
    destruct (s4 =? 0)%nat; [ | destruct (s4 =? 12)%nat]; cbn [fst];
      unfold l in *; lia.
Qed.

(** *** Breaking patterns and reversing *)

Lemma bitsLen_bound (n : nat) :
  (0 < n)%nat -> (2 ^ sort.bitsLen n <= 2 * n)%nat.
Proof.
  intro Hn. unfold sort.bitsLen. destruct n as [| n]; [lia | ].
  rewrite Nat.pow_succ_r'.
  pose proof (Nat.log2_spec (S n) ltac:(lia)) as [H _]. lia.
Qed.

Lemma breakPatterns_other (random : Z) (length : nat) :
  (0 < length)%nat ->
  ((if (length <=? Z.to_nat (Z.land random (sort.nextPowerOfTwo length - 1)))%nat
    then Z.to_nat (Z.land random (sort.nextPowerOfTwo length - 1)) - length
    else Z.to_nat (Z.land random (sort.nextPowerOfTwo length - 1)))
   < length)%nat.
Proof.
  intro Hl. unfold sort.nextPowerOfTwo.
  set (n := Z.of_nat (sort.bitsLen length)).
  assert (Hn : 0 <= n) by (unfold n; lia).
  replace (2 ^ n - 1) with (Z.ones n) by (rewrite Z.ones_equiv; lia).
  rewrite Z.land_ones by assumption.
  pose proof (Z.mod_pos_bound random (2 ^ n) ltac:(apply Z.pow_pos_nonneg; lia))
    as Hm.
  assert (Hpow : 2 ^ n <= 2 * Z.of_nat length).
  { pose proof (bitsLen_bound length Hl) as Hb.
    unfold n. apply Nat2Z.inj_le in Hb.
    rewrite Nat2Z.inj_pow in Hb. rewrite Nat2Z.inj_mul in Hb.
    simpl Z.of_nat in Hb at 1. exact Hb. }
  destruct (length <=? Z.to_nat (random mod 2 ^ n))%nat eqn:E.
  - apply Nat.leb_le in E. lia.
  - apply Nat.leb_gt in E. lia.
Qed.

Lemma breakPatterns_loop_spec (n : nat) :
  forall (i : nat) (random : Z) (d : list A) (a b idx : nat),
    (a < b)%nat -> (b <= List.length d)%nat -> (1 <= idx)%nat ->
    (a + 1 <= idx + i)%nat -> (idx + i + n <= b + 1)%nat ->
    rearranged a b d
      (sort.breakPatterns_loop n i random (sort.nextPowerOfTwo (b - a))
         d a idx (b - a)).
Proof.
  induction n as [| n IH]; intros i random d a b idx Hab Hb Hidx Hlo Hhi.
  - apply rearranged_refl.
  - cbn [sort.breakPatterns_loop].
    pose proof (breakPatterns_other (sort.xorshift_Next random) (b - a)
                  ltac:(lia)) as Hother.
    set (other := if (b - a <=? _)%nat then _ else _) in *.
    eapply rearranged_trans;
      [ | apply IH; try lia; now rewrite Swap_length].
    apply rearranged_Swap; lia.
Qed.

Lemma breakPatterns_spec (d : list A) (a b : nat) :
  (a < b)%nat -> (b <= List.length d)%nat ->
  rearranged a b d (sort.breakPatterns d a b).
Proof.
  intros Hab Hb. unfold sort.breakPatterns.
  destruct (8 <=? b - a)%nat eqn:E; [ | apply rearranged_refl].
  apply Nat.leb_le in E.
  assert (Hq : (2 <= (b - a) / 4)%nat).
  { change 2%nat with (8 / 4)%nat. apply Nat.Div0.div_le_mono. exact E. }
  assert (Hq' : (4 * ((b - a) / 4) <= b - a)%nat)
    by (apply Nat.Div0.mul_div_le).
  apply breakPatterns_loop_spec; lia.
Qed.

Lemma reverseRange_loop_spec (n : nat) :
  forall (d : list A) (a b i j : nat),
    (a <= i)%nat -> (j < b)%nat -> (b <= List.length d)%nat ->
    rearranged a b d (sort.reverseRange_loop n d i j).
Proof.
  induction n as [| n IH]; intros d a b i j Hi Hj Hb.
  - apply rearranged_refl.
  - cbn [sort.reverseRange_loop]. destruct (i <? j)%nat eqn:E;
      [ | apply rearranged_refl].
    apply Nat.ltb_lt in E.
    eapply rearranged_trans;
      [apply (rearranged_Swap a b d i j); lia | ].
    apply IH; try lia. now rewrite Swap_length.
Qed.

Lemma reverseRange_spec (d : list A) (a b : nat) :
  (a < b)%nat -> (b <= List.length d)%nat ->
  rearranged a b d (sort.reverseRange d a b).
Proof.
  intros Hab Hb. unfold sort.reverseRange.
  apply reverseRange_loop_spec; lia.
Qed.


(** *** Partial insertion sort *)

Lemma lowerBounded_rearranged (d0 d : list A) (a b : nat) :
  rearranged a b d0 d -> lowerBounded key d0 a b -> lowerBounded key d a b.
Proof.
  intros HR HL Ha k Hk.
  rewrite (rearranged_outside _ _ _ _ _ HR) by lia.
  apply (rearranged_keys (fun v => kz d0 (a - 1) <= v) _ _ _ _ HR);
    [ | assumption].
  intros k' Hk'. now apply HL.
Qed.

Lemma lowerBounded_mono (d : list A) (a b b' : nat) :
  lowerBounded key d a b -> (b' <= b)%nat -> lowerBounded key d a b'.
Proof. intros HL Hb Ha k Hk. apply HL; lia. Qed.

Lemma sortedOn_step (d : list A) (a i : nat) :
  sortedOn key d a i -> (a < i)%nat -> kz d (i - 1) <= kz d i ->
  sortedOn key d a (S i).
Proof.
  intros Hs Ha Hstep p q Hpq Hq.
  destruct (Nat.eq_dec q i) as [-> | Hne]; [ | apply Hs; lia].
  destruct (Nat.eq_dec p i) as [-> | Hp]; [lia | ].
  assert (kz d p <= kz d (i - 1)) by (apply Hs; lia). lia.
Qed.

Lemma runUp_spec (n : nat) :
  forall (d : list A) (a i b : nat),
    (a < i <= b)%nat -> (b <= List.length d)%nat -> (b - i <= n)%nat ->
    sortedOn key d a i ->
    (i <= sort.runUp less n d i b <= b)%nat
    /\ sortedOn key d a (sort.runUp less n d i b)
    /\ ((sort.runUp less n d i b < b)%nat ->
        kz d (sort.runUp less n d i b)
        < kz d (sort.runUp less n d i b - 1)).
Proof.
  induction n as [| n IH]; intros d a i b Hi Hb Hn Hs.
  - simpl. repeat split; try lia. exact Hs.
  - cbn [sort.runUp]. destruct (i <? b)%nat eqn:E; cbn [andb].
    + apply Nat.ltb_lt in E. rewrite Less_kz by lia.
      destruct (kz d i <? kz d (i - 1)) eqn:El; cbn [negb].
      * apply Z.ltb_lt in El. repeat split; try lia. exact Hs.
      * apply Z.ltb_ge in El.
        destruct (IH d a (S i) b ltac:(lia) Hb ltac:(lia)) as (Hr & Hs' & Hlt).
        { apply sortedOn_step; [exact Hs | lia | exact El]. }
        split; [lia | split; assumption].
    + apply Nat.ltb_ge in E. repeat split; try lia. exact Hs.
Qed.

Lemma shiftLeft_inner (j : nat) :
  forall (d : list A) (a : nat),
    (a <= j)%nat -> (j < List.length d)%nat ->
    lowerBounded key d a (S j) ->
    sort.shiftLeft less d j = sort.insertionSort_inner less d a j.
Proof.
  induction j as [| j IH]; intros d a Ha Hj HL; [reflexivity | ].
  cbn [sort.shiftLeft sort.insertionSort_inner].
  destruct (a <? S j)%nat eqn:E; cbn [andb].
  - apply Nat.ltb_lt in E.
    destruct (sort.Less less d (S j) j); cbn [negb]; [ | reflexivity].
    apply IH; [lia | rewrite Swap_length; lia | ].
    eapply lowerBounded_mono;
      [eapply lowerBounded_rearranged; [ | exact HL] | lia].
    apply rearranged_Swap; lia.
  - apply Nat.ltb_ge in E. assert (a = S j) as -> by lia.
    rewrite Less_kz by lia.
    specialize (HL ltac:(lia) (S j) ltac:(lia)).
    replace (S j - 1)%nat with j in HL by lia.
    replace (kz d (S j) <? kz d j) with false
      by (symmetry; apply Z.ltb_ge; exact HL).
    reflexivity.
Qed.

Lemma shiftRight_spec (n : nat) :
  forall (d : list A) (lo b j : nat),
    (lo < j)%nat -> (j + n <= b)%nat -> (b <= List.length d)%nat ->
    rearranged lo b d (sort.shiftRight less n d j).
Proof.
  induction n as [| n IH]; intros d lo b j Hlo Hj Hb.
  - apply rearranged_refl.
  - cbn [sort.shiftRight].
    destruct (negb (sort.Less less d j (j - 1))); [apply rearranged_refl | ].
    eapply rearranged_trans;
      [apply (rearranged_Swap lo b d j (j - 1)); lia | ].
    apply IH; try lia. now rewrite Swap_length.
Qed.

Lemma partialInsertionSort_loop_spec (steps : nat) :
  forall (d : list A) (a b i : nat),
    (a < i <= b)%nat -> (b <= List.length d)%nat ->
    sortedOn key d a i -> lowerBounded key d a b ->
    rearranged a b d (fst (sort.partialInsertionSort_loop less steps d a b i))
    /\ (snd (sort.partialInsertionSort_loop less steps d a b i) = true ->
        sortedOn key
          (fst (sort.partialInsertionSort_loop less steps d a b i)) a b).
Proof.
  induction steps as [| steps IH]; intros d a b i Hi Hb Hs HL.
  - simpl. split; [apply rearranged_refl | discriminate].
  - cbn [sort.partialInsertionSort_loop].
    destruct (runUp_spec b d a i b Hi Hb ltac:(lia) Hs) as (Hr & Hs1 & Hlt).
    set (i1 := sort.runUp less b d i b) in *.
    destruct (i1 =? b)%nat eqn:E.
    + apply Nat.eqb_eq in E. cbn [fst snd].
      split; [apply rearranged_refl | ]. intros _. now rewrite <- E.
    + apply Nat.eqb_neq in E.
      destruct (b - a <? 50)%nat;
        [cbn [fst snd]; split; [apply rearranged_refl | discriminate] | ].
      set (d1 := sort.Swap d i1 (i1 - 1)).
      assert (HR1 : rearranged a b d d1)
        by (apply rearranged_Swap; lia).
      assert (L1 : List.length d1 = List.length d) by apply Swap_length.
      set (d2 := if (2 <=? i1 - a)%nat
                 then sort.shiftLeft less d1 (i1 - 1) else d1).
      assert (H2 : rearranged a i1 d1 d2 /\ sortedOn key d2 a i1).
      { unfold d2. destruct (2 <=? i1 - a)%nat eqn:E2.
        - apply Nat.leb_le in E2.
          assert (Esl : sort.shiftLeft less d1 (i1 - 1)
                        = sort.insertionSort_inner less d1 a (i1 - 1)).
          { apply shiftLeft_inner; [lia | lia | ].
            eapply lowerBounded_mono;
              [eapply lowerBounded_rearranged; [exact HR1 | exact HL]
              | lia]. }
          rewrite Esl.
          destruct (insertionSort_inner_spec (i1 - 1) d1 a (i1 - 1))
            as [HRi HSi].
          + lia.
          + lia.
          + intros p q Hpq Hq Hp Hq'. unfold d1.
            rewrite !kz_Swap by lia.
            destruct (Nat.eqb_spec p (i1 - 1)); [lia | ].
            destruct (Nat.eqb_spec q (i1 - 1)); [lia | ].
            destruct (Nat.eqb_spec p i1); [lia | ].
            destruct (Nat.eqb_spec q i1); [lia | ].
            apply Hs1; lia.
          + intros q Hq. lia.
          + replace (S (i1 - 1)) with i1 in * by lia. now split.
        - apply Nat.leb_gt in E2. split; [apply rearranged_refl | ].
          intros p q Hpq Hq. assert (p = q) as -> by lia. lia. }
      destruct H2 as [HR2 Hs2].
      assert (L2 : List.length d2 = List.length d)
        by (rewrite (rearranged_length _ _ _ _ HR2); exact L1).
      set (d3 := if (2 <=? b - i1)%nat
                 then sort.shiftRight less (b - (i1 + 1)) d2 (i1 + 1)
                 else d2).
      assert (HR3 : rearranged i1 b d2 d3).
      { unfold d3. destruct (2 <=? b - i1)%nat;
          [ | apply rearranged_refl].
        apply shiftRight_spec; lia. }
      assert (HR : rearranged a b d d3).
      { eapply rearranged_trans; [exact HR1 | ].
        eapply rearranged_trans;
          [eapply rearranged_mono; [exact HR2 | lia | lia] | ].
        eapply rearranged_mono; [exact HR3 | lia | lia]. }
      destruct (IH d3 a b i1) as [HR' Hs'].
      * lia.
      * rewrite (rearranged_length _ _ _ _ HR). exact Hb.
      * intros p q Hpq Hq.
        rewrite !(rearranged_outside _ _ _ _ _ HR3) by lia.
        apply Hs2; lia.
      * eapply lowerBounded_rearranged; [exact HR | exact HL].
      * split; [ | exact Hs'].
        eapply rearranged_trans; [exact HR | exact HR'].
Qed.

Lemma partialInsertionSort_spec (d : list A) (a b : nat) :
  (a < b)%nat -> (b <= List.length d)%nat -> lowerBounded key d a b ->
  rearranged a b d (fst (sort.partialInsertionSort less d a b))
  /\ (snd (sort.partialInsertionSort less d a b) = true ->
      sortedOn key (fst (sort.partialInsertionSort less d a b)) a b).
Proof.
  intros Hab Hb HL. unfold sort.partialInsertionSort.
  apply partialInsertionSort_loop_spec; try lia; [ | exact HL].
  intros p q Hpq Hq. assert (p = q) as -> by lia. lia.
Qed.


(** *** Heap sort *)

Lemma siftDown_loop_spec (n : nat) :
  forall (d : list A) (root lo hi first : nat),
    (lo <= root)%nat -> (hi - root <= n)%nat ->
    (first + hi <= List.length d)%nat ->
    (forall p c, (lo <= p)%nat -> (c < hi)%nat -> p <> root ->
                 (c = 2 * p + 1 \/ c = 2 * p + 2)%nat ->
                 kz d (first + c) <= kz d (first + p)) ->
    (forall p c, (lo <= p)%nat -> (c < hi)%nat ->
                 (root = 2 * p + 1 \/ root = 2 * p + 2)%nat ->
                 (c = 2 * root + 1 \/ c = 2 * root + 2)%nat ->
                 kz d (first + c) <= kz d (first + p)) ->
    rearranged (first + root) (first + hi) d
      (sort.siftDown_loop less n d root hi first)
    /\ heapOn key (sort.siftDown_loop less n d root hi first) first lo hi.
Proof.
  induction n as [| n IH]; intros d root lo hi first Hlo Hn Hlen Hheap Hgp.
  - simpl. split; [apply rearranged_refl | ].
    intros r c Hr Hc Hrc. apply Hheap; try assumption. lia.
  - cbn [sort.siftDown_loop].
    destruct (hi <=? 2 * root + 1)%nat eqn:E.
    + apply Nat.leb_le in E. split; [apply rearranged_refl | ].
      intros r c Hr Hc Hrc. apply Hheap; try assumption. lia.
    + apply Nat.leb_gt in E.
      set (child := if (2 * root + 1 + 1 <? hi)%nat
                       && sort.Less less d (first + (2 * root + 1))
                            (first + (2 * root + 1) + 1)
                    then (2 * root + 1 + 1)%nat else (2 * root + 1)%nat).
      assert (Hchild : (child = 2 * root + 1 \/ child = 2 * root + 2)%nat
                       /\ (child < hi)%nat
                       /\ (forall c, (c < hi)%nat ->
                                     (c = 2 * root + 1 \/ c = 2 * root + 2)%nat ->
                                     kz d (first + c) <= kz d (first + child))).
      { unfold child.
        destruct (2 * root + 1 + 1 <? hi)%nat eqn:E2; cbn [andb].
        - apply Nat.ltb_lt in E2. rewrite Less_kz by lia.
          destruct (kz d (first + (2 * root + 1))
                    <? kz d (first + (2 * root + 1) + 1)) eqn:El.
          + apply Z.ltb_lt in El. split; [lia | split; [lia | ]].
            intros c Hc [-> | ->].
            * replace (first + (2 * root + 1 + 1))%nat
                with (first + (2 * root + 1) + 1)%nat by lia. lia.
            * replace (first + (2 * root + 2))%nat
                with (first + (2 * root + 1 + 1))%nat by lia. lia.
          + apply Z.ltb_ge in El. split; [lia | split; [lia | ]].
            intros c Hc [-> | ->]; [lia | ].
            replace (first + (2 * root + 2))%nat
              with (first + (2 * root + 1) + 1)%nat by lia. exact El.
        - apply Nat.ltb_ge in E2. split; [lia | split; [lia | ]].
          intros c Hc [-> | ->]; lia. }
      destruct Hchild as (Hc1 & Hc2 & Hmax).
      rewrite Less_kz by lia.
      destruct (kz d (first + root) <? kz d (first + child)) eqn:El;
        cbn [negb].
      * apply Z.ltb_lt in El.
        destruct (IH (sort.Swap d (first + root) (first + child))
                    child lo hi first) as [HR HH].
        -- lia.
        -- lia.
        -- now rewrite Swap_length.
        -- intros p c Hp Hc Hpc Hch. rewrite !kz_Swap by lia.
           destruct (Nat.eqb_spec (first + p) (first + child)); [lia | ].
           destruct (Nat.eqb_spec (first + c) (first + child)) as [Ec | Ec].
           ++ assert (c = child) by lia. subst c.
              assert (p = root) by lia. subst p.
              rewrite Nat.eqb_refl. lia.
           ++ destruct (Nat.eqb_spec (first + c) (first + root)) as [Er | Er].
              ** assert (c = root) by lia. subst c.
                 destruct (Nat.eqb_spec (first + p) (first + root)); [lia | ].
                 apply (Hgp p child); try assumption; lia.
              ** destruct (Nat.eqb_spec (first + p) (first + root)) as [Ep | Ep].
                 --- assert (p = root) by lia. subst p.
                     apply Hmax; assumption.
                 --- apply Hheap; try assumption. lia.
        -- intros p c Hp Hc Hpc Hch. rewrite !kz_Swap by lia.
           assert (p = root) by lia. subst p.
           destruct (Nat.eqb_spec (first + root) (first + child)); [lia | ].
           rewrite Nat.eqb_refl.
           destruct (Nat.eqb_spec (first + c) (first + child)); [lia | ].
           destruct (Nat.eqb_spec (first + c) (first + root)); [lia | ].
           apply Hheap; try assumption; lia.
        -- split; [ | exact HH].
           eapply rearranged_trans;
             [apply (rearranged_Swap (first + root) (first + hi) d
                       (first + root) (first + child)); lia | ].
           eapply rearranged_mono; [exact HR | lia | lia].
      * apply Z.ltb_ge in El. split; [apply rearranged_refl | ].
        intros r c Hr Hc Hrc.
        destruct (Nat.eq_dec r root) as [-> | Hne].
        -- specialize (Hmax c Hc Hrc). lia.
        -- apply Hheap; assumption.
Qed.

Lemma siftDown_spec (d : list A) (lo hi first : nat) :
  (first + hi <= List.length d)%nat ->
  heapOn key d first (S lo) hi ->
  rearranged (first + lo) (first + hi) d (sort.siftDown less d lo hi first)
  /\ heapOn key (sort.siftDown less d lo hi first) first lo hi.
Proof.
  intros Hlen Hheap. unfold sort.siftDown.
  apply siftDown_loop_spec; try lia.
  intros p c Hp Hc Hne Hpc. apply Hheap; try assumption. lia.
Qed.

Lemma heapSort_build_spec (i : nat) :
  forall (d : list A) (hi first : nat),
    (first + hi <= List.length d)%nat ->
    heapOn key d first (S i) hi ->
    rearranged first (first + hi) d (sort.heapSort_build less i d hi first)
    /\ heapOn key (sort.heapSort_build less i d hi first) first 0 hi.
Proof.
  induction i as [| i IH]; intros d hi first Hlen Hheap.
  - cbn [sort.heapSort_build].
    destruct (siftDown_spec d 0 hi first Hlen Hheap) as [HR HH].
    split; [ | exact HH].
    eapply rearranged_mono; [exact HR | lia | lia].
  - cbn [sort.heapSort_build].
    destruct (siftDown_spec d (S i) hi first Hlen Hheap) as [HR HH].
    destruct (IH (sort.siftDown less d (S i) hi first) hi first) as [HR' HH'].
    + now rewrite (rearranged_length _ _ _ _ HR).
    + exact HH.
    + split; [ | exact HH'].
      eapply rearranged_trans; [ | exact HR'].
      eapply rearranged_mono; [exact HR | lia | lia].
Qed.

(** The root of a heap is its largest element. *)
Lemma heap_root_max (d : list A) (first hi : nat) :
  heapOn key d first 0 hi ->
  forall k, (k < hi)%nat -> kz d (first + k) <= kz d (first + 0).
Proof.
  intros Hheap k. induction k as [k IH] using lt_wf_ind. intro Hk.
  destruct k as [| k]; [lia | ].
  pose proof (Nat.div_mod_eq k 2) as Hdm.
  pose proof (Nat.mod_upper_bound k 2 ltac:(lia)) as Hm.
  assert (Hp : kz d (first + S k) <= kz d (first + k / 2)).
  { apply Hheap; lia. }
  assert (kz d (first + k / 2) <= kz d (first + 0)) by (apply IH; lia).
  lia.
Qed.

Lemma heapSort_pop_spec (i : nat) :
  forall (d : list A) (hi first : nat),
    (first + hi <= List.length d)%nat -> (i < hi)%nat ->
    heapOn key d first 0 (S i) ->
    sortedOn key d (first + S i) (first + hi) ->
    (forall k m, (k <= i)%nat -> (i < m < hi)%nat ->
                 kz d (first + k) <= kz d (first + m)) ->
    rearranged first (first + hi) d (sort.heapSort_pop less i d first)
    /\ sortedOn key (sort.heapSort_pop less i d first) first (first + hi).
Proof.
  induction i as [| i IH]; intros d hi first Hlen Hi Hheap Hsorted Htail.
  - cbn [sort.heapSort_pop]. unfold sort.siftDown.
    cbn [sort.siftDown_loop].
    assert (HR : rearranged first (first + hi) d
                   (sort.Swap d first (first + 0)))
      by (apply rearranged_Swap; lia).
    split; [exact HR | ].
    assert (Ek : forall k, kz (sort.Swap d first (first + 0)) k = kz d k).
    { intro k. rewrite kz_Swap by lia. rewrite Nat.add_0_r.
      destruct (Nat.eqb_spec k first); [now subst | reflexivity]. }
    intros p q Hpq Hq. rewrite !Ek.
    destruct (Nat.eq_dec p first) as [-> | Hp].
    + destruct (Nat.eq_dec q first) as [-> | Hq']; [lia | ].
      specialize (Htail 0%nat (q - first)%nat ltac:(lia) ltac:(lia)).
      rewrite Nat.add_0_r in Htail.
      replace (first + (q - first))%nat with q in Htail by lia. exact Htail.
    + apply Hsorted; lia.
  - cbn [sort.heapSort_pop].
    set (d1 := sort.Swap d first (first + S i)).
    assert (HR1 : rearranged first (first + hi) d d1)
      by (apply rearranged_Swap; lia).
    assert (L1 : List.length d1 = List.length d) by apply Swap_length.
    assert (K1 : forall k, kz d1 k
                           = if (k =? first + S i)%nat then kz d first
                             else if (k =? first)%nat then kz d (first + S i)
                             else kz d k).
    { intro k. unfold d1. now rewrite kz_Swap by lia. }
    destruct (siftDown_spec d1 0 (S i) first) as [HR2 HH2].
    + lia.
    + intros r c Hr Hc Hrc. rewrite !K1.
      destruct (Nat.eqb_spec (first + c) (first + S i)); [lia | ].
      destruct (Nat.eqb_spec (first + r) (first + S i)); [lia | ].
      destruct (Nat.eqb_spec (first + c) first); [lia | ].
      destruct (Nat.eqb_spec (first + r) first); [lia | ].
      apply Hheap; lia.
    + set (d2 := sort.siftDown less d1 0 (S i) first) in *.
      rewrite Nat.add_0_r in HR2.
      pose proof (heap_root_max d first (S (S i)) Hheap) as Hmax.
      assert (Hold : forall k, (first <= k < first + S i)%nat ->
                               kz d1 k <= kz d first
                               /\ (forall m, (S i < m < hi)%nat ->
                                              kz d1 k <= kz d (first + m))).
      { intros k Hk. rewrite K1.
        destruct (Nat.eqb_spec k (first + S i)); [lia | ].
        destruct (Nat.eqb_spec k first).
        - split.
          + specialize (Hmax (S i) ltac:(lia)).
            now rewrite Nat.add_0_r in Hmax.
          + intros m Hm. apply Htail; lia.
        - split.
          + specialize (Hmax (k - first)%nat ltac:(lia)).
            rewrite Nat.add_0_r in Hmax.
            now replace (first + (k - first))%nat with k in Hmax by lia.
          + intros m Hm.
            specialize (Htail (k - first)%nat m ltac:(lia) ltac:(lia)).
            now replace (first + (k - first))%nat with k in Htail by lia. }
      pose proof (rearranged_keys
                    (fun v => v <= kz d first
                              /\ (forall m, (S i < m < hi)%nat ->
                                             v <= kz d (first + m)))
                    _ _ _ _ HR2 Hold) as Hnew.
      assert (K2 : forall k, (first + S i <= k)%nat -> kz d2 k = kz d1 k).
      { intros k Hk. apply (rearranged_outside _ _ _ _ _ HR2). lia. }
      destruct (IH d2 hi first) as [HR3 HS3].
      * rewrite (rearranged_length _ _ _ _ HR2), L1. exact Hlen.
      * lia.
      * exact HH2.
      * intros p q Hpq Hq. rewrite !K2 by lia. rewrite !K1.
        destruct (Nat.eqb_spec q first); [lia | ].
        destruct (Nat.eqb_spec p first); [lia | ].
        destruct (Nat.eqb_spec p (first + S i)) as [Ep | Ep].
        -- destruct (Nat.eqb_spec q (first + S i)) as [Eq | Eq]; [lia | ].
           specialize (Htail 0%nat (q - first)%nat ltac:(lia) ltac:(lia)).
           rewrite Nat.add_0_r in Htail.
           now replace (first + (q - first))%nat with q in Htail by lia.
        -- destruct (Nat.eqb_spec q (first + S i)); [lia | ].
           apply Hsorted; lia.
      * intros k m Hk Hm.
        destruct (Hnew (first + k)%nat ltac:(lia)) as [Hroot Hrest].
        rewrite (K2 (first + m)%nat) by lia. rewrite K1.
        destruct (Nat.eqb_spec (first + m) (first + S i)) as [Em | Em].
        -- exact Hroot.
        -- destruct (Nat.eqb_spec (first + m) first); [lia | ].
           apply Hrest. lia.
      * split; [ | exact HS3].
        eapply rearranged_trans; [exact HR1 | ].
        eapply rearranged_trans; [ | exact HR3].
        eapply rearranged_mono; [exact HR2 | lia | lia].
Qed.

Lemma heapSort_spec (d : list A) (a b : nat) :
  (a <= b)%nat -> (b <= List.length d)%nat ->
  rearranged a b d (sort.heapSort less d a b)
  /\ sortedOn key (sort.heapSort less d a b) a b.
Proof.
  intros Hab Hb. unfold sort.heapSort.
  destruct (heapSort_build_spec ((b - a - 1) / 2) d (b - a) a) as [HR HH].
  - lia.
  - intros r c Hr Hc Hrc.
    pose proof (Nat.div_mod_eq (b - a - 1) 2) as Hdm.
    pose proof (Nat.mod_upper_bound (b - a - 1) 2 ltac:(lia)) as Hm.
    lia.
  - set (d1 := sort.heapSort_build less ((b - a - 1) / 2) d (b - a) a) in *.
    replace (a + (b - a))%nat with b in HR by lia.
    destruct (b - a)%nat as [| i] eqn:E.
    + split; [exact HR | ]. intros p q Hpq Hq. lia.
    + destruct (heapSort_pop_spec i d1 (S i) a) as [HR' HS'].
      * rewrite (rearranged_length _ _ _ _ HR). lia.
      * lia.
      * exact HH.
      * intros p q Hpq Hq. lia.
      * intros k m Hk Hm. lia.
      * replace (a + S i)%nat with b in * by lia.
        split; [ | exact HS'].
        eapply rearranged_trans; [exact HR | exact HR'].
Qed.


(** *** pdqsort *)

(** Two sorted runs around a pivot make one sorted run. *)
Lemma sortedOn_join (d : list A) (a mid b : nat) (v : Z) :
  (a <= mid < b)%nat ->
  kz d mid = v ->
  (forall k, (a <= k < mid)%nat -> kz d k <= v) ->
  (forall k, (mid < k < b)%nat -> v <= kz d k) ->
  sortedOn key d a mid -> sortedOn key d (mid + 1) b ->
  sortedOn key d a b.
Proof.
  intros Hmid Hv Hlo Hhi Hl Hr p q Hpq Hq.
  destruct (lt_eq_lt_dec q mid) as [[Hq1 | Hq1] | Hq1].
  - apply Hl; lia.
  - subst q. destruct (Nat.eq_dec p mid) as [-> | Hp]; [lia | ].
    rewrite Hv. apply Hlo. lia.
  - destruct (lt_eq_lt_dec p mid) as [[Hp1 | Hp1] | Hp1].
    + specialize (Hlo p ltac:(lia)). specialize (Hhi q ltac:(lia)). lia.
    + subst p. rewrite Hv. apply Hhi. lia.
    + apply Hr; lia.
Qed.

Lemma pdqsort_spec (n : nat) :
  forall (d : list A) (a b limit : nat) (wasBalanced wasPartitioned : bool),
    (a <= b)%nat -> (b <= List.length d)%nat -> (b - a < n)%nat ->
    lowerBounded key d a b ->
    rearranged a b d
      (sort.pdqsort less n d a b limit wasBalanced wasPartitioned)
    /\ sortedOn key
         (sort.pdqsort less n d a b limit wasBalanced wasPartitioned) a b.
Proof.
  induction n as [| n IH];
    intros d a b limit wB wP Hab Hb Hn HL; [lia | ].
  cbn [sort.pdqsort].
  destruct (b - a <=? 12)%nat eqn:E12;
    [now apply insertionSort_spec | ].
  apply Nat.leb_gt in E12.
  destruct (limit =? 0)%nat; [now apply heapSort_spec | ].
  (* breakPatterns *)
  set (dl := if negb wB then (sort.breakPatterns d a b, (limit - 1)%nat)
             else (d, limit)).
  assert (HR1 : rearranged a b d (fst dl)).
  { unfold dl. destruct (negb wB); cbn [fst];
      [apply breakPatterns_spec; lia | apply rearranged_refl]. }
  destruct dl as [d1 limit1]. cbn [fst] in HR1.
  assert (L1 : List.length d1 = List.length d)
    by (apply (rearranged_length _ _ _ _ HR1)).
  (* choosePivot *)
  pose proof (choosePivot_range d1 a b ltac:(lia)) as Hpivot.
  destruct (sort.choosePivot less d1 a b) as [pivot hint].
  cbn [fst] in Hpivot.
  set (dph := if sort.isDecreasing hint
              then (sort.reverseRange d1 a b, (b - 1 - (pivot - a))%nat,
                    sort.increasingHint)
              else (d1, pivot, hint)).
  assert (HR2 : rearranged a b d1 (fst (fst dph))
                /\ (a <= snd (fst dph) < b)%nat).
  { unfold dph. destruct (sort.isDecreasing hint); cbn [fst snd].
    - split; [apply reverseRange_spec; lia | lia].
    - split; [apply rearranged_refl | lia]. }
  destruct dph as [[d2 pivot2] hint2]. cbn [fst snd] in HR2.
  destruct HR2 as [HR2 Hpivot2].
  assert (HR12 : rearranged a b d d2)
    by (eapply rearranged_trans; eassumption).
  assert (L2 : List.length d2 = List.length d)
    by (apply (rearranged_length _ _ _ _ HR12)).
  (* partialInsertionSort *)
  set (ds := if wB && wP && sort.isIncreasing hint2
             then sort.partialInsertionSort less d2 a b else (d2, false)).
  assert (HR3 : rearranged a b d2 (fst ds)
                /\ (snd ds = true -> sortedOn key (fst ds) a b)).
  { unfold ds. destruct (wB && wP && sort.isIncreasing hint2).
    - apply partialInsertionSort_spec; try lia.
      eapply lowerBounded_rearranged; eassumption.
    - cbn [fst snd]. split; [apply rearranged_refl | discriminate]. }
  destruct ds as [d3 sorted]. cbn [fst snd] in HR3.
  destruct HR3 as [HR3 Hsorted].
  assert (HR13 : rearranged a b d d3)
    by (eapply rearranged_trans; eassumption).
  assert (L3 : List.length d3 = List.length d)
    by (apply (rearranged_length _ _ _ _ HR13)).
  assert (HL3 : lowerBounded key d3 a b)
    by (eapply lowerBounded_rearranged; eassumption).
  destruct sorted; [split; [exact HR13 | now apply Hsorted] | ].
  clear Hsorted.
  destruct ((0 <? a)%nat && negb (sort.Less less d3 (a - 1) pivot2)) eqn:Eeq.
  - (* many elements equal to the pivot *)
    apply andb_true_iff in Eeq as [Ea Eless].
    apply Nat.ltb_lt in Ea. apply negb_true_iff in Eless.
    rewrite Less_kz in Eless by lia. apply Z.ltb_ge in Eless.
    pose proof (HL3 Ea pivot2 Hpivot2) as Hpl.
    destruct (partitionEqual_spec d3 a b pivot2 Hpivot2 ltac:(lia))
      as (HR4 & Hmid & Hle & Hgt).
    destruct (sort.partitionEqual less d3 a b pivot2) as [d4 mid].
    cbn [fst snd] in *.
    assert (L4 : List.length d4 = List.length d)
      by (rewrite (rearranged_length _ _ _ _ HR4); exact L3).
    assert (HL4 : lowerBounded key d4 a b)
      by (eapply lowerBounded_rearranged; eassumption).
    assert (K4 : kz d4 (a - 1) = kz d3 (a - 1))
      by (apply (rearranged_outside _ _ _ _ _ HR4); lia).
    destruct (IH d4 mid b limit1 wB wP) as [HR5 HS5]; try lia.
    { intros _ k Hk. specialize (Hle (mid - 1)%nat ltac:(lia)).
      specialize (Hgt k ltac:(lia)). lia. }
    set (d5 := sort.pdqsort less n d4 mid b limit1 wB wP) in *.
    split.
    + eapply rearranged_trans; [exact HR13 | ].
      eapply rearranged_trans; [exact HR4 | ].
      eapply rearranged_mono; [exact HR5 | lia | lia].
    + intros p q Hpq Hq.
      assert (Hout : forall k, (k < mid)%nat -> kz d5 k = kz d4 k)
        by (intros k Hk; apply (rearranged_outside _ _ _ _ _ HR5); lia).
      assert (Hin : forall k, (mid <= k < b)%nat -> kz d3 pivot2 < kz d5 k).
      { apply (rearranged_keys (fun v => kz d3 pivot2 < v) _ _ _ _ HR5).
        exact Hgt. }
      destruct (le_lt_dec mid p) as [Hp | Hp]; [apply HS5; lia | ].
      rewrite (Hout p Hp).
      specialize (Hle p ltac:(lia)).
      destruct (le_lt_dec mid q) as [Hq' | Hq'].
      * specialize (Hin q ltac:(lia)). lia.
      * rewrite (Hout q Hq').
        specialize (HL4 Ea q ltac:(lia)). lia.
  - (* partition around the pivot *)
    clear Eeq.
    destruct (partition_spec d3 a b pivot2 Hpivot2 ltac:(lia))
      as (HR4 & Hmid & Hlt & Hge).
    destruct (sort.partition less d3 a b pivot2) as [[d4 mid] aP].
    cbn [fst snd] in *.
    assert (HR14 : rearranged a b d d4)
      by (eapply rearranged_trans; eassumption).
    assert (L4 : List.length d4 = List.length d)
      by (apply (rearranged_length _ _ _ _ HR14)).
    assert (HL4 : lowerBounded key d4 a b)
      by (eapply lowerBounded_rearranged; eassumption).
    destruct (mid - a <? b - mid)%nat.
    + (* the left part first *)
      destruct (IH d4 a mid limit1 true true) as [HR5 HS5]; try lia.
      { eapply lowerBounded_mono; [exact HL4 | lia]. }
      set (d5 := sort.pdqsort less n d4 a mid limit1 true true) in *.
      assert (L5 : List.length d5 = List.length d)
        by (rewrite (rearranged_length _ _ _ _ HR5); exact L4).
      assert (O5 : forall k, (mid <= k)%nat -> kz d5 k = kz d4 k)
        by (intros k Hk; apply (rearranged_outside _ _ _ _ _ HR5); lia).
      assert (I5 : forall k, (a <= k < mid)%nat -> kz d5 k < kz d4 mid).
      { apply (rearranged_keys (fun v => v < kz d4 mid) _ _ _ _ HR5).
        exact Hlt. }
      destruct (IH d5 (mid + 1)%nat b limit1
                  ((b - a) / 8 <=? mid - a)%nat aP) as [HR6 HS6]; try lia.
      { intros _ k Hk. replace (mid + 1 - 1)%nat with mid by lia.
        rewrite !O5 by lia. apply Hge. lia. }
      set (d6 := sort.pdqsort less n d5 (mid + 1) b limit1
                   ((b - a) / 8 <=? mid - a)%nat aP) in *.
      assert (O6 : forall k, (k <= mid)%nat -> kz d6 k = kz d5 k)
        by (intros k Hk; apply (rearranged_outside _ _ _ _ _ HR6); lia).
      assert (I6 : forall k, (mid + 1 <= k < b)%nat -> kz d4 mid <= kz d6 k).
      { apply (rearranged_keys (fun v => kz d4 mid <= v) _ _ _ _ HR6).
        intros k Hk. rewrite O5 by lia. apply Hge. lia. }
      split.
      * eapply rearranged_trans; [exact HR14 | ].
        eapply rearranged_trans;
          [eapply rearranged_mono; [exact HR5 | lia | lia] | ].
        eapply rearranged_mono; [exact HR6 | lia | lia].
      * apply (sortedOn_join d6 a mid b (kz d4 mid)); try lia.
        -- rewrite O6, O5 by lia. reflexivity.
        -- intros k Hk. rewrite O6 by lia.
           specialize (I5 k Hk). lia.
        -- intros k Hk. apply I6. lia.
        -- intros p q Hpq Hq. rewrite !O6 by lia. apply HS5; lia.
        -- exact HS6.
    + (* the right part first *)
      destruct (IH d4 (mid + 1)%nat b limit1 true true) as [HR5 HS5];
        try lia.
      { intros _ k Hk. replace (mid + 1 - 1)%nat with mid by lia.
        apply Hge. lia. }
      set (d5 := sort.pdqsort less n d4 (mid + 1) b limit1 true true) in *.
      assert (L5 : List.length d5 = List.length d)
        by (rewrite (rearranged_length _ _ _ _ HR5); exact L4).
      assert (O5 : forall k, (k <= mid)%nat -> kz d5 k = kz d4 k)
        by (intros k Hk; apply (rearranged_outside _ _ _ _ _ HR5); lia).
      assert (I5 : forall k, (mid + 1 <= k < b)%nat ->
                             kz d4 mid <= kz d5 k).
      { apply (rearranged_keys (fun v => kz d4 mid <= v) _ _ _ _ HR5).
        intros k Hk. apply Hge. lia. }
      destruct (IH d5 a mid limit1
                  ((b - a) / 8 <=? b - mid)%nat aP) as [HR6 HS6]; try lia.
      { intros Ha k Hk. rewrite !O5 by lia. apply HL4; lia. }
      set (d6 := sort.pdqsort less n d5 a mid limit1
                   ((b - a) / 8 <=? b - mid)%nat aP) in *.
      assert (O6 : forall k, (mid <= k)%nat -> kz d6 k = kz d5 k)
        by (intros k Hk; apply (rearranged_outside _ _ _ _ _ HR6); lia).
      assert (I6 : forall k, (a <= k < mid)%nat -> kz d6 k < kz d4 mid).
      { apply (rearranged_keys (fun v => v < kz d4 mid) _ _ _ _ HR6).
        intros k Hk. rewrite O5 by lia. apply Hlt. lia. }
      split.
      * eapply rearranged_trans; [exact HR14 | ].
        eapply rearranged_trans;
          [eapply rearranged_mono; [exact HR5 | lia | lia] | ].
        eapply rearranged_mono; [exact HR6 | lia | lia].
      * apply (sortedOn_join d6 a mid b (kz d4 mid)); try lia.
        -- rewrite O6, O5 by lia. reflexivity.
        -- intros k Hk. specialize (I6 k Hk). lia.
        -- intros k Hk. rewrite O6 by lia. apply I5. lia.
        -- exact HS6.
        -- intros p q Hpq Hq. rewrite !O6 by lia. apply HS5; lia.
Qed.

(** [sort.Slice] rearranges the slice into ascending order of the keys. *)
Lemma Slice_spec (x : list A) :
  Permutation x (sort.Slice less x)
  /\ sortedOn key (sort.Slice less x) 0 (List.length x).
Proof.
  unfold sort.Slice.
  destruct (pdqsort_spec (S (List.length x)) x 0 (List.length x)
              (sort.bitsLen (List.length x)) true true) as [HR HS];
    try lia.
  - intro H. lia.
  - split; [apply HR | exact HS].
Qed.

End PdqsortFacts.

(** ** loadCsv: collecting and sorting *)

Lemma lessStart_false (a b : IpAddressRange) :
  lessStart b a = false <-> start a <= start b.
Proof.
  unfold lessStart. rewrite Cmp_lt0, Z.ltb_ge. reflexivity.
Qed.

Lemma adjacent_sortedByStart (arr : list IpAddressRange) :
  (forall i a b,
     nth_error arr i = Some a -> nth_error arr (S i) = Some b ->
     lessStart b a = false) ->
  sortedByStart arr = true.
Proof.
  induction arr as [| x [| y t] IH]; intro H; try reflexivity.
  cbn [sortedByStart]. apply andb_true_iff. split.
  - apply Z.leb_le, lessStart_false. apply (H 0%nat); reflexivity.
  - apply IH. intros i a b Ha Hb. apply (H (S i)); assumption.
Qed.

(** A file of three-field rows adds the ranges of its rows, in order,
    and reading it does not panic. *)
Lemma readRecords_three_fields (rows : list csv.Row) :
  forallb threeFields rows = true ->
  forall fpr arr,
    (fpr = 0 \/ fpr = 3)%nat ->
    readRecords rows fpr arr = Val (arr ++ flat_map rangeOfRow rows).
Proof.
  induction rows as [| row rows IH]; intros Hall fpr arr Hfpr.
  - simpl. now rewrite app_nil_r.
  - cbn [forallb] in Hall. apply andb_true_iff in Hall as [Hrow Hrows].
    destruct row as [[| f0 [| f1 [| f2 [| f3 t]]]] |]; try discriminate.
    rewrite (readRecords_three f0 f1 f2 rows fpr arr Hfpr).
    cbn [flat_map rangeOfRow].
    destruct (big.SetString f0) as [st|];
      [destruct (big.SetString f1) as [en|] | ];
      rewrite (IH Hrows 3%nat _ (or_intror eq_refl));
      [now rewrite <- app_assoc | reflexivity | reflexivity].
Qed.

Lemma loadFiles_three_fields (open : string -> option (list csv.Row))
  (fs : list fileInfo) :
  threeFieldFiles open fs ->
  forall arr, loadFiles open fs arr = Val (arr ++ collected open fs).
Proof.
  induction fs as [| fi fs IH]; intros Hall arr.
  - simpl. now rewrite app_nil_r.
  - assert (Hfs : threeFieldFiles open fs).
    { intros fi' rows Hin. apply Hall. now right. }
    cbn [loadFiles collected flat_map].
    destruct (open (LocalName fi)) as [rows|] eqn:E.
    + rewrite (readRecords_three_fields rows
                 (Hall fi rows (or_introl eq_refl) E) 0%nat arr
                 (or_introl eq_refl)).
      cbn [bind]. rewrite (IH Hfs). unfold collected.
      now rewrite <- app_assoc.
    + rewrite (IH Hfs). reflexivity.
Qed.

(** The model of [sort.Slice] keeps the contract. *)
Lemma Slice_contract : SliceContract (@sort.Slice IpAddressRange).
Proof.
  intro arr.
  destruct (Slice_spec IpAddressRange start lessStart
              (fun x y => Cmp_lt0 (start x) (start y)) arr) as [Hperm Hs].
  split; [exact Hperm | ].
  intros i a b Ha Hb. apply lessStart_false.
  assert (Hlen : (S i < List.length arr)%nat).
  { rewrite (Permutation_length Hperm). apply nth_error_Some. congruence. }
  specialize (Hs i (S i) ltac:(lia) Hlen).
  unfold keyAt in Hs. now rewrite Ha, Hb in Hs.
Qed.

(** C6, as amended. [loadCsv] returns the ranges it collected,
    rearranged so that they ascend by start; from files of three-field
    rows the collected ranges are those of the rows of every file that
    opens, in file order. Nothing is promised about the relative order of
    ranges with equal starts. *)
Theorem loadCsv_sorted_permutation
  (open : string -> option (list csv.Row)) (inp : list IpAddressRange) :
  loadFiles open files [] = Val inp ->
  exists out,
    loadCsv open = Val out
    /\ sortedByStart out = true
    /\ Permutation inp out
    /\ (threeFieldFiles open files -> inp = collected open files).
Proof.
  intro Hinp. unfold loadCsv. rewrite Hinp. cbn [bind].
  destruct (Slice_contract inp) as [Hperm Hadj].
  eexists. split; [reflexivity | ].
  split; [now apply adjacent_sortedByStart | ].
  split; [exact Hperm | ].
  intro Hfiles.
  rewrite (loadFiles_three_fields open files Hfiles []) in Hinp.
  now injection Hinp as <-.
Qed.

Lemma loadCsv_sorted_permutation_witness :
  exists out,
    loadCsv tieFiles = Val out
    /\ sortedByStart out = true
    /\ Permutation (collected tieFiles files) out.
Proof.
  destruct (loadCsv_sorted_permutation tieFiles (collected tieFiles files)
              eq_refl) as (out & Hout & Hsorted & Hperm & _).
  exists out. auto.
Defined.

(** C6, as stated, fails. The two ranges that start at 2 are collected
    in the order AA, BB; after [sort.Slice] they stand in the order BB,
    AA: [partition_func] begins by swapping the first element with the
    pivot, which carries AA over BB. *)
Lemma equal_starts_reordered :
  exists inp out,
    loadFiles tieFiles files [] = Val inp
    /\ loadCsv tieFiles = Val out
    /\ sortedByStart out = true
    /\ startingAt 2 inp = [mkRange 2 20 "AA"; mkRange 2 21 "BB"]
    /\ startingAt 2 out = [mkRange 2 21 "BB"; mkRange 2 20 "AA"]
    /\ startingAt 2 out <> startingAt 2 inp.
Proof.
  eexists. eexists.
  split; [vm_compute; reflexivity | ].
  split; [vm_compute; reflexivity | ].
  split; [reflexivity | ]. split; [reflexivity | ].
  split; [reflexivity | ].
  intro H. vm_compute in H. discriminate H.
Qed.

(** ** Normalisation of IPv4 literals *)

Lemma loop_digits (ds rest : list ascii) :
  forallb net.isDigit ds = true ->
  forall atStart prevDot val pos digLen fields,
    net.parseIPv4Fields_loop (ds ++ rest) atStart prevDot val pos digLen fields
    = match eatDigits ds val digLen with
      | None => None
      | Some (v, n) =>
          net.parseIPv4Fields_loop rest
            (match ds with [] => atStart | _ => false end)
            (match ds with [] => prevDot | _ => false end)
            v pos n fields
      end.
Proof.
  induction ds as [| c ds IH]; intros Hd atStart prevDot val pos digLen fields.
  - reflexivity.
  - cbn [forallb] in Hd. apply andb_true_iff in Hd as [Hc Hds].
    cbn [app net.parseIPv4Fields_loop eatDigits]. rewrite Hc.
    destruct ((digLen =? 1)%nat && (val =? 0)); [reflexivity | ].
    destruct (val * 10 + (net.byteOf c - 48) >? 255); [reflexivity | ].
    rewrite (IH Hds).
    destruct (eatDigits ds _ _) as [[v n]|]; [ | reflexivity].
    destruct ds; reflexivity.
Qed.

Lemma loop_dot (rest : list ascii) (val : Z) (pos digLen : nat)
  (fields : list Z) :
  rest <> [] -> (pos < 3)%nat ->
  net.parseIPv4Fields_loop ("."%char :: rest) false false val pos digLen fields
  = net.parseIPv4Fields_loop rest false true 0 (S pos) 0
      (net.store fields pos (val mod 256)).
Proof.
  intros Hrest Hpos. cbn [net.parseIPv4Fields_loop].
  change (net.isDigit ".") with false. change (net.isDot ".") with true.
  cbv iota. destruct rest as [| c rest]; [contradiction | ].
  cbn [orb]. apply Nat.eqb_neq in Hpos || idtac.
  destruct (pos =? 3)%nat eqn:E; [apply Nat.eqb_eq in E; lia | reflexivity].
Qed.

Lemma octets_read_back :
  forallb octetReadsBack (map Z.of_nat (seq 0 256)) = true.
Proof. vm_compute. reflexivity. Qed.

Lemma decimalOctet_reads (n : Z) :
  octet n ->
  decimalOctet n <> []
  /\ forallb net.isDigit (decimalOctet n) = true
  /\ exists k, eatDigits (decimalOctet n) 0 0 = Some (n, k).
Proof.
  intros [Hlo Hhi].
  pose proof octets_read_back as H.
  rewrite forallb_forall in H.
  specialize (H n). unfold octetReadsBack in H.
  assert (Hin : In n (map Z.of_nat (seq 0 256))).
  { apply in_map_iff. exists (Z.to_nat n). split; [lia | ].
    apply in_seq. lia. }
  specialize (H Hin).
  destruct (decimalOctet n) as [| c ds] eqn:E; [discriminate | ].
  apply andb_true_iff in H as [Hd Hv].
  split; [discriminate | split; [exact Hd | ]].
  destruct (eatDigits (c :: ds) 0 0) as [[v k]|]; [ | discriminate].
  apply Z.eqb_eq in Hv. subst v. now exists k.
Qed.

Lemma loop_digits_nonempty (ds rest : list ascii) :
  ds <> [] -> forallb net.isDigit ds = true ->
  forall atStart prevDot val pos digLen fields,
    net.parseIPv4Fields_loop (ds ++ rest) atStart prevDot val pos digLen fields
    = match eatDigits ds val digLen with
      | None => None
      | Some (v, n) =>
          net.parseIPv4Fields_loop rest false false v pos n fields
      end.
Proof.
  intros Hne Hd atStart prevDot val pos digLen fields.
  rewrite (loop_digits ds rest Hd).
  destruct ds; [contradiction | reflexivity].
Qed.

Lemma app_cons_not_nil (ds rest : list ascii) : ds <> [] -> ds ++ rest <> [].
Proof. destruct ds; [contradiction | discriminate]. Qed.

(** The parser reads the octets of a dotted-decimal string back. *)
Lemma parseIPv4Fields_dotted (a b c d : Z) :
  octet a -> octet b -> octet c -> octet d ->
  net.parseIPv4Fields
    (decimalOctet a ++ "."%char :: decimalOctet b ++ "."%char ::
     decimalOctet c ++ "."%char :: decimalOctet d)
  = Some [a; b; c; d].
Proof.
  intros Ha Hb Hc Hd.
  destruct (decimalOctet_reads a Ha) as (Na & Da & ka & Ea).
  destruct (decimalOctet_reads b Hb) as (Nb & Db & kb & Eb).
  destruct (decimalOctet_reads c Hc) as (Nc & Dc & kc & Ec).
  destruct (decimalOctet_reads d Hd) as (Nd & Dd & kd & Ed).
  unfold net.parseIPv4Fields.
  rewrite (loop_digits_nonempty _ _ Na Da), Ea.
  rewrite loop_dot; [ | now apply app_cons_not_nil | lia].
  rewrite (loop_digits_nonempty _ _ Nb Db), Eb.
  rewrite loop_dot; [ | now apply app_cons_not_nil | lia].
  rewrite (loop_digits_nonempty _ _ Nc Dc), Ec.
  rewrite loop_dot; [ | rewrite <- (app_nil_r (decimalOctet d));
                        now apply app_cons_not_nil | lia].
  rewrite <- (app_nil_r (decimalOctet d)).
  rewrite (loop_digits_nonempty _ _ Nd Dd), Ed.
  cbn [net.parseIPv4Fields_loop net.store Nat.ltb Nat.leb].
  unfold octet in *. rewrite !Z.mod_small by lia. reflexivity.
Qed.

Lemma isDigit_not_special (c : ascii) :
  net.isDigit c = true ->
  net.isDot c = false /\ net.isColon c = false /\ net.isPercent c = false.
Proof.
  unfold net.isDigit, net.isDot, net.isColon, net.isPercent.
  intro H. apply andb_true_iff in H as [H1 H2].
  apply Z.leb_le in H1. apply Z.leb_le in H2.
  repeat split; apply Z.eqb_neq; lia.
Qed.

(** A string that begins with digits and a dot goes to the IPv4 parser. *)
Lemma parseAddr_scan_digits (whole ds rest : list ascii) :
  forallb net.isDigit ds = true ->
  net.parseAddr_scan whole (ds ++ "."%char :: rest)
  = option_map (fun f => net.v4InV6Prefix ++ f) (net.parseIPv4Fields whole).
Proof.
  induction ds as [| c ds IH]; intro Hd.
  - reflexivity.
  - cbn [forallb] in Hd. apply andb_true_iff in Hd as [Hc Hds].
    destruct (isDigit_not_special c Hc) as (H1 & H2 & H3).
    cbn [app net.parseAddr_scan]. rewrite H1, H2, H3. now apply IH.
Qed.

Lemma ParseIP_dotted (a b c d : Z) :
  octet a -> octet b -> octet c -> octet d ->
  net.ParseIP (dottedDecimal a b c d)
  = Some (net.v4InV6Prefix ++ [a; b; c; d]).
Proof.
  intros Ha Hb Hc Hd. unfold net.ParseIP, dottedDecimal.
  rewrite list_ascii_of_string_of_list_ascii.
  rewrite parseAddr_scan_digits
    by (apply (decimalOctet_reads a Ha)).
  now rewrite parseIPv4Fields_dotted.
Qed.

(** ** Bytes and integers *)

Lemma lor_shiftl_add (lo hi k : Z) :
  0 <= k -> 0 <= lo < 2 ^ k ->
  Z.lor lo (Z.shiftl hi k) = lo + hi * 2 ^ k.
Proof.
  intros Hk Hlo.
  assert (Hland : Z.land lo (Z.shiftl hi k) = 0).
  { apply Z.bits_inj'. intros n Hn.
    rewrite Z.land_spec, Z.bits_0.
    destruct (Z_lt_le_dec n k) as [Hlt | Hge].
    - rewrite Z.shiftl_spec_low by assumption. apply andb_false_r.
    - destruct (Z.eq_dec lo 0) as [-> | Hnz].
      + now rewrite Z.bits_0.
      + rewrite Z.bits_above_log2; [reflexivity | lia | ].
        apply Z.log2_lt_pow2; [lia | ].
        apply Z.lt_le_trans with (2 ^ k); [lia | ].
        apply Z.pow_le_mono_r; lia. }
  rewrite <- Z.lxor_lor by assumption.
  rewrite <- Z.add_nocarry_lxor by assumption.
  now rewrite Z.shiftl_mul_pow2.
Qed.

Lemma BigEndian_Uint32_octets (a b c d : Z) :
  octet a -> octet b -> octet c -> octet d ->
  binary.BigEndian_Uint32 [a; b; c; d] = Val (bigEndian32 a b c d).
Proof.
  unfold octet, bigEndian32. intros Ha Hb Hc Hd.
  unfold binary.BigEndian_Uint32, index; cbn [nth_error bind]. f_equal.
  assert (E8 : 2 ^ 8 = 256) by reflexivity.
  assert (E16 : 2 ^ 16 = 65536) by reflexivity.
  assert (E24 : 2 ^ 24 = 16777216) by reflexivity.
  rewrite (lor_shiftl_add d c 8) by lia.
  rewrite (lor_shiftl_add (d + c * 2 ^ 8) b 16) by lia.
  rewrite (lor_shiftl_add (d + c * 2 ^ 8 + b * 2 ^ 16) a 24) by lia.
  lia.
Qed.

(** ** Normalisation of address literals *)

Lemma ParseIP_required (s : string) (ip : net.IP) :
  net.ParseIP s = Some ip -> validator.required s = true.
Proof. destruct s; [discriminate | reflexivity]. Qed.

(** What [parseIpAddress] and the handler make of a string that
    [net.ParseIP] accepts. *)
Lemma normalize_parsed (s : string) (ip : net.IP) :
  net.ParseIP s = Some ip ->
  parseIpAddress s
  = Some (mkIpAddress (Some s)
            (match net.To4 ip with Some _ => false | None => true end))
  /\ normalize s = (n <- ipNumOf ip ;; Val (Some n)).
Proof.
  intro H. pose proof (ParseIP_required s ip H) as Hreq.
  destruct (ParseIP_octets s ip H) as [Hlen _].
  assert (Hp : parseIpAddress s
               = Some (mkIpAddress (Some s)
                         (match net.To4 ip with
                          | Some _ => false
                          | None => true
                          end))).
  { unfold parseIpAddress, validator.ip4_addr, validator.ip6_addr,
      validator.isIP4AddrResolvable, validator.isIP6AddrResolvable,
      validator.isIPv4, validator.isIPv6, net.ResolveIPAddr_ok,
      net.ipv4only, net.ipv6only.
    rewrite Hreq, H, Hlen. destruct (net.To4 ip); reflexivity. }
  split; [exact Hp | ].
  unfold normalize. rewrite Hp, H. reflexivity.
Qed.

Lemma normalize_dotted (a b c d : Z) :
  octet a -> octet b -> octet c -> octet d ->
  normalize (dottedDecimal a b c d) = Val (Some (bigEndian32 a b c d)).
Proof.
  intros Ha Hb Hc Hd.
  destruct (normalize_parsed _ _ (ParseIP_dotted a b c d Ha Hb Hc Hd))
    as [_ ->].
  unfold ipNumOf.
  change (net.To4 (net.v4InV6Prefix ++ [a; b; c; d])) with (Some [a; b; c; d]).
  cbv iota.
  rewrite (BigEndian_Uint32_octets a b c d Ha Hb Hc Hd). cbn [bind].
  unfold big.SetUint64. rewrite Z.mod_small; [reflexivity | ].
  unfold bigEndian32, octet in *.
  assert (E8 : 2 ^ 8 = 256) by reflexivity.
  assert (E16 : 2 ^ 16 = 65536) by reflexivity.
  assert (E24 : 2 ^ 24 = 16777216) by reflexivity.
  assert (E64 : 2 ^ 64 = 18446744073709551616) by reflexivity.
  lia.
Qed.

Lemma digits_no_colon (ds : list ascii) :
  forallb net.isDigit ds = true -> existsb net.isColon ds = false.
Proof.
  induction ds as [| c ds IH]; [reflexivity | ].
  cbn [forallb existsb]. intro H. apply andb_true_iff in H as [Hc Hds].
  destruct (isDigit_not_special c Hc) as (_ & -> & _). now apply IH.
Qed.

Lemma dottedDecimal_no_colon (a b c d : Z) :
  octet a -> octet b -> octet c -> octet d ->
  existsb net.isColon (list_ascii_of_string (dottedDecimal a b c d)) = false.
Proof.
  intros Ha Hb Hc Hd. unfold dottedDecimal.
  rewrite list_ascii_of_string_of_list_ascii.
  destruct (decimalOctet_reads a Ha) as (_ & Da & _).
  destruct (decimalOctet_reads b Hb) as (_ & Db & _).
  destruct (decimalOctet_reads c Hc) as (_ & Dc & _).
  destruct (decimalOctet_reads d Hd) as (_ & Dd & _).
  repeat (rewrite existsb_app; cbn [existsb]).
  rewrite !digits_no_colon by assumption. reflexivity.
Qed.

(** A string without a colon that [net.ParseIP] accepts went through
    the IPv4 parser. *)
Lemma ipv4Literal_octets (s : string) (ip : net.IP) :
  ipv4Literal s = Some ip ->
  exists a b c d,
    octet a /\ octet b /\ octet c /\ octet d
    /\ ip = net.v4InV6Prefix ++ [a; b; c; d].
Proof.
  unfold ipv4Literal.
  destruct (existsb net.isColon (list_ascii_of_string s)) eqn:E;
    [discriminate | ].
  intro H. unfold net.ParseIP in H.
  apply parseAddr_scan_cases in H as [(f & Hf & ->) | [Hcolon _]];
    [ | congruence].
  destruct (parseIPv4Fields_octets _ f Hf)
    as (a & b & c & d & -> & Ha & Hb & Hc & Hd).
  exists a, b, c, d. auto.
Qed.

(** The normalisation of a parsed address that has the IPv4 prefix. *)
Lemma ipNumOf_mapped (a b c d : Z) :
  octet a -> octet b -> octet c -> octet d ->
  ipNumOf (net.v4InV6Prefix ++ [a; b; c; d]) = Val (bigEndian32 a b c d).
Proof.
  intros Ha Hb Hc Hd. unfold ipNumOf.
  change (net.To4 (net.v4InV6Prefix ++ [a; b; c; d])) with (Some [a; b; c; d]).
  cbv iota.
  rewrite (BigEndian_Uint32_octets a b c d Ha Hb Hc Hd). cbn [bind].
  unfold big.SetUint64. rewrite Z.mod_small; [reflexivity | ].
  unfold bigEndian32, octet in *.
  assert (E8 : 2 ^ 8 = 256) by reflexivity.
  assert (E16 : 2 ^ 16 = 65536) by reflexivity.
  assert (E24 : 2 ^ 24 = 16777216) by reflexivity.
  assert (E64 : 2 ^ 64 = 18446744073709551616) by reflexivity.
  lia.
Qed.

(** Sixteen octets with a 4-byte form are the IPv4 prefix and four
    octets. *)
Lemma To4_mapped (ip b : net.IP) :
  List.length ip = 16%nat -> Forall octet ip -> net.To4 ip = Some b ->
  exists b0 b1 b2 b3,
    b = [b0; b1; b2; b3] /\ ip = net.v4InV6Prefix ++ b
    /\ octet b0 /\ octet b1 /\ octet b2 /\ octet b3.
Proof.
  intros Hlen Hoct H.
  do 16 (destruct ip as [| ? ip]; [discriminate | ]).
  destruct ip; [ | discriminate].
  unfold net.To4 in H. cbn [List.length Nat.eqb andb firstn skipn nth
                            net.isZeros forallb] in H.
  repeat match type of H with
         | context [(?x =? ?k)] =>
             destruct (Z.eqb_spec x k); [subst x | discriminate H]
         end.
  cbn [andb] in H. injection H as <-.
  repeat match goal with
         | Ho : Forall octet (_ :: _) |- _ =>
             inversion Ho; subst; clear Ho
         end.
  do 4 eexists. split; [reflexivity | ]. split; [reflexivity | ]. auto.
Qed.

(** C2, as amended. The literal [a.b.c.d] normalises to the unsigned
    32-bit integer with its four octets in big-endian order, and so does
    every string without a colon that the parser accepts, with the octets
    the parser reads. An IPv6 literal parses to 16 bytes, whose big-endian
    integer is below 2^128, and normalises to that integer unless the
    bytes are an IPv4-mapped address (ten zero bytes, then ff ff); then it
    normalises to the 32-bit big-endian integer of the last four bytes. *)
Theorem normalization_of_literals :
  (forall a b c d,
     octet a -> octet b -> octet c -> octet d ->
     ipv4Literal (dottedDecimal a b c d)
     = Some (net.v4InV6Prefix ++ [a; b; c; d])
     /\ normalize (dottedDecimal a b c d) = Val (Some (bigEndian32 a b c d)))
  /\ (forall s ip,
        ipv4Literal s = Some ip ->
        exists a b c d,
          octet a /\ octet b /\ octet c /\ octet d
          /\ ip = net.v4InV6Prefix ++ [a; b; c; d]
          /\ normalize s = Val (Some (bigEndian32 a b c d)))
  /\ (forall s ip,
        ipv6Literal s = Some ip ->
        List.length ip = 16%nat
        /\ 0 <= big.SetBytes ip < 2 ^ 128
        /\ (net.To4 ip = None ->
            normalize s = Val (Some (big.SetBytes ip)))
        /\ (forall b,
              net.To4 ip = Some b ->
              exists b0 b1 b2 b3,
                b = [b0; b1; b2; b3]
                /\ ip = net.v4InV6Prefix ++ b
                /\ normalize s = Val (Some (bigEndian32 b0 b1 b2 b3)))).
Proof.
  split; [ | split].
  - intros a b c d Ha Hb Hc Hd. split; [ | now apply normalize_dotted].
    unfold ipv4Literal.
    rewrite (dottedDecimal_no_colon a b c d Ha Hb Hc Hd).
    now apply ParseIP_dotted.
  - intros s ip Hlit.
    destruct (ipv4Literal_octets s ip Hlit)
      as (a & b & c & d & Ha & Hb & Hc & Hd & ->).
    exists a, b, c, d. repeat (split; [assumption | ]).
    split; [reflexivity | ].
    unfold ipv4Literal in Hlit.
    destruct (existsb net.isColon (list_ascii_of_string s));
      [discriminate | ].
    destruct (normalize_parsed s _ Hlit) as [_ ->].
    now rewrite ipNumOf_mapped.
  - intros s ip Hlit. unfold ipv6Literal in Hlit.
    destruct (existsb net.isColon (list_ascii_of_string s));
      [ | discriminate].
    destruct (ParseIP_octets s ip Hlit) as [Hlen Hoct].
    destruct (normalize_parsed s ip Hlit) as [_ Hn].
    split; [exact Hlen | split; [ | split]].
    + pose proof (SetBytes_bound ip Hoct) as Hb. rewrite Hlen in Hb.
      exact Hb.
    + intro H4. rewrite Hn. unfold ipNumOf. now rewrite H4.
    + intros b H4.
      destruct (To4_mapped ip b Hlen Hoct H4)
        as (b0 & b1 & b2 & b3 & -> & -> & H0 & H1 & H2 & H3).
      exists b0, b1, b2, b3. split; [reflexivity | split; [reflexivity | ]].
      rewrite Hn. now rewrite ipNumOf_mapped.
Qed.

Lemma normalization_of_literals_witness :
  normalize "140.82.114.3" = Val (Some 2354213379)
  /\ normalize "2001:db8::1"
     = Val (Some 42540766411282592856903984951653826561)
  /\ normalize "::ffff:1.2.3.4" = Val (Some 16909060).
Proof.
  destruct normalization_of_literals as (H4 & _ & H6).
  split; [ | split].
  - apply (H4 140 82 114 3); unfold octet; lia.
  - destruct (H6 "2001:db8::1"%string
                [32; 1; 13; 184; 0; 0; 0; 0; 0; 0; 0; 0; 0; 0; 0; 1]
                eq_refl) as (_ & _ & Hfull & _).
    apply Hfull. reflexivity.
  - destruct (H6 "::ffff:1.2.3.4"%string
                [0; 0; 0; 0; 0; 0; 0; 0; 0; 0; 255; 255; 1; 2; 3; 4]
                eq_refl) as (_ & _ & _ & Hmapped).
    destruct (Hmapped [1; 2; 3; 4] eq_refl)
      as (b0 & b1 & b2 & b3 & Hb & _ & Hn).
    injection Hb as <- <- <- <-. exact Hn.
Defined.

(** C2, as stated, fails. "::ffff:102:304" is an IPv6 literal; the
    big-endian integer of its 16 bytes is 281470698652420, and the
    handler normalises it to 16909060, the 32-bit integer of 1.2.3.4. *)
Lemma mapped_ipv6_literal_is_32_bit :
  ipv6Literal "::ffff:102:304"
  = Some [0; 0; 0; 0; 0; 0; 0; 0; 0; 0; 255; 255; 1; 2; 3; 4]
  /\ big.SetBytes [0; 0; 0; 0; 0; 0; 0; 0; 0; 0; 255; 255; 1; 2; 3; 4]
     = 281470698652420
  /\ normalize "::ffff:102:304" = Val (Some 16909060)
  /\ normalize "::ffff:102:304"
     <> Val (Some (big.SetBytes
                     [0; 0; 0; 0; 0; 0; 0; 0; 0; 0; 255; 255; 1; 2; 3; 4]))
  /\ parseIpAddress "::ffff:102:304"
     = Some (mkIpAddress (Some "::ffff:102:304"%string) false).
Proof.
  split; [reflexivity | ]. split; [reflexivity | ].
  split; [reflexivity | ]. split; [ | reflexivity].
  intro H. vm_compute in H. discriminate H.
Qed.

(** * Further properties *)

(** ** parseIpAddress and the handler *)

(** X1. [parseIpAddress] accepts exactly the strings [net.ParseIP]
    accepts. It keeps the string as it came, and sets [ip_v6] exactly when
    the parsed address has no 4-byte form: an IPv4-mapped IPv6 literal
    is reported with [ip_v6: false]. *)
Theorem parseIpAddress_follows_ParseIP (raw : string) :
  (parseIpAddress raw = None <-> net.ParseIP raw = None)
  /\ (forall ip,
        net.ParseIP raw = Some ip ->
        parseIpAddress raw
        = Some (mkIpAddress (Some raw)
                  (match net.To4 ip with Some _ => false | None => true end))).
Proof.
  destruct (net.ParseIP raw) as [ip|] eqn:Hp.
  - destruct (normalize_parsed raw ip Hp) as [Hq _]. split.
    + rewrite Hq. split; discriminate.
    + intros ip' E. injection E as <-. exact Hq.
  - split.
    + split; [reflexivity | intros _; now apply malformed_parseIpAddress].
    + discriminate.
Qed.

Lemma parseIpAddress_follows_ParseIP_witness :
  parseIpAddress "::ffff:1.2.3.4"
  = Some (mkIpAddress (Some "::ffff:1.2.3.4"%string) false)
  /\ parseIpAddress "::102:304"
     = Some (mkIpAddress (Some "::102:304"%string) true).
Proof.
  split.
  - apply (proj2 (parseIpAddress_follows_ParseIP "::ffff:1.2.3.4")
             (net.v4InV6Prefix ++ [1; 2; 3; 4])).
    reflexivity.
  - apply (proj2 (parseIpAddress_follows_ParseIP "::102:304")
             (repeat 0 12 ++ [1; 2; 3; 4])).
    reflexivity.
Defined.

(** What the handler computes for a string that [parseIpAddress]
    accepts: the test [addr != nil] cannot fail. *)
Lemma accepted_normalizes (raw : string) (a : IpAddress) :
  parseIpAddress raw = Some a ->
  exists ip q,
    net.ParseIP raw = Some ip
    /\ a = mkIpAddress (Some raw)
             (match net.To4 ip with Some _ => false | None => true end)
    /\ ipNumOf ip = Val q
    /\ normalize raw = Val (Some q).
Proof.
  intros Ha. destruct (net.ParseIP raw) as [ip|] eqn:Hp.
  - destruct (normalize_parsed raw ip Hp) as [Hq Hn].
    destruct (ipNumOf_total ip) as [q Hq'].
    exists ip, q. repeat split; try assumption.
    + congruence.
    + rewrite Hn, Hq'. reflexivity.
  - rewrite (malformed_parseIpAddress raw Hp) in Ha. discriminate.
Qed.

Lemma ipNumOf_bound (ip : net.IP) (q : Z) :
  List.length ip = 16%nat -> Forall octet ip -> ipNumOf ip = Val q ->
  0 <= q < 2 ^ 128
  /\ (net.To4 ip <> None -> q < 2 ^ 32).
Proof.
  intros Hlen Hoct Hq. unfold ipNumOf in Hq.
  destruct (net.To4 ip) as [b|] eqn:H4.
  - destruct (To4_mapped ip b Hlen Hoct H4)
      as (b0 & b1 & b2 & b3 & -> & _ & H0 & H1 & H2 & H3).
    rewrite (BigEndian_Uint32_octets b0 b1 b2 b3 H0 H1 H2 H3) in Hq.
    simpl in Hq. injection Hq as <-.
    unfold big.SetUint64, bigEndian32, octet in *.
    assert (E24 : 2 ^ 24 = 16777216) by reflexivity.
    assert (E16 : 2 ^ 16 = 65536) by reflexivity.
    assert (E8 : 2 ^ 8 = 256) by reflexivity.
    assert (E32 : 2 ^ 32 = 4294967296) by reflexivity.
    assert (E64 : 2 ^ 64 = 18446744073709551616) by reflexivity.
    assert (E128 : 2 ^ 128 = 340282366920938463463374607431768211456)
      by reflexivity.
    rewrite E24, E16, E8, E32, E64, E128.
    rewrite Z.mod_small by lia. split; [lia | intros _; lia].
  - injection Hq as <-. pose proof (SetBytes_bound ip Hoct) as B.
    rewrite Hlen in B. change (256 ^ Z.of_nat 16) with (2 ^ 128) in B.
    split; [exact B | congruence].
Qed.

(** X2. Whenever [parseIpAddress] accepts a string, the handler gets as
    far as the search: it computes an integer for it, without a panic.
    The integer is below 2^128, and below 2^32 when the address is
    reported with [ip_v6: false]. *)
Theorem accepted_address_has_a_number (raw : string) (a : IpAddress) :
  parseIpAddress raw = Some a ->
  exists q,
    normalize raw = Val (Some q)
    /\ 0 <= q < 2 ^ 128
    /\ (IpV6 a = false -> q < 2 ^ 32).
Proof.
  intros Ha.
  destruct (accepted_normalizes raw a Ha) as (ip & q & Hp & -> & Hq & Hn).
  destruct (ParseIP_octets raw ip Hp) as [Hlen Hoct].
  destruct (ipNumOf_bound ip q Hlen Hoct Hq) as [B B4].
  exists q. repeat split; try assumption; try apply B.
  simpl. destruct (net.To4 ip);
    [intros _; apply B4; discriminate | discriminate].
Qed.

Lemma accepted_address_has_a_number_witness :
  exists q,
    normalize "255.255.255.255" = Val (Some q)
    /\ 0 <= q < 2 ^ 128
    /\ (false = false -> q < 2 ^ 32).
Proof.
  apply (accepted_address_has_a_number "255.255.255.255"
           (mkIpAddress (Some "255.255.255.255"%string) false)).
  reflexivity.
Defined.

(** X3. The two shapes of a response. With [ok: false] every other
    field has its zero value: a miss does not echo the address, not even
    a well-formed one. With [ok: true] the response carries the query
    string as it came, the flag [parseIpAddress] gave it, and the
    country of a range of the index. *)
Theorem response_shape (arr : list IpAddressRange) (raw : string)
  (resp : ApiResponse) :
  getIpInfo arr raw = Val resp ->
  (Ok resp = false -> resp = notFound)
  /\ (Ok resp = true ->
      parseIpAddress raw = Some (Address resp)
      /\ IpAddr (Address resp) = Some raw
      /\ exists r, In r arr /\ Country resp = Some (country r)).
Proof.
  rewrite getIpInfo_unfold. intros H.
  destruct (parseIpAddress raw) as [a|] eqn:Ha.
  - destruct (accepted_normalizes raw a Ha) as (ip & q & Hp & Ea & Hq & Hn).
    rewrite Hn in H.
    destruct (lookup arr q) as [[c|]|] eqn:Hl; try discriminate.
    + injection H as <-. simpl. split; [discriminate | intros _].
      split; [reflexivity | ]. split; [rewrite Ea; reflexivity | ].
      destruct (lookup_hit arr q c Hl) as (idx & r & _ & _ & Hr & Hc & _).
      exists r. split; [eapply nth_error_In; eassumption | now rewrite Hc].
    + injection H as <-. split; [reflexivity | discriminate].
  - destruct (normalize raw) as [[q|]|]; try discriminate;
      injection H as <-; (split; [reflexivity | discriminate]).
Qed.

Lemma response_shape_witness :
  parseIpAddress "0.0.0.150"
  = Some (mkIpAddress (Some "0.0.0.150"%string) false)
  /\ Some "0.0.0.150"%string = Some "0.0.0.150"%string
  /\ exists r, In r [US] /\ Some "US"%string = Some (country r).
Proof.
  apply (proj2 (response_shape [US] "0.0.0.150"
                  (mkApiResponse true (Some "US"%string)
                     (mkIpAddress (Some "0.0.0.150"%string) false))
                  eq_refl) eq_refl).
Defined.

(** X4. The answer depends on the address, not on its spelling. Two
    strings that [net.ParseIP] reads as the same 16 bytes (with or
    without leading zeros in a group, with or without the :: shorthand,
    in either case of the hexadecimal digits) get the same [ok], the
    same country and the same [ip_v6] on every index; a hit echoes each
    string as it came. *)
Theorem answer_depends_on_address_not_spelling
  (arr : list IpAddressRange) (s t : string) (ip : net.IP) :
  net.ParseIP s = Some ip ->
  net.ParseIP t = Some ip ->
  exists rs rt,
    getIpInfo arr s = Val rs /\ getIpInfo arr t = Val rt
    /\ Ok rs = Ok rt /\ Country rs = Country rt
    /\ IpV6 (Address rs) = IpV6 (Address rt)
    /\ (Ok rs = true ->
        IpAddr (Address rs) = Some s /\ IpAddr (Address rt) = Some t).
Proof.
  intros Hs Ht.
  destruct (normalize_parsed s ip Hs) as [As Ns].
  destruct (normalize_parsed t ip Ht) as [At Nt].
  destruct (ipNumOf_total ip) as [q Hq].
  rewrite Hq in Ns, Nt. simpl in Ns, Nt.
  rewrite !getIpInfo_unfold, As, At, Ns, Nt.
  destruct (lookup_total arr q) as [[c | ] ->].
  - eexists _, _. repeat split; reflexivity.
  - eexists _, _. repeat split; try reflexivity; discriminate.
Qed.

Lemma answer_depends_on_address_not_spelling_witness :
  exists rs rt,
    getIpInfo [US] "0:0:0:0:0:0:0:96" = Val rs
    /\ getIpInfo [US] "::0096" = Val rt
    /\ Ok rs = Ok rt /\ Country rs = Country rt
    /\ IpV6 (Address rs) = IpV6 (Address rt)
    /\ (Ok rs = true ->
        IpAddr (Address rs) = Some "0:0:0:0:0:0:0:96"%string
        /\ IpAddr (Address rt) = Some "::0096"%string).
Proof.
  apply (answer_depends_on_address_not_spelling [US] "0:0:0:0:0:0:0:96"
           "::0096" (repeat 0 15 ++ [150])); reflexivity.
Defined.

Lemma ipNumOf_compatible (a b c d : Z) :
  ipNumOf (v4Compatible a b c d) = Val (bigEndian32 a b c d).
Proof.
  unfold ipNumOf, v4Compatible. simpl.
  unfold big.SetBytes, bigEndian32. simpl. f_equal. lia.
Qed.

(** The answer of the handler is a function of the normalised integer. *)
Lemma getIpInfo_same_number (arr : list IpAddressRange) (s t : string)
  (q : Z) :
  normalize s = Val (Some q) -> normalize t = Val (Some q) ->
  exists rs rt,
    getIpInfo arr s = Val rs /\ getIpInfo arr t = Val rt
    /\ Ok rs = Ok rt /\ Country rs = Country rt.
Proof.
  intros Hs Ht. rewrite !getIpInfo_unfold, Hs, Ht.
  assert (As : exists a, parseIpAddress s = Some a).
  { unfold normalize in Hs.
    destruct (parseIpAddress s); [eauto | discriminate]. }
  assert (At : exists a, parseIpAddress t = Some a).
  { unfold normalize in Ht.
    destruct (parseIpAddress t); [eauto | discriminate]. }
  destruct As as [a ->], At as [b ->].
  destruct (lookup_total arr q) as [[c|] ->]; eauto 10.
Qed.

(** X5. IPv4 and IPv6 addresses are searched in one number space. An
    IPv6 literal whose bytes are twelve zeros and then a, b, c, d (such
    as ::102:304) is reported with [ip_v6: true], normalises to the
    32-bit integer of a.b.c.d, and so gets the [ok] and the country of
    that IPv4 address on every index. *)
Theorem compatible_address_shares_ipv4_number
  (arr : list IpAddressRange) (s : string) (a b c d : Z) :
  octet a -> octet b -> octet c -> octet d ->
  net.ParseIP s = Some (v4Compatible a b c d) ->
  parseIpAddress s = Some (mkIpAddress (Some s) true)
  /\ normalize s = Val (Some (bigEndian32 a b c d))
  /\ exists r6 r4,
       getIpInfo arr s = Val r6
       /\ getIpInfo arr (dottedDecimal a b c d) = Val r4
       /\ Ok r6 = Ok r4 /\ Country r6 = Country r4.
Proof.
  intros Ha Hb Hc Hd Hp.
  destruct (normalize_parsed s _ Hp) as [Hq Hn].
  rewrite ipNumOf_compatible in Hn. simpl in Hn.
  split; [exact Hq | ]. split; [exact Hn | ].
  apply (getIpInfo_same_number arr s (dottedDecimal a b c d) _ Hn).
  now apply normalize_dotted.
Qed.

Lemma compatible_address_shares_ipv4_number_witness :
  parseIpAddress "::102:304"
  = Some (mkIpAddress (Some "::102:304"%string) true)
  /\ normalize "::102:304" = Val (Some (bigEndian32 1 2 3 4))
  /\ exists r6 r4,
       getIpInfo [mkRange 16909060 16909060 "ZZ"] "::102:304" = Val r6
       /\ getIpInfo [mkRange 16909060 16909060 "ZZ"] (dottedDecimal 1 2 3 4)
          = Val r4
       /\ Ok r6 = Ok r4 /\ Country r6 = Country r4.
Proof.
  apply (compatible_address_shares_ipv4_number
           [mkRange 16909060 16909060 "ZZ"] "::102:304" 1 2 3 4);
    try (unfold octet; lia).
  reflexivity.
Defined.

(** ** The characters of an accepted address *)

Lemma isDigit_addressChar (c : ascii) :
  net.isDigit c = true -> addressChar c = true.
Proof.
  unfold net.isDigit, addressChar, net.hexVal. intros ->. reflexivity.
Qed.

Lemma isDot_addressChar (c : ascii) :
  net.isDot c = true -> addressChar c = true.
Proof.
  unfold addressChar. intros ->. destruct (net.hexVal c); reflexivity.
Qed.

Lemma isColon_addressChar (c : ascii) :
  net.isColon c = true -> addressChar c = true.
Proof.
  unfold addressChar. intros ->. rewrite orb_true_r.
  destruct (net.hexVal c); reflexivity.
Qed.

Lemma forallb_app_true {A : Type} (f : A -> bool) (x y : list A) :
  forallb f x = true -> forallb f y = true -> forallb f (x ++ y) = true.
Proof. intros Hx Hy. rewrite forallb_app, Hx, Hy. reflexivity. Qed.

Lemma parseIPv4Fields_loop_chars (s : list ascii) :
  forall atStart prevDot val pos digLen fields r,
    net.parseIPv4Fields_loop s atStart prevDot val pos digLen fields
    = Some r ->
    forallb addressChar s = true.
Proof.
  induction s as [ | c rest IH];
    intros atStart prevDot val pos digLen fields r H; [reflexivity | ].
  simpl in H. simpl.
  destruct (net.isDigit c) eqn:Ed.
  - rewrite (isDigit_addressChar c Ed). simpl.
    destruct ((digLen =? 1)%nat && (val =? 0)); [discriminate | ].
    destruct (val * 10 + (net.byteOf c - 48) >? 255); [discriminate | ].
    eapply IH; eassumption.
  - destruct (net.isDot c) eqn:Edot; [ | discriminate].
    rewrite (isDot_addressChar c Edot). simpl.
    destruct (atStart || match rest with [] => true | _ => false end
              || prevDot);
      [discriminate | ].
    destruct (pos =? 3)%nat; [discriminate | ].
    eapply IH; eassumption.
Qed.

Lemma parseIPv4Fields_chars (s : list ascii) (f : list Z) :
  net.parseIPv4Fields s = Some f -> forallb addressChar s = true.
Proof.
  unfold net.parseIPv4Fields.
  destruct (net.parseIPv4Fields_loop s true false 0 0 0 [0; 0; 0; 0])
    as [r | ] eqn:E; [ | discriminate].
  intros _. eapply parseIPv4Fields_loop_chars; eassumption.
Qed.

(** What [hexGroup] has read are hexadecimal digits. *)
Lemma hexGroup_chars (s : list ascii) :
  forall off acc off' acc' rest,
    net.hexGroup s off acc = Some (off', acc', rest) ->
    exists pre, s = pre ++ rest /\ forallb addressChar pre = true.
Proof.
  induction s as [ | c s' IH]; intros off acc off' acc' rest H; simpl in H.
  - assert (rest = []) as -> by congruence. exists []. auto.
  - destruct (net.hexVal c) as [d | ] eqn:Eh.
    + destruct (3 <? off)%nat; [discriminate | ].
      match type of H with
      | (if ?b then _ else _) = _ => destruct b; [discriminate | ]
      end.
      apply IH in H as (pre & -> & Hp).
      exists (c :: pre). split; [reflexivity | ].
      simpl. unfold addressChar at 1. now rewrite Eh.
    + assert (rest = c :: s') as -> by congruence. exists []. auto.
Qed.

(** What the group loop has consumed are address characters. *)
Lemma parseIPv6_loop_chars (groups : nat) :
  forall s ip ellipsis rest ip' ellipsis',
    net.parseIPv6_loop groups s ip ellipsis = Some (rest, ip', ellipsis') ->
    exists pre, s = pre ++ rest /\ forallb addressChar pre = true.
Proof.
  induction groups as [ | g IH]; intros s ip ellipsis rest ip' ellipsis' H;
    simpl in H.
  - assert (rest = s) as -> by congruence. exists []. auto.
  - destruct (net.hexGroup s 0 0) as [[[off acc] rest0] | ] eqn:Eg;
      [ | discriminate].
    destruct (hexGroup_chars s _ _ _ _ _ Eg) as (pre0 & Es & Hp0).
    destruct (off =? 0)%nat; [discriminate | ].
    destruct rest0 as [ | c rest1].
    + assert (rest = []) as -> by congruence. exists pre0. auto.
    + destruct (net.isDot c) eqn:Edot.
      * destruct ((match ellipsis with None => true | _ => false end)
                  && negb (List.length ip =? 12)%nat); [discriminate | ].
        destruct (16 <? List.length ip + 4)%nat; [discriminate | ].
        destruct (net.parseIPv4Fields s) as [fields | ] eqn:E4;
          [ | discriminate].
        assert (rest = []) as -> by congruence. exists s.
        rewrite app_nil_r.
        split; [reflexivity | ]. eapply parseIPv4Fields_chars; eassumption.
      * destruct (net.isColon c) eqn:Ecol; simpl in H; [ | discriminate].
        pose proof (isColon_addressChar c Ecol) as Hc.
        destruct rest1 as [ | c' rest2]; [discriminate | ].
        destruct (net.isColon c') eqn:Ecol'.
        -- pose proof (isColon_addressChar c' Ecol') as Hc'.
           destruct ellipsis; [discriminate | ].
           destruct rest2 as [ | c'' rest3].
           ++ assert (rest = []) as -> by congruence.
              exists (pre0 ++ [c; c']).
              rewrite <- app_assoc. split; [exact Es | ].
              apply forallb_app_true; [exact Hp0 | ].
              simpl. now rewrite Hc, Hc'.
           ++ apply IH in H as (pre & Er & Hp).
              exists (pre0 ++ c :: c' :: pre).
              rewrite <- app_assoc. simpl. rewrite <- Er.
              split; [exact Es | ].
              apply forallb_app_true; [exact Hp0 | ].
              simpl. now rewrite Hc, Hc', Hp.
        -- apply IH in H as (pre & Er & Hp).
           exists (pre0 ++ c :: pre).
           rewrite <- app_assoc. simpl. rewrite <- Er.
           split; [exact Es | ].
           apply forallb_app_true; [exact Hp0 | ].
           simpl. now rewrite Hc, Hp.
Qed.

(** A run of the group loop that [parseIPv6] accepts has consumed the
    whole string. *)
Ltac accepted_loop :=
  match goal with
  | |- match net.parseIPv6_loop 8 ?s0 [] ?e with _ => _ end = Some _ -> _ =>
      let El := fresh "El" in
      destruct (net.parseIPv6_loop 8 s0 [] e) as [[[rest1 ip1] e1] | ] eqn:El;
      [ | discriminate];
      destruct rest1; [ | discriminate];
      intros _; apply parseIPv6_loop_chars in El as (pre & El & Hp);
      rewrite app_nil_r in El; rewrite El; simpl; try exact Hp
  end.

Lemma parseIPv6_chars (s : list ascii) (ip : list Z) :
  net.parseIPv6 s = Some ip -> forallb addressChar s = true.
Proof.
  unfold net.parseIPv6. cbv zeta beta.
  destruct s as [ | c0 [ | c1 rest]]; try accepted_loop.
  destruct (net.isColon c0 && net.isColon c1) eqn:Ec; [ | accepted_loop].
  apply andb_true_iff in Ec as [E0 E1].
  destruct rest as [ | c2 rest'].
  - intros _. simpl.
    now rewrite (isColon_addressChar c0 E0), (isColon_addressChar c1 E1).
  - accepted_loop.
    now rewrite (isColon_addressChar c0 E0), (isColon_addressChar c1 E1).
Qed.

Lemma parseAddr_scan_chars (whole : list ascii) (ip : net.IP) :
  forall s,
    net.parseAddr_scan whole s = Some ip ->
    forallb addressChar whole = true.
Proof.
  induction s as [ | c rest IH]; simpl; [discriminate | ].
  destruct (net.isDot c).
  - destruct (net.parseIPv4Fields whole) as [f | ] eqn:E4; [ | discriminate].
    intros _. eapply parseIPv4Fields_chars; eassumption.
  - destruct (net.isColon c).
    + destruct (existsb net.isPercent whole); [discriminate | ].
      apply parseIPv6_chars.
    + destruct (net.isPercent c); [discriminate | exact IH].
Qed.

(** [net.ParseIP] accepts address characters only. *)
Lemma ParseIP_chars (s : string) (ip : net.IP) :
  net.ParseIP s = Some ip ->
  forallb addressChar (list_ascii_of_string s) = true.
Proof. apply parseAddr_scan_chars. Qed.

(** X6. A query with any character other than a hexadecimal digit, a
    dot or a colon is answered [ok: false] on every index: surrounding
    blanks, a zone, a prefix length, brackets or a port are not stripped. *)
Theorem other_characters_are_not_found (arr : list IpAddressRange)
  (raw : string) :
  forallb addressChar (list_ascii_of_string raw) = false ->
  parseIpAddress raw = None /\ getIpInfo arr raw = Val notFound.
Proof.
  intros H.
  assert (Hp : net.ParseIP raw = None).
  { destruct (net.ParseIP raw) as [ip | ] eqn:E; [ | reflexivity].
    apply ParseIP_chars in E. congruence. }
  pose proof (malformed_parseIpAddress raw Hp) as Ha.
  split; [exact Ha | ].
  rewrite getIpInfo_unfold, Ha.
  destruct (normalize_total raw) as [o ->]. reflexivity.
Qed.

Lemma other_characters_are_not_found_witness :
  (parseIpAddress " 1.2.3.4" = None
   /\ getIpInfo [US] " 1.2.3.4" = Val notFound)
  /\ (parseIpAddress "fe80::1%eth0" = None
      /\ getIpInfo [US] "fe80::1%eth0" = Val notFound)
  /\ (parseIpAddress "1.2.3.0/24" = None
      /\ getIpInfo [US] "1.2.3.0/24" = Val notFound)
  /\ (parseIpAddress "[::1]" = None
      /\ getIpInfo [US] "[::1]" = Val notFound).
Proof.
  split; [ | split; [ | split]].
  - apply (other_characters_are_not_found [US] " 1.2.3.4"). reflexivity.
  - apply (other_characters_are_not_found [US] "fe80::1%eth0"). reflexivity.
  - apply (other_characters_are_not_found [US] "1.2.3.0/24"). reflexivity.
  - apply (other_characters_are_not_found [US] "[::1]"). reflexivity.
Defined.

(** ** The search on an index with overlapping ranges *)

(** On an index in ascending order of start, the search stops just
    after the last range that starts at or below the query. *)
Lemma searchIdx_after (arr : list IpAddressRange) (q : Z) (i : nat)
  (r : IpAddressRange) :
  sortedByStart arr = true ->
  nth_error arr i = Some r ->
  start r <= q ->
  (forall r', nth_error arr (S i) = Some r' -> q < start r') ->
  searchIdx arr q = Val (S i).
Proof.
  intros Hs Hr Hle Hnext.
  destruct (searchIdx_total arr q) as [idx Hidx].
  pose proof (searchIdx_lowest arr q idx Hs Hidx) as Low.
  rewrite Hidx. f_equal.
  destruct (searchIdx_inv arr q idx Hidx) as (Hlen & _ & _).
  pose proof (Low i r Hr) as L1.
  assert (i < idx)%nat
    by (destruct (le_lt_dec idx i) as [C|C]; [apply L1 in C; lia | exact C]).
  destruct (nth_error arr (S i)) as [r'|] eqn:Hr'.
  - pose proof (Low (S i) r' Hr') as L2.
    specialize (Hnext r' eq_refl). apply L2 in Hnext. lia.
  - apply nth_error_None in Hr'. lia.
Qed.

(** X7. On an index in ascending order of start, with or without
    overlaps, the answer depends on one range only: the last one that
    starts at or below the query. When that range ends below the query
    the answer is a miss, also when an earlier, longer range contains
    the query. *)
Theorem last_start_decides (arr : list IpAddressRange) (q : Z) (i : nat)
  (r : IpAddressRange) :
  sortedByStart arr = true ->
  nth_error arr i = Some r ->
  start r <= q ->
  (forall r', nth_error arr (S i) = Some r' -> q < start r') ->
  lookup arr q
  = Val (if (q <=? end_ r) && negb (q =? 0) then Some (country r) else None).
Proof.
  intros Hs Hr Hle Hnext.
  rewrite (lookup_unfold arr q (S i)
             (searchIdx_after arr q i r Hs Hr Hle Hnext)).
  simpl. rewrite Nat.sub_0_r, Hr.
  destruct ((q <=? end_ r) && negb (q =? 0)); reflexivity.
Qed.

Lemma last_start_decides_witness :
  contains (mkRange 1 100 "A") 50
  /\ In (mkRange 1 100 "A") nestedIndex
  /\ lookup nestedIndex 50 = Val None.
Proof.
  split; [unfold contains; simpl; lia | ].
  split; [left; reflexivity | ].
  apply (last_start_decides nestedIndex 50 1 (mkRange 10 20 "B")).
  - reflexivity.
  - reflexivity.
  - simpl; lia.
  - simpl; discriminate.
Defined.

(** ** From the files to the answers *)

Lemma apart_sym (a b : IpAddressRange) : apart a b -> apart b a.
Proof. unfold apart; tauto. Qed.

Lemma disjointRanges_Permutation (l l' : list IpAddressRange) :
  Permutation l l' -> disjointRanges l -> disjointRanges l'.
Proof.
  induction 1 as [ | x l l' HP IH | x y l | l l' l'' _ IH1 _ IH2 ]; simpl.
  - trivial.
  - intros [F D]. split; [eapply Permutation_Forall; eassumption | auto].
  - intros [Fy [Fx D]]. inversion Fy as [ | ? ? Hyx Fy' ]; subst.
    split; [constructor; [now apply apart_sym | assumption] | ].
    split; assumption.
  - auto.
Qed.

(** Sorted by start, well-formed ranges that are pairwise apart do not
    overlap. *)
Lemma sorted_disjoint_nonOverlapping (l : list IpAddressRange) :
  sortedByStart l = true -> Forall wellFormed l -> disjointRanges l ->
  nonOverlapping l = true.
Proof.
  induction l as [ | a [ | b t] IH]; try reflexivity.
  intros Hs Hw Hd.
  change (sortedByStart (a :: b :: t))
    with ((start a <=? start b) && sortedByStart (b :: t)) in Hs.
  change (nonOverlapping (a :: b :: t))
    with ((end_ a <? start b) && nonOverlapping (b :: t)).
  apply andb_true_iff in Hs as [Hab Hs]. apply Z.leb_le in Hab.
  inversion Hw as [ | ? ? _ Hw' ]; subst.
  destruct Hd as [Fa Hd].
  apply andb_true_iff. split; [ | now apply IH].
  apply Z.ltb_lt.
  inversion Fa as [ | ? ? Hap _ ]; subst.
  inversion Hw' as [ | ? ? Hb _ ]; subst.
  unfold apart, wellFormed in *. lia.
Qed.

Lemma lookup_contained (arr : list IpAddressRange) (q : Z)
  (r : IpAddressRange) :
  sortedByStart arr = true -> nonOverlapping arr = true ->
  In r arr -> contains r q -> q <> 0 ->
  lookup arr q = Val (Some (country r)).
Proof.
  intros Hs Hn Hin [Hlo Hhi] Hq.
  apply In_nth_error in Hin as [i Hr].
  assert (Hidx : searchIdx arr q = Val (S i)).
  { apply (searchIdx_after arr q i r Hs Hr Hlo). intros r' Hr'.
    pose proof (nonOverlapping_adjacent arr Hn i r r' Hr Hr'). lia. }
  rewrite (lookup_unfold arr q (S i) Hidx). simpl.
  rewrite Nat.sub_0_r, Hr.
  apply Z.leb_le in Hhi. apply Z.eqb_neq in Hq. now rewrite Hhi, Hq.
Qed.

(** What [loadCsv] returns for files of three-field rows. *)
Lemma loadCsv_three_fields (open : string -> option (list csv.Row)) :
  threeFieldFiles open files ->
  loadCsv open = Val (sort.Slice lessStart (collected open files))
  /\ Permutation (collected open files)
       (sort.Slice lessStart (collected open files))
  /\ sortedByStart (sort.Slice lessStart (collected open files)) = true.
Proof.
  intros H3. unfold loadCsv.
  rewrite (loadFiles_three_fields open files H3 []). simpl.
  destruct (Slice_contract (collected open files)) as [HP Hadj].
  repeat split; [exact HP | now apply adjacent_sortedByStart].
Qed.

(** What [loadCsv] returns is sorted, whatever the files hold. *)
Lemma loadCsv_sorted (open : string -> option (list csv.Row))
  (arr : list IpAddressRange) :
  loadCsv open = Val arr -> sortedByStart arr = true.
Proof.
  unfold loadCsv. destruct (loadFiles open files []) as [inp | ];
    simpl; [ | discriminate].
  intros H. injection H as <-.
  apply adjacent_sortedByStart. apply Slice_contract.
Qed.

(** X8. Loading and searching together. When the files hold three-field
    rows whose ranges are well formed (start <= end) and pairwise
    disjoint, in whatever order and in whichever file, [loadCsv] returns
    an index on which a nonzero query is answered with country c exactly
    when a range of the files contains the query and has country c. *)
Theorem loaded_index_answers (open : string -> option (list csv.Row))
  (q : Z) :
  threeFieldFiles open files ->
  Forall wellFormed (collected open files) ->
  disjointRanges (collected open files) ->
  q <> 0 ->
  exists arr,
    loadCsv open = Val arr
    /\ forall c,
         lookup arr q = Val (Some c)
         <-> exists r, In r (collected open files)
                       /\ contains r q /\ country r = c.
Proof.
  intros H3 Hw Hd Hq.
  destruct (loadCsv_three_fields open H3) as (Hl & HP & Hs).
  set (arr := sort.Slice lessStart (collected open files)) in *.
  assert (Hn : nonOverlapping arr = true).
  { apply sorted_disjoint_nonOverlapping; [exact Hs | | ].
    - eapply Permutation_Forall; eassumption.
    - eapply disjointRanges_Permutation; eassumption. }
  exists arr. split; [exact Hl | ]. intros c. split.
  - intros Hit.
    destruct (lookup_hit arr q c Hit)
      as (idx & r & _ & _ & Hr & Hc & Hin & _).
    exists r. split; [ | split; assumption].
    apply (Permutation_in r (Permutation_sym HP)).
    eapply nth_error_In; eassumption.
  - intros (r & Hin & Hc & <-).
    apply lookup_contained; try assumption.
    apply (Permutation_in r HP Hin).
Qed.

Lemma twoFiles_three_fields : threeFieldFiles twoFiles files.
Proof.
  intros fi rows [<- | [<- | []]] E; vm_compute in E;
    injection E as <-; reflexivity.
Qed.

Lemma twoFiles_collected :
  collected twoFiles files
  = [ mkRange 16777472 16778239 "CN"; mkRange 16777216 16777471 "AU";
      mkRange 42540528726795050063891204319802818560
              42540528806023212578155541913346768895 "JP" ].
Proof. vm_compute. reflexivity. Qed.

Lemma loaded_index_answers_witness :
  exists arr,
    loadCsv twoFiles = Val arr
    /\ forall c,
         lookup arr 16777300 = Val (Some c)
         <-> exists r, In r (collected twoFiles files)
                       /\ contains r 16777300 /\ country r = c.
Proof.
  apply (loaded_index_answers twoFiles 16777300).
  - exact twoFiles_three_fields.
  - rewrite twoFiles_collected.
    repeat constructor; unfold wellFormed; simpl; lia.
  - rewrite twoFiles_collected. unfold disjointRanges, apart; simpl.
    repeat constructor; lia.
  - discriminate.
Defined.

(** ** Where the ranges of the index come from *)

Lemma parseRecord_Some (rec : list string) (r : IpAddressRange) :
  parseRecord rec = Val (Some r) -> fromRow r (csv.Fields rec).
Proof.
  unfold parseRecord, index. intros H.
  destruct rec as [ | f0 [ | f1 [ | f2 more]]]; simpl in H; try discriminate.
  - destruct (big.SetString f0); discriminate.
  - destruct (big.SetString f0); try discriminate.
    simpl in H. destruct (big.SetString f1); discriminate.
  - destruct (big.SetString f0) as [st|] eqn:E0; try discriminate.
    simpl in H. destruct (big.SetString f1) as [en|] eqn:E1; try discriminate.
    simpl in H. injection H as <-.
    exists f0, f1, f2, more. simpl. auto.
Qed.

Lemma readRecord_Fields (fpr : nat) (row : csv.Row) (rec : list string)
  (fpr' : nat) :
  csv.readRecord fpr row = (rec, false, fpr') -> row = csv.Fields rec.
Proof.
  destruct row as [dst | ]; simpl; [ | discriminate].
  destruct (0 <? fpr)%nat; intros E; f_equal; congruence.
Qed.

(** The record loop only appends: what it returns is the slice it was
    given followed by at most one range per row, each made from one of
    the rows. *)
Lemma readRecords_appends (rows : list csv.Row) :
  forall fpr arr out,
    readRecords rows fpr arr = Val out ->
    exists added,
      out = arr ++ added
      /\ (List.length added <= List.length rows)%nat
      /\ Forall (fun r => exists row, In row rows /\ fromRow r row) added.
Proof.
  induction rows as [ | row rest IH]; intros fpr arr out H; simpl in H.
  - injection H as <-. exists []. rewrite app_nil_r. simpl. auto.
  - destruct (csv.readRecord fpr row) as [[rec [ | ]] fpr'] eqn:Er.
    + injection H as <-. exists []. rewrite app_nil_r. simpl.
      repeat split; [lia | constructor].
    + apply readRecord_Fields in Er as ->.
      destruct (parseRecord rec) as [[r | ] | ] eqn:Ep; simpl in H;
        try discriminate.
      * apply IH in H as (added & -> & Hlen & Hall).
        exists (r :: added). rewrite <- app_assoc. simpl.
        repeat split; [lia | ]. constructor.
        -- exists (csv.Fields rec). split; [now left | ].
           now apply parseRecord_Some.
        -- eapply Forall_impl; [ | exact Hall].
           intros x (row & Hin & Hx). exists row.
           split; [now right | exact Hx].
      * apply IH in H as (added & -> & Hlen & Hall).
        exists added. repeat split; [simpl; lia | ].
        eapply Forall_impl; [ | exact Hall].
        intros x (row & Hin & Hx). exists row.
        split; [now right | exact Hx].
Qed.

Lemma loadFiles_appends (open : string -> option (list csv.Row))
  (fs : list fileInfo) :
  forall arr out,
    loadFiles open fs arr = Val out ->
    exists added,
      out = arr ++ added
      /\ Forall (fun r => exists fi rows row,
                           In fi fs /\ open (LocalName fi) = Some rows
                           /\ In row rows /\ fromRow r row) added.
Proof.
  induction fs as [ | fi fs' IH]; intros arr out H; simpl in H.
  - injection H as <-. exists []. rewrite app_nil_r. auto.
  - destruct (open (LocalName fi)) as [rows | ] eqn:Eo.
    + destruct (readRecords rows 0 arr) as [arr' | ] eqn:Er; simpl in H;
        try discriminate.
      apply readRecords_appends in Er as (a1 & -> & _ & H1).
      apply IH in H as (a2 & -> & H2).
      exists (a1 ++ a2). rewrite app_assoc. split; [reflexivity | ].
      apply Forall_app. split.
      * eapply Forall_impl; [ | exact H1].
        intros r (row & Hin & Hr). exists fi, rows, row.
        repeat split; auto. now left.
      * eapply Forall_impl; [ | exact H2].
        intros r (fi' & rows' & row & Hfi & Ho & Hin & Hr).
        exists fi', rows', row. repeat split; auto. now right.
    + apply IH in H as (a2 & -> & H2). exists a2. split; [reflexivity | ].
      eapply Forall_impl; [ | exact H2].
      intros r (fi' & rows' & row & Hfi & Ho & Hin & Hr).
      exists fi', rows', row. repeat split; auto. now right.
Qed.

(** X9. Every range of the index [loadCsv] returns was made from a row
    of a file that opened: the row has at least three fields, its first
    two fields read as the bounds of the range and its third field is
    the country; fields after the third are ignored. *)
Theorem index_ranges_come_from_rows
  (open : string -> option (list csv.Row)) (arr : list IpAddressRange)
  (r : IpAddressRange) :
  loadCsv open = Val arr ->
  In r arr ->
  exists fi rows row,
    In fi files /\ open (LocalName fi) = Some rows
    /\ In row rows /\ fromRow r row.
Proof.
  unfold loadCsv. intros H Hin.
  destruct (loadFiles open files []) as [inp | ] eqn:El; simpl in H;
    try discriminate.
  injection H as <-.
  apply loadFiles_appends in El as (added & -> & Hall). simpl in *.
  destruct (Slice_contract added) as [HP _].
  apply (Permutation_in r (Permutation_sym HP)) in Hin.
  rewrite Forall_forall in Hall. now apply Hall.
Qed.

Lemma index_ranges_come_from_rows_witness :
  exists fi rows row,
    In fi files /\ twoFiles (LocalName fi) = Some rows
    /\ In row rows /\ fromRow (mkRange 16777216 16777471 "AU") row.
Proof.
  apply (index_ranges_come_from_rows twoFiles
           [ mkRange 16777216 16777471 "AU";
             mkRange 16777472 16778239 "CN";
             mkRange 42540528726795050063891204319802818560
                     42540528806023212578155541913346768895 "JP" ]).
  - vm_compute. reflexivity.
  - left. reflexivity.
Defined.

(** ** When loadCsv cannot panic *)

Lemma parseRecord_wide (rec : list string) :
  (3 <= List.length rec)%nat -> exists o, parseRecord rec = Val o.
Proof.
  intros H. destruct rec as [ | f0 [ | f1 [ | f2 more]]];
    simpl in H; try lia.
  unfold parseRecord, index. simpl.
  destruct (big.SetString f0); simpl; [ | eauto].
  destruct (big.SetString f1); simpl; eauto.
Qed.

(** Once [FieldsPerRecord] is three or more, the record loop cannot
    panic: a row of another length is a read error, which ends it. *)
Lemma readRecords_wide (rows : list csv.Row) :
  forall fpr arr,
    (3 <= fpr)%nat -> exists out, readRecords rows fpr arr = Val out.
Proof.
  induction rows as [ | row rest IH]; intros fpr arr Hf; simpl; [eauto | ].
  destruct row as [rec | ]; simpl; [ | eauto].
  destruct (0 <? fpr)%nat eqn:E0; [ | apply Nat.ltb_ge in E0; lia].
  destruct (List.length rec =? fpr)%nat eqn:El; simpl; [ | eauto].
  apply Nat.eqb_eq in El.
  destruct (parseRecord_wide rec) as [[r | ] ->]; [lia | | ]; simpl;
    now apply IH.
Qed.

Lemma readRecords_wide_first (rows : list csv.Row)
  (arr : list IpAddressRange) :
  wideFirstRow rows -> exists out, readRecords rows 0 arr = Val out.
Proof.
  destruct rows as [ | [rec | ] rest]; simpl; intros H; eauto.
  destruct (parseRecord_wide rec H) as [[r | ] ->]; simpl;
    now apply readRecords_wide.
Qed.

Lemma loadFiles_wide (open : string -> option (list csv.Row))
  (fs : list fileInfo) :
  (forall fi rows,
     In fi fs -> open (LocalName fi) = Some rows -> wideFirstRow rows) ->
  forall arr, exists out, loadFiles open fs arr = Val out.
Proof.
  induction fs as [ | fi fs' IH]; intros Hw arr; simpl; [eauto | ].
  assert (Hw' : forall fi' rows,
             In fi' fs' -> open (LocalName fi') = Some rows ->
             wideFirstRow rows)
    by (intros fi' rows Hin; apply Hw; now right).
  destruct (open (LocalName fi)) as [rows | ] eqn:Eo; [ | now apply IH].
  destruct (readRecords_wide_first rows arr) as [out ->];
    [apply (Hw fi); [now left | exact Eo] | ].
  simpl. now apply IH.
Qed.

(** X10. [loadCsv] returns, without a panic, whenever the first row of
    each file that opens has three fields or more. The later rows need
    no condition: the reader holds every row to the field count of the
    first one, so a shorter row is a read error, which ends the file,
    before the record loop can index it. *)
Theorem loadCsv_returns_when_first_rows_are_wide
  (open : string -> option (list csv.Row)) :
  (forall fi rows,
     In fi files -> open (LocalName fi) = Some rows -> wideFirstRow rows) ->
  exists arr, loadCsv open = Val arr.
Proof.
  intros Hw. unfold loadCsv.
  destruct (loadFiles_wide open files Hw []) as [out ->]. simpl. eauto.
Qed.

Lemma wideRows_wide (fi : fileInfo) (rows : list csv.Row) :
  In fi files -> wideRows (LocalName fi) = Some rows -> wideFirstRow rows.
Proof.
  intros [<- | [<- | []]] E; vm_compute in E; [ | discriminate].
  injection E as <-. simpl. lia.
Qed.

Lemma loadCsv_returns_when_first_rows_are_wide_witness :
  exists arr, loadCsv wideRows = Val arr.
Proof.
  apply (loadCsv_returns_when_first_rows_are_wide wideRows).
  exact wideRows_wide.
Defined.

(** ** Decimal bounds *)

Ltac scan_digit :=
  cbn [Pos.of_uint_acc Pos.of_uint NilEmpty.string_of_uint
       list_ascii_of_string big.scanDigits];
  match goal with
  | |- context [big.digitVal ?c] =>
      let v := eval vm_compute in (big.digitVal c) in
      change (big.digitVal c) with v
  end;
  cbv iota beta.

Lemma scanDigits_acc (d : Decimal.uint) :
  forall p : positive,
    big.scanDigits (list_ascii_of_string (NilEmpty.string_of_uint d))
      (Z.pos p)
    = Some (Z.pos (Pos.of_uint_acc d p)).
Proof.
  induction d; intros p; [reflexivity | .. ]; scan_digit;
    match goal with
    | |- big.scanDigits _ ?a = Some (Z.pos (Pos.of_uint_acc _ ?b)) =>
        replace a with (Z.pos b) by lia
    end; apply IHd.
Qed.

Lemma scanDigits_uint (d : Decimal.uint) :
  big.scanDigits (list_ascii_of_string (NilEmpty.string_of_uint d)) 0
  = Some (Z.of_uint d).
Proof.
  unfold Z.of_uint.
  induction d; [reflexivity | .. ]; scan_digit;
    [exact IHd | .. ]; apply (scanDigits_acc d).
Qed.

Lemma scanNat_uint (d : Decimal.uint) :
  big.scanNat (list_ascii_of_string (NilZero.string_of_uint d))
  = Some (Z.of_uint d).
Proof.
  destruct d; try reflexivity;
    unfold big.scanNat, NilZero.string_of_uint;
    rewrite <- scanDigits_uint; reflexivity.
Qed.

(** [SetString] reads every decimal numeral, with or without leading
    zeros and whatever its length. *)
Lemma SetString_int (i : Decimal.signed_int) :
  big.SetString (NilZero.string_of_int i) = Some (Z.of_int i).
Proof.
  destruct i as [d | d]; unfold big.SetString; simpl.
  - rewrite <- scanNat_uint. destruct d; reflexivity.
  - rewrite scanNat_uint. reflexivity.
Qed.

Lemma SetString_decimal (z : Z) : big.SetString (decimal z) = Some z.
Proof.
  unfold decimal. rewrite SetString_int, DecimalZ.of_to. reflexivity.
Qed.

(** X11. The record loop reads back every integer written in decimal,
    of whatever size and sign: a row whose first two fields are the
    decimal forms of s and e gives the range from s to e with the third
    field as its country. Nothing is truncated to a machine word, and
    the bounds are not checked: a negative bound or a range with
    s > e is stored as it is. *)
Theorem decimal_row_is_read_back (s e : Z) (c : string)
  (more : list string) (rest : list csv.Row) (arr : list IpAddressRange) :
  big.SetString (decimal s) = Some s
  /\ parseRecord (decimal s :: decimal e :: c :: more)
     = Val (Some (mkRange s e c))
  /\ readRecords (csv.Fields [decimal s; decimal e; c] :: rest) 0 arr
     = readRecords rest 3 (arr ++ [mkRange s e c]).
Proof.
  split; [apply SetString_decimal | ]. split.
  - unfold parseRecord, index. simpl.
    rewrite !SetString_decimal. reflexivity.
  - rewrite readRecords_three by (now left).
    rewrite !SetString_decimal. reflexivity.
Qed.

(** ** The earlier revision *)




(** ** updateCsvFiles *)

Lemma writeFile_same (fs : FileSystem) (path content : string) :
  writeFile fs path content path = Some content.
Proof. unfold writeFile. now rewrite String.eqb_refl. Qed.

Lemma writeFile_other (fs : FileSystem) (path content p : string) :
  p <> path -> writeFile fs path content p = fs p.
Proof.
  intros H. unfold writeFile.
  destruct (String.eqb_spec p path); [contradiction | reflexivity].
Qed.

Lemma writeFile_keeps (fs : FileSystem) (path content p : string) :
  fs p <> None -> writeFile fs path content p <> None.
Proof.
  intros H. unfold writeFile.
  destruct (String.eqb p path); [discriminate | exact H].
Qed.

Lemma files_distinct : NoDup (map localPath files).
Proof.
  repeat constructor; simpl; [ | tauto].
  intros [E | []]. discriminate E.
Qed.

Section UpdateFacts.

Variable http_Get : string -> option http.Response.
Variable decodeMeta : http.Response -> option githubContent.
Variable sha1hex : string -> string.
Variable createFails : string -> bool.
Variable unreadable : string -> bool.

Local Abbreviation updateFile' :=
  (updateFile http_Get decodeMeta sha1hex createFails unreadable).
Local Abbreviation updateFiles' :=
  (updateFiles http_Get decodeMeta sha1hex createFails unreadable).
Local Abbreviation upToDate' :=
  (upToDate http_Get decodeMeta sha1hex unreadable).

(** One turn of the loop leaves the file system as it is or writes the
    body of a download to the file of the turn; it returns without an
    error only when that file exists afterwards. *)
Lemma updateFile_cases (autoUpdate : bool) (fs : FileSystem)
  (fi : fileInfo) (e : option updateError) (fs' : FileSystem) :
  updateFile' autoUpdate fs fi = (e, fs') ->
  ((fs' = fs /\ e <> Some ErrCopy)
   \/ exists dl, fs' = writeFile fs (localPath fi) (http.Body dl)
                 /\ (e = None \/ e = Some ErrCopy)
                 /\ (http.BodyErr dl = true <-> e = Some ErrCopy))
  /\ (e = None -> fs' (localPath fi) <> None).
Proof.
  unfold updateFile. intros H.
  destruct (fs (localPath fi)) as [data | ] eqn:Ef; simpl in H.
  - destruct autoUpdate; simpl in H.
    2:{ injection H as <- <-.
        split; [left; split; [reflexivity | discriminate]
               | intros _; congruence]. }
    destruct (http_Get (apiURL fi)) as [resp | ];
      [ | injection H as <- <-;
          split; [left; split; [reflexivity | discriminate] | discriminate]].
    destruct (negb (http.StatusCode resp =? http.StatusOK));
      [injection H as <- <-;
       split; [left; split; [reflexivity | discriminate] | discriminate] | ].
    destruct (decodeMeta resp) as [meta | ];
      [ | injection H as <- <-;
          split; [left; split; [reflexivity | discriminate] | discriminate]].
    destruct (if unreadable (localPath fi) then true
              else negb (String.eqb (localSha sha1hex data) (SHA meta))).
    + destruct (http_Get (DownloadURL meta)) as [dl | ];
        [ | injection H as <- <-;
            split; [left; split; [reflexivity | discriminate]
                   | discriminate]].
      destruct (createFails (localPath fi));
        [injection H as <- <-;
         split; [left; split; [reflexivity | discriminate]
                | discriminate] | ].
      destruct (http.BodyErr dl) eqn:Eb; injection H as <- <-.
      * split; [ | discriminate]. right. exists dl.
        repeat split; auto.
      * split; [ | intros _; rewrite writeFile_same; discriminate].
        right. exists dl. repeat split; auto; try discriminate. congruence.
    + injection H as <- <-.
      split; [left; split; [reflexivity | discriminate]
             | intros _; congruence].
  - destruct (http_Get (apiURL fi)) as [resp | ];
      [ | injection H as <- <-;
          split; [left; split; [reflexivity | discriminate] | discriminate]].
    destruct (negb (http.StatusCode resp =? http.StatusOK));
      [injection H as <- <-;
       split; [left; split; [reflexivity | discriminate] | discriminate] | ].
    destruct (decodeMeta resp) as [meta | ];
      [ | injection H as <- <-;
          split; [left; split; [reflexivity | discriminate] | discriminate]].
    destruct (http_Get (DownloadURL meta)) as [dl | ];
      [ | injection H as <- <-;
          split; [left; split; [reflexivity | discriminate] | discriminate]].
    destruct (createFails (localPath fi));
      [injection H as <- <-;
       split; [left; split; [reflexivity | discriminate] | discriminate] | ].
    destruct (http.BodyErr dl) eqn:Eb; injection H as <- <-.
    + split; [ | discriminate]. right. exists dl. repeat split; auto.
    + split; [ | intros _; rewrite writeFile_same; discriminate].
      right. exists dl. repeat split; auto; try discriminate. congruence.
Qed.

Lemma updateFile_frame (autoUpdate : bool) (fs : FileSystem)
  (fi : fileInfo) (e : option updateError) (fs' : FileSystem) :
  updateFile' autoUpdate fs fi = (e, fs') ->
  (forall p, p <> localPath fi -> fs' p = fs p)
  /\ (forall p, fs p <> None -> fs' p <> None).
Proof.
  intros H.
  destruct (updateFile_cases _ _ _ _ _ H) as [[[-> _] | (dl & -> & _)] _].
  - auto.
  - split; intros p Hp; [now apply writeFile_other | now apply writeFile_keeps].
Qed.

(** What the loop leaves: the other paths as they were, no file fewer,
    and, when it returns without an error, every file it went through. *)
Lemma updateFiles_post (autoUpdate : bool) (fis : list fileInfo) :
  forall fs e fs',
    updateFiles' autoUpdate fs fis = (e, fs') ->
    (forall p, (forall fi, In fi fis -> p <> localPath fi) -> fs' p = fs p)
    /\ (forall p, fs p <> None -> fs' p <> None)
    /\ (e = None -> forall fi, In fi fis -> fs' (localPath fi) <> None).
Proof.
  induction fis as [ | fi rest IH]; intros fs e fs' H; simpl in H.
  - injection H as <- <-. split; [reflexivity | ].
    split; [auto | intros _ fi []].
  - destruct (updateFile' autoUpdate fs fi) as [[e1 | ] fs1] eqn:E1.
    + injection H as <- <-.
      destruct (updateFile_frame _ _ _ _ _ E1) as [Hf Hk].
      split; [ | split; [exact Hk | discriminate]].
      intros p Hp. apply Hf. apply Hp. now left.
    + destruct (updateFile_frame _ _ _ _ _ E1) as [Hf Hk].
      destruct (updateFile_cases _ _ _ _ _ E1) as [_ Hex].
      destruct (IH _ _ _ H) as (Hf' & Hk' & Hex').
      repeat split.
      * intros p Hp. rewrite Hf' by (intros fi' Hin; apply Hp; now right).
        apply Hf. apply Hp. now left.
      * intros p Hp. apply Hk', Hk, Hp.
      * intros -> fi' [<- | Hin].
        -- apply Hk'. now apply Hex.
        -- now apply Hex'.
Qed.

(** With every file present and [AUTO_UPDATE] off, the loop does nothing. *)
Lemma updateFiles_present (fis : list fileInfo) (fs : FileSystem) :
  (forall fi, In fi fis -> fs (localPath fi) <> None) ->
  updateFiles' false fs fis = (None, fs).
Proof.
  induction fis as [ | fi rest IH]; intros Hp; simpl; [reflexivity | ].
  assert (E : updateFile' false fs fi = (None, fs)).
  { unfold updateFile. destruct (fs (localPath fi)) eqn:Ef; [reflexivity | ].
    exfalso. apply (Hp fi); [now left | exact Ef]. }
  rewrite E. apply IH. intros fi' Hin. apply Hp. now right.
Qed.

(** A file that is up to date is left alone, the flag on or off. *)
Lemma updateFile_upToDate (autoUpdate : bool) (fs : FileSystem)
  (fi : fileInfo) :
  upToDate' fs fi -> updateFile' autoUpdate fs fi = (None, fs).
Proof.
  intros (resp & meta & data & Hg & Hs & Hd & Hf & Hu & Hsha).
  unfold updateFile. rewrite Hf. simpl.
  destruct autoUpdate; [ | reflexivity].
  rewrite Hg, Hs, Hd, Hu, Hsha, String.eqb_refl. reflexivity.
Qed.

Lemma updateFiles_upToDate (autoUpdate : bool) (fis : list fileInfo)
  (fs : FileSystem) :
  (forall fi, In fi fis -> upToDate' fs fi) ->
  updateFiles' autoUpdate fs fis = (None, fs).
Proof.
  induction fis as [ | fi rest IH]; intros Hp; simpl; [reflexivity | ].
  rewrite updateFile_upToDate by (apply Hp; now left).
  apply IH. intros fi' Hin. apply Hp. now right.
Qed.

Lemma upToDate_frame (fs fs' : FileSystem) (fi : fileInfo) :
  fs' (localPath fi) = fs (localPath fi) ->
  upToDate' fs fi -> upToDate' fs' fi.
Proof.
  intros E (resp & meta & data & Hg & Hs & Hd & Hf & Hu & Hsha).
  exists resp, meta, data. rewrite E. auto 10.
Qed.

(** With [AUTO_UPDATE] on, a turn that returns without an error leaves
    its file up to date, when the file can be read and the remote is
    consistent. *)
Lemma updateFile_syncs (fs : FileSystem) (fi : fileInfo)
  (fs' : FileSystem) :
  consistentRemote http_Get decodeMeta sha1hex fi ->
  unreadable (localPath fi) = false ->
  updateFile' true fs fi = (None, fs') ->
  upToDate' fs' fi.
Proof.
  intros Hc Hu H. unfold updateFile in H.
  rewrite orb_true_r in H.
  destruct (http_Get (apiURL fi)) as [resp | ] eqn:Hg; [ | discriminate].
  destruct (http.StatusCode resp =? http.StatusOK) eqn:Hs;
    simpl in H; [ | discriminate].
  apply Z.eqb_eq in Hs.
  destruct (decodeMeta resp) as [meta | ] eqn:Hd; [ | discriminate].
  rewrite Hu in H.
  assert (Hdl : forall dl,
            http_Get (DownloadURL meta) = Some dl ->
            upToDate' (writeFile fs (localPath fi) (http.Body dl)) fi).
  { intros dl Hget. exists resp, meta, (http.Body dl).
    rewrite writeFile_same. repeat split; auto.
    exact (Hc resp meta dl Hg Hd Hget). }
  destruct (fs (localPath fi)) as [data | ] eqn:Hf.
  - destruct (String.eqb (localSha sha1hex data) (SHA meta)) eqn:Hsha;
      simpl in H.
    + injection H as <-. apply String.eqb_eq in Hsha.
      exists resp, meta, data. auto 10.
    + destruct (http_Get (DownloadURL meta)) as [dl | ] eqn:Hget;
        [ | discriminate].
      destruct (createFails (localPath fi)); [discriminate | ].
      destruct (http.BodyErr dl); [discriminate | ].
      injection H as <-. now apply Hdl.
  - destruct (http_Get (DownloadURL meta)) as [dl | ] eqn:Hget;
      [ | discriminate].
    destruct (createFails (localPath fi)); [discriminate | ].
    destruct (http.BodyErr dl); [discriminate | ].
    injection H as <-. now apply Hdl.
Qed.

Lemma updateFiles_syncs (fis : list fileInfo) :
  NoDup (map localPath fis) ->
  (forall fi, In fi fis ->
              consistentRemote http_Get decodeMeta sha1hex fi
              /\ unreadable (localPath fi) = false) ->
  forall fs fs',
    updateFiles' true fs fis = (None, fs') ->
    forall fi, In fi fis -> upToDate' fs' fi.
Proof.
  induction fis as [ | fi0 rest IH]; intros Hnd Hok fs fs' H fi Hin;
    [destruct Hin | ].
  simpl in H. simpl in Hnd. inversion Hnd as [ | ? ? Hnot Hnd']; subst.
  destruct (updateFile' true fs fi0) as [[e1 | ] fs1] eqn:E1;
    [discriminate | ].
  destruct Hin as [<- | Hin].
  - destruct (Hok fi0 (or_introl eq_refl)) as [Hc Hu].
    pose proof (updateFile_syncs fs fi0 fs1 Hc Hu E1) as Up.
    eapply upToDate_frame; [ | exact Up].
    destruct (updateFiles_post _ _ _ _ _ H) as [Hf _].
    apply Hf. intros fi' Hin' E. apply Hnot. rewrite E.
    now apply in_map.
  - eapply IH; eauto. intros fi' Hin'. apply Hok. now right.
Qed.



End UpdateFacts.

(** X13. When both data files exist and [AUTO_UPDATE] is not on,
    [updateCsvFiles] returns nil and leaves the file system as it is,
    whatever the network would answer and whatever the files hold: no
    request is made and no file is checked. *)
Theorem present_files_need_no_network
  (http_Get : string -> option http.Response)
  (decodeMeta : http.Response -> option githubContent)
  (sha1hex : string -> string) (createFails unreadable : string -> bool)
  (fs : FileSystem) :
  allPresent fs ->
  updateCsvFiles http_Get decodeMeta sha1hex false createFails unreadable
    false fs
  = (None, fs).
Proof. intros H. unfold updateCsvFiles. now apply updateFiles_present. Qed.

Lemma staleFiles_present : allPresent staleFiles.
Proof. intros fi [<- | [<- | []]]; discriminate. Qed.

Lemma present_files_need_no_network_witness :
  updateCsvFiles offline noMeta mirrorHash false never never false staleFiles
  = (None, staleFiles).
Proof.
  apply (present_files_need_no_network offline noMeta mirrorHash never never
           staleFiles).
  exact staleFiles_present.
Defined.

(** X14. Whatever [updateCsvFiles] returns, it has written to the two
    data files only and has removed no file; when it returns nil, both
    data files exist. *)
Theorem update_touches_data_files_only
  (http_Get : string -> option http.Response)
  (decodeMeta : http.Response -> option githubContent)
  (sha1hex : string -> string) (mkdirFails : bool)
  (createFails unreadable : string -> bool)
  (autoUpdate : bool) (fs : FileSystem)
  (e : option updateError) (fs' : FileSystem) :
  updateCsvFiles http_Get decodeMeta sha1hex mkdirFails createFails
    unreadable autoUpdate fs
  = (e, fs') ->
  (forall p, foreignPath p -> fs' p = fs p)
  /\ (forall p, fs p <> None -> fs' p <> None)
  /\ (e = None -> allPresent fs').
Proof.
  unfold updateCsvFiles. destruct mkdirFails.
  - intros H. injection H as <- <-. repeat split; auto. discriminate.
  - intros H. exact (updateFiles_post _ _ _ _ _ _ _ _ _ _ H).
Qed.

Lemma update_touches_data_files_only_witness :
  (forall p, foreignPath p -> mirrored p = noFiles p)
  /\ allPresent mirrored.
Proof.
  destruct (update_touches_data_files_only mirror mirrorMeta mirrorHash
              false never never false noFiles None mirrored eq_refl)
    as (A & _ & C).
  split; [exact A | exact (C eq_refl)].
Defined.

Section Written.

Variable http_Get : string -> option http.Response.
Variable decodeMeta : http.Response -> option githubContent.
Variable sha1hex : string -> string.
Variable createFails : string -> bool.
Variable unreadable : string -> bool.

Local Abbreviation updateFile' :=
  (updateFile http_Get decodeMeta sha1hex createFails unreadable).
Local Abbreviation updateFiles' :=
  (updateFiles http_Get decodeMeta sha1hex createFails unreadable).

(** What a turn of the loop writes, if it writes: the body behind the
    download URL the contents API gave for the file. *)
Lemma updateFile_written (autoUpdate : bool) (fs : FileSystem)
  (fi : fileInfo) (e : option updateError) (fs' : FileSystem) :
  updateFile' autoUpdate fs fi = (e, fs') ->
  (fs' = fs /\ e <> Some ErrCopy)
  \/ exists dl,
       fs' = writeFile fs (localPath fi) (http.Body dl)
       /\ downloadedFor http_Get decodeMeta fs' fi dl
       /\ (http.BodyErr dl = true <-> e = Some ErrCopy)
       /\ (http.BodyErr dl = false <-> e = None).
Proof.
  unfold updateFile. intros H.
  destruct (negb match fs (localPath fi) with Some _ => true | None => false end
            || autoUpdate);
    [ | injection H as <- <-; left; split; [reflexivity | discriminate]].
  destruct (http_Get (apiURL fi)) as [resp | ] eqn:Hg;
    [ | injection H as <- <-; left; split; [reflexivity | discriminate]].
  destruct (http.StatusCode resp =? http.StatusOK) eqn:Hs; simpl in H;
    [ | injection H as <- <-; left; split; [reflexivity | discriminate]].
  apply Z.eqb_eq in Hs.
  destruct (decodeMeta resp) as [meta | ] eqn:Hd;
    [ | injection H as <- <-; left; split; [reflexivity | discriminate]].
  match type of H with
  | (if ?b then _ else _) = _ =>
      destruct b;
      [ | injection H as <- <-; left; split; [reflexivity | discriminate]]
  end.
  destruct (http_Get (DownloadURL meta)) as [dl | ] eqn:Hget;
    [ | injection H as <- <-; left; split; [reflexivity | discriminate]].
  destruct (createFails (localPath fi));
    [injection H as <- <-; left; split; [reflexivity | discriminate] | ].
  right. exists dl.
  assert (D : downloadedFor http_Get decodeMeta
                (writeFile fs (localPath fi) (http.Body dl)) fi dl).
  { exists resp, meta. rewrite writeFile_same. auto. }
  destruct (http.BodyErr dl); injection H as <- <-;
    (split; [reflexivity | ]; split; [exact D | ]);
    split; split; congruence.
Qed.

Lemma downloadedFor_frame (fs fs' : FileSystem) (fi : fileInfo)
  (dl : http.Response) :
  fs' (localPath fi) = fs (localPath fi) ->
  downloadedFor http_Get decodeMeta fs fi dl ->
  downloadedFor http_Get decodeMeta fs' fi dl.
Proof.
  intros E (resp & meta & H). exists resp, meta. rewrite E. exact H.
Qed.

Lemma updateFiles_written (autoUpdate : bool) (fis : list fileInfo) :
  NoDup (map localPath fis) ->
  forall fs e fs',
    updateFiles' autoUpdate fs fis = (e, fs') ->
    forall fi, In fi fis ->
      fs' (localPath fi) = fs (localPath fi)
      \/ exists dl,
           downloadedFor http_Get decodeMeta fs' fi dl
           /\ (http.BodyErr dl = true -> e = Some ErrCopy).
Proof.
  induction fis as [ | fi0 rest IH]; intros Hnd fs e fs' H fi Hin;
    [destruct Hin | ].
  simpl in H. simpl in Hnd. inversion Hnd as [ | ? ? Hnot Hnd']; subst.
  destruct (updateFile' autoUpdate fs fi0) as [e1 fs1] eqn:E1.
  pose proof (updateFile_written _ _ _ _ _ E1) as W.
  destruct (updateFile_frame _ _ _ _ _ _ _ _ _ _ E1) as [Hf1 _].
  destruct e1 as [e1 | ].
  - injection H as <- <-.
    destruct Hin as [<- | Hin].
    + destruct W as [[-> _] | (dl & _ & D & Hb & _)]; [now left | ].
      right. exists dl. split; [exact D | apply Hb].
    + left. apply Hf1. intros E. apply Hnot. rewrite <- E. now apply in_map.
  - destruct (updateFiles_post _ _ _ _ _ _ _ _ _ _ H) as [Hf _].
    destruct Hin as [<- | Hin].
    + assert (Ek : fs' (localPath fi0) = fs1 (localPath fi0)).
      { apply Hf. intros fi' Hin' E. apply Hnot. rewrite E. now apply in_map. }
      destruct W as [[-> _] | (dl & _ & D & _ & Hn)]; [now left | ].
      right. exists dl. split.
      * eapply downloadedFor_frame; eassumption.
      * intros Hb. assert (http.BodyErr dl = false) by now apply Hn.
        congruence.
    + destruct (IH Hnd' _ _ _ H fi Hin) as [Ek | R]; [ | now right].
      left. rewrite Ek. apply Hf1.
      intros E. apply Hnot. rewrite <- E. now apply in_map.
Qed.

End Written.

(** X15. What [updateCsvFiles] leaves in a data file. Whatever it
    returns, each data file is as it was before, or holds the body of
    the response behind the download URL that the contents API gave for
    that file in an answer with status 200. The body is the whole one
    unless the error returned is that of [io.Copy]. The status of the
    download response itself is not looked at. *)
Theorem update_writes_downloads_only
  (http_Get : string -> option http.Response)
  (decodeMeta : http.Response -> option githubContent)
  (sha1hex : string -> string) (mkdirFails : bool)
  (createFails unreadable : string -> bool)
  (autoUpdate : bool) (fs : FileSystem)
  (e : option updateError) (fs' : FileSystem) (fi : fileInfo) :
  updateCsvFiles http_Get decodeMeta sha1hex mkdirFails createFails
    unreadable autoUpdate fs
  = (e, fs') ->
  In fi files ->
  fs' (localPath fi) = fs (localPath fi)
  \/ exists dl,
       downloadedFor http_Get decodeMeta fs' fi dl
       /\ (http.BodyErr dl = true -> e = Some ErrCopy).
Proof.
  unfold updateCsvFiles. destruct mkdirFails.
  - intros H _. injection H as <- <-. now left.
  - intros H Hin.
    exact (updateFiles_written _ _ _ _ _ _ _ files_distinct _ _ _ H fi Hin).
Qed.

Lemma update_writes_downloads_only_witness :
  exists dl,
    downloadedFor halfBroken halfBrokenMeta
      (snd (updateCsvFiles halfBroken halfBrokenMeta mirrorHash false never
              never false noFiles))
      (mkFileInfo "geo-asn-country/geo-asn-country-ipv6-num.csv"
         "geo-asn-country-ipv6-num.csv") dl
    /\ (http.BodyErr dl = true ->
        fst (updateCsvFiles halfBroken halfBrokenMeta mirrorHash false never
               never false noFiles)
        = Some ErrCopy).
Proof.
  destruct (update_writes_downloads_only halfBroken halfBrokenMeta
              mirrorHash false never never false noFiles (Some ErrCopy)
              (snd (updateCsvFiles halfBroken halfBrokenMeta mirrorHash
                      false never never false noFiles))
              (mkFileInfo "geo-asn-country/geo-asn-country-ipv6-num.csv"
                 "geo-asn-country-ipv6-num.csv")
              eq_refl (or_intror (or_introl eq_refl))) as [E | R].
  - discriminate E.
  - exact R.
Defined.

(** X16. A data file that can be read and whose git blob id is the
    one the contents API publishes is left alone: when both files are
    so, [updateCsvFiles] returns nil and changes nothing, with
    [AUTO_UPDATE] on or off, and whatever the download URL would give. *)
Theorem up_to_date_files_left_alone
  (http_Get : string -> option http.Response)
  (decodeMeta : http.Response -> option githubContent)
  (sha1hex : string -> string) (createFails unreadable : string -> bool)
  (autoUpdate : bool) (fs : FileSystem) :
  (forall fi, In fi files ->
              upToDate http_Get decodeMeta sha1hex unreadable fs fi) ->
  updateCsvFiles http_Get decodeMeta sha1hex false createFails unreadable
    autoUpdate fs
  = (None, fs).
Proof. intros H. unfold updateCsvFiles. now apply updateFiles_upToDate. Qed.

Lemma mirrored_upToDate (fi : fileInfo) :
  In fi files -> upToDate mirror mirrorMeta mirrorHash never mirrored fi.
Proof.
  intros [<- | [<- | []]];
    exists (http.mkResponse 200 "1,2,AA" false),
           (mkGithubContent "0f" "https://raw.githubusercontent.com/f.csv"),
           "1,2,AA"%string;
    repeat split.
Qed.

Lemma up_to_date_files_left_alone_witness :
  updateCsvFiles mirror mirrorMeta mirrorHash false never never true mirrored
  = (None, mirrored).
Proof.
  apply (up_to_date_files_left_alone mirror mirrorMeta mirrorHash never never
           true mirrored).
  exact mirrored_upToDate.
Defined.

(** X17. Updating is idempotent. When the remote is consistent (the
    body behind the download URL has the published blob id) and the data
    files can be read, a run with [AUTO_UPDATE] on that returns nil
    leaves both files up to date, and any further run, with the flag on
    or off, returns nil and changes nothing. *)
Theorem update_is_idempotent
  (http_Get : string -> option http.Response)
  (decodeMeta : http.Response -> option githubContent)
  (sha1hex : string -> string) (createFails unreadable : string -> bool)
  (fs fs1 : FileSystem) :
  (forall fi, In fi files ->
              consistentRemote http_Get decodeMeta sha1hex fi
              /\ unreadable (localPath fi) = false) ->
  updateCsvFiles http_Get decodeMeta sha1hex false createFails unreadable
    true fs
  = (None, fs1) ->
  (forall fi, In fi files ->
              upToDate http_Get decodeMeta sha1hex unreadable fs1 fi)
  /\ forall autoUpdate,
       updateCsvFiles http_Get decodeMeta sha1hex false createFails
         unreadable autoUpdate fs1
       = (None, fs1).
Proof.
  intros Hok H. unfold updateCsvFiles in *.
  pose proof (updateFiles_syncs _ _ _ _ _ files files_distinct Hok fs fs1 H)
    as Up.
  split; [exact Up | ]. intros autoUpdate. now apply updateFiles_upToDate.
Qed.

Lemma mirror_consistent (fi : fileInfo) :
  In fi files ->
  consistentRemote mirror mirrorMeta mirrorHash fi
  /\ never (localPath fi) = false.
Proof.
  intros _. split; [ | reflexivity].
  intros resp meta dl _ Hd _. injection Hd as <-. reflexivity.
Qed.

Lemma update_is_idempotent_witness :
  (forall fi, In fi files ->
              upToDate mirror mirrorMeta mirrorHash never mirrored fi)
  /\ forall autoUpdate,
       updateCsvFiles mirror mirrorMeta mirrorHash false never never
         autoUpdate mirrored
       = (None, mirrored).
Proof.
  apply (update_is_idempotent mirror mirrorMeta mirrorHash never never
           noFiles mirrored).
  - exact mirror_consistent.
  - reflexivity.
Defined.



(** ** main *)



(** When [main] gets as far as the server, the update returned without
    an error and every range of the index was made from a row of a data
    file as the update left it. *)
Lemma main_serving
  (http_Get : string -> option http.Response)
  (decodeMeta : http.Response -> option githubContent)
  (sha1hex : string -> string) (mkdirFails : bool)
  (createFails unreadable : string -> bool)
  (lex : string -> list csv.Row)
  (autoUpdate : bool) (fs : FileSystem)
  (arr : list IpAddressRange) (fs' : FileSystem) :
  main http_Get decodeMeta sha1hex mkdirFails createFails unreadable lex
    autoUpdate fs
  = (Serving arr, fs') ->
  updateCsvFiles http_Get decodeMeta sha1hex mkdirFails createFails
    unreadable autoUpdate fs
  = (None, fs')
  /\ loadCsv (openIn unreadable lex fs') = Val arr
  /\ forall r, In r arr ->
       exists fi data row,
         In fi files /\ fs' (localPath fi) = Some data
         /\ In row (lex data) /\ fromRow r row.
Proof.
  unfold main.
  destruct (updateCsvFiles http_Get decodeMeta sha1hex mkdirFails
              createFails unreadable autoUpdate fs) as [[e | ] fs1] eqn:Eu;
    [discriminate | ].
  destruct (loadCsv (openIn unreadable lex fs1)) as [out | ] eqn:El;
    [ | discriminate].
  intros H. injection H as <- <-.
  split; [reflexivity | ]. split; [exact El | ].
  intros r Hin. unfold loadCsv in El.
  destruct (loadFiles (openIn unreadable lex fs1) files [])
    as [inp | ] eqn:Ef; simpl in El; [ | discriminate].
  injection El as <-.
  apply loadFiles_appends in Ef as (added & -> & Hall). simpl in Hin.
  destruct (Slice_contract added) as [HP _].
  apply (Permutation_in r (Permutation_sym HP)) in Hin.
  rewrite Forall_forall in Hall.
  destruct (Hall r Hin) as (fi & rows & row & Hfi & Ho & Hrow & Hfrom).
  unfold openIn in Ho. fold (localPath fi) in Ho.
  destruct (unreadable (localPath fi)); [discriminate | ].
  destruct (fs1 (localPath fi)) as [data | ] eqn:Ed; [ | discriminate].
  injection Ho as <-. exists fi, data, row. auto.
Qed.

(** X20. The index the server starts with. When [main] gets as far
    as the server, both data files exist, the index is in ascending
    order of start, and each of its ranges was made from a row of one of
    the data files as the update left them. *)
Theorem served_index_comes_from_data_files
  (http_Get : string -> option http.Response)
  (decodeMeta : http.Response -> option githubContent)
  (sha1hex : string -> string) (mkdirFails : bool)
  (createFails unreadable : string -> bool)
  (lex : string -> list csv.Row)
  (autoUpdate : bool) (fs : FileSystem)
  (arr : list IpAddressRange) (fs' : FileSystem) :
  main http_Get decodeMeta sha1hex mkdirFails createFails unreadable lex
    autoUpdate fs
  = (Serving arr, fs') ->
  allPresent fs'
  /\ sortedByStart arr = true
  /\ forall r, In r arr ->
       exists fi data row,
         In fi files /\ fs' (localPath fi) = Some data
         /\ In row (lex data) /\ fromRow r row.
Proof.
  intros Hm.
  destruct (main_serving _ _ _ _ _ _ _ _ _ _ _ Hm) as (Eu & El & Hrows).
  split; [ | split; [exact (loadCsv_sorted _ _ El) | exact Hrows]].
  unfold updateCsvFiles in Eu. destruct mkdirFails; [discriminate | ].
  destruct (updateFiles_post _ _ _ _ _ _ _ _ _ _ Eu) as (_ & _ & Hall).
  exact (Hall eq_refl).
Qed.

Lemma served_index_comes_from_data_files_witness :
  allPresent mirrored
  /\ sortedByStart [mkRange 1 2 "AA"; mkRange 1 2 "AA"] = true
  /\ forall r, In r [mkRange 1 2 "AA"; mkRange 1 2 "AA"] ->
       exists fi data row,
         In fi files /\ mirrored (localPath fi) = Some data
         /\ In row (mirrorLex data) /\ fromRow r row.
Proof.
  apply (served_index_comes_from_data_files mirror mirrorMeta mirrorHash
           false never never mirrorLex true noFiles).
  vm_compute. reflexivity.
Defined.

(** X21. Every positive answer is backed by the data files. When
    [main] has started the server and the handler answers [ok: true],
    one of the data files has a row of at least three fields whose first
    two fields read as integers lo and hi with lo <= query <= hi, for
    the integer the query normalises to, and whose third field is the
    country of the answer. *)
Theorem answers_are_backed_by_rows
  (http_Get : string -> option http.Response)
  (decodeMeta : http.Response -> option githubContent)
  (sha1hex : string -> string) (mkdirFails : bool)
  (createFails unreadable : string -> bool)
  (lex : string -> list csv.Row)
  (autoUpdate : bool) (fs : FileSystem)
  (arr : list IpAddressRange) (fs' : FileSystem)
  (raw : string) (resp : ApiResponse) :
  main http_Get decodeMeta sha1hex mkdirFails createFails unreadable lex
    autoUpdate fs
  = (Serving arr, fs') ->
  getIpInfo arr raw = Val resp ->
  Ok resp = true ->
  exists q fi data f0 f1 f2 more lo hi,
    normalize raw = Val (Some q)
    /\ In fi files /\ fs' (localPath fi) = Some data
    /\ In (csv.Fields (f0 :: f1 :: f2 :: more)) (lex data)
    /\ big.SetString f0 = Some lo /\ big.SetString f1 = Some hi
    /\ lo <= q <= hi
    /\ Country resp = Some f2.
Proof.
  intros Hm Hg Hok.
  destruct (main_serving _ _ _ _ _ _ _ _ _ _ _ Hm) as (_ & _ & Hrows).
  rewrite getIpInfo_unfold in Hg.
  destruct (parseIpAddress raw) as [a | ] eqn:Ha.
  2:{ destruct (normalize raw) as [[q | ] | ]; try discriminate;
        injection Hg as <-; discriminate. }
  destruct (accepted_normalizes raw a Ha) as (ip & q & _ & _ & _ & Hn).
  rewrite Hn in Hg.
  destruct (lookup arr q) as [[c | ] | ] eqn:Hl; try discriminate.
  2:{ injection Hg as <-. discriminate. }
  injection Hg as <-. simpl.
  destruct (lookup_hit arr q c Hl) as (idx & r & _ & _ & Hr & Hc & Hin & _).
  destruct (Hrows r (nth_error_In _ _ Hr))
    as (fi & data & row & Hfi & Hd & Hrow
        & f0 & f1 & f2 & more & -> & H0 & H1 & H2).
  exists q, fi, data, f0, f1, f2, more, (start r), (end_ r).
  repeat split; auto; try apply Hin. congruence.
Qed.

Lemma answers_are_backed_by_rows_witness :
  exists q fi data f0 f1 f2 more lo hi,
    normalize "0.0.0.1" = Val (Some q)
    /\ In fi files /\ mirrored (localPath fi) = Some data
    /\ In (csv.Fields (f0 :: f1 :: f2 :: more)) (mirrorLex data)
    /\ big.SetString f0 = Some lo /\ big.SetString f1 = Some hi
    /\ lo <= q <= hi
    /\ Some "AA"%string = Some f2.
Proof.
  apply (answers_are_backed_by_rows mirror mirrorMeta mirrorHash false
           never never mirrorLex true noFiles
           [mkRange 1 2 "AA"; mkRange 1 2 "AA"] mirrored "0.0.0.1"
           (mkApiResponse true (Some "AA"%string)
              (mkIpAddress (Some "0.0.0.1"%string) false))).
  - vm_compute. reflexivity.
  - vm_compute. reflexivity.
  - reflexivity.
Defined.
